(** * ipcgame.c: a racing game between processes

    One watchdog process and [MAXCLIENTS] client processes are forked by
    [main].  Every client sends [MSGNR] messages carrying its number through
    a System V message queue; the watchdog receives them, keeps a private
    score table, publishes the current frontrunner in a shared memory
    segment guarded by a binary semaphore, and sends SIGUSR1 to the clients
    once a winner is known.

    The development embeds each process of the program as a function in a
    small monad of process behaviours.  A process is run against an
    environment [env] which answers its system calls (results of [semop] and
    [msgsnd] and [shmat], the pid and the process group, the C library's
    random generator), says when SIGUSR1 arrives from another process, and
    says what the other processes do to the shared segment between two
    steps of this one.  The result is the way the process ends
    together with the shared segment, and the chronological list of the
    calls and shared-memory accesses it made. *)

From Stdlib Require Import ZArith String Ascii Lia DecimalString Bool.
From Stdlib Require DecimalZ.
From stdpp Require Import base list relations.

Open Scope Z_scope.

(** ** Constants (lines 28-34 of the source, and the platform's) *)

Definition MAXCLIENTS : Z := 12.
Definition BUFSIZE : Z := 100.
Definition MSGNR : Z := 100.
Definition SERVER : Z := 1.
Definition LOCK : Z := -1.
Definition UNLOCK : Z := 1.
Definition MAXRUNS : Z := MSGNR * MAXCLIENTS.

Definition EXIT_SUCCESS : Z := 0.
Definition EXIT_FAILURE : Z := 1.
Definition SIGUSR1 : Z := 10.
Definition INT_MAX : Z := 2147483647.
Definition INT_MIN : Z := -2147483648.

(** ** The shared segment [game] (lines 42-46) *)

Record game := mk_game {
  frontrunner : Z;
  runs_done : Z;
  clientpids : list Z
}.

(** The value of a [game*]: the address at which [shmat] attached the
    segment, or the pointer -1, which [shmat] returns when it fails. *)
Inductive pointer :=
| Segment
| MinusOne.

(** The three lvalues a process can reach through its [game*]. *)
Inductive field :=
| Ffrontrunner
| Fruns_done
| Fclientpids (i : Z).

Definition in_clients (i : Z) : bool := (0 <=? i) && (i <? MAXCLIENTS).

(** Reading and writing a field.  [clientpids] has [MAXCLIENTS] slots; an
    index outside the array has no defined meaning in C and gives [None]. *)
Definition load (g : game) (f : field) : option Z :=
  match f with
  | Ffrontrunner => Some (frontrunner g)
  | Fruns_done => Some (runs_done g)
  | Fclientpids i =>
      if in_clients i then clientpids g !! Z.to_nat i else None
  end.

Definition store (g : game) (f : field) (v : Z) : option game :=
  match f with
  | Ffrontrunner => Some (mk_game v (runs_done g) (clientpids g))
  | Fruns_done => Some (mk_game (frontrunner g) v (clientpids g))
  | Fclientpids i =>
      if in_clients i && (Z.to_nat i <? length (clientpids g))%nat
      then Some (mk_game (frontrunner g) (runs_done g)
                         (<[Z.to_nat i := v]> (clientpids g)))
      else None
  end.

(** The segment as [main] leaves it before the first fork: [shmget] hands
    out zero-filled memory and line 96 stores 0 in [runs_done]. *)
Definition init_game : game :=
  mk_game 0 0 (replicate (Z.to_nat MAXCLIENTS) 0).

(** ** What a process does: events *)

(** What [msgrcv] hands to the watchdog: an error, or a message whose
    [data] is the C string it carries. *)
Inductive rcv :=
| RcvErr
| RcvMsg (data : string).

Inductive event :=
| EvPrintf (s : string)
| EvPerror (s : string)
| EvSemop (op : Z) (ok : bool)
| EvShmRead (f : field) (v : Z)
| EvShmWrite (f : field) (v : Z)
| EvMsgsnd (data : string) (ok : bool)
| EvMsgrcv (r : rcv)
| EvSigaction (ok : bool)
| EvUsleep (usec : Z)
| EvKill (pid : Z) (sig : Z).

(** Behaviour the C standard leaves undefined. *)
Inductive fault :=
| UninitRead           (* [client_nr] read before any assignment *)
| OutOfBounds (i : Z)  (* array subscript outside the array *)
| IntOverflow          (* signed arithmetic leaving [int] *)
| ScanRange            (* [%d] on a number that does not fit an [int] *)
| BadPointer.          (* access through the pointer -1 *)

(** The ways a process stops before the end of the function at hand. *)
Inductive halt :=
| Exit (status : Z)
| KilledBy (sig : Z)
| Undefined (f : fault)
| BlockedForever.

(** ** Environment and process state *)

Record env := mk_env {
  pid : Z;                       (* getpid() *)
  semop_ok : nat -> bool;        (* does a semop made at this step succeed *)
  msgsnd_ok : nat -> bool;       (* does a msgsnd made at this step succeed *)
  sigaction_ok : bool;
  sigusr1_at : option nat;       (* the step before which SIGUSR1 arrives *)
  others : nat -> game -> game;  (* the other processes, before each step *)
  prng_init : Z -> Z;            (* generator state after srand(seed) *)
  prng_next : Z -> Z * Z;        (* rand(): value and next state *)
  shmat_ok : bool;               (* does the shmat of this process succeed *)
  minus_one_lt_0 : bool;         (* [p < 0] for the pointer -1 *)
  pgrp : Z                       (* getpgrp() *)
}.

Record world := mk_world {
  shm : game;          (* the shared segment *)
  trace : list event;  (* what this process did so far, oldest first *)
  clock : nat;         (* steps taken *)
  rng : Z;             (* state of the C library's generator *)
  handler : bool       (* is SIGHandler installed for SIGUSR1 *)
}.

Definition init_world (g : game) : world := mk_world g [] 0 1 false.

Inductive outcome (A : Type) :=
| Ret (a : A) (w : world)
| Stop (h : halt) (w : world).
Arguments Ret {A} a w.
Arguments Stop {A} h w.

Definition world_of {A} (o : outcome A) : world :=
  match o with Ret _ w => w | Stop _ w => w end.

Definition Proc (A : Type) : Type := world -> outcome A.

Definition ret {A} (a : A) : Proc A := fun w => Ret a w.

Definition bind {A B} (m : Proc A) (k : A -> Proc B) : Proc B :=
  fun w => match m w with
           | Ret a w' => k a w'
           | Stop h w' => Stop h w'
           end.

Declare Scope proc_scope.
Delimit Scope proc_scope with proc.
Bind Scope proc_scope with Proc.
Notation "x <- m ;; k" := (bind m (fun x => k))
  (at level 100, m at next level, k at level 200, right associativity)
  : proc_scope.
Notation "m ;; k" := (bind m (fun _ => k))
  (at level 100, k at level 200, right associativity) : proc_scope.
Open Scope proc_scope.

Definition stop {A} (h : halt) : Proc A := fun w => Stop h w.

(** The process does [e]. *)
Definition log (e : event) (w : world) : world :=
  mk_world (shm w) (trace w ++ [e]) (clock w) (rng w) (handler w).

Definition emit (e : event) : Proc unit := fun w => Ret tt (log e w).

(** [exit] (the buffered output it flushes is already in the trace). *)
Definition exit {A} (status : Z) : Proc A := stop (Exit status).

(** SIGHandler, lines 297-300. *)
Definition SIGHandler {A} (signr : Z) : Proc A := exit EXIT_SUCCESS.

Section Process.

Variable E : env.

Definition signal_due (w : world) : bool :=
  match sigusr1_at E with
  | Some n => (n =? clock w)%nat
  | None => false
  end.

(** SIGUSR1 is delivered: the handler runs if [sigaction] installed it,
    else the default action terminates the process. *)
Definition deliver {A} : Proc A :=
  fun w => if handler w then SIGHandler SIGUSR1 w
           else Stop (KilledBy SIGUSR1) w.

(** Time passes: the other processes have run. *)
Definition tick (w : world) : world :=
  mk_world (others E (clock w) (shm w)) (trace w) (S (clock w)) (rng w)
           (handler w).

(** One step of the process: the other processes have run in between, and
    SIGUSR1 may have arrived. *)
Definition sched : Proc unit :=
  fun w => if signal_due w then deliver (tick w) else Ret tt (tick w).

(** A call that never returns; only a later SIGUSR1 ends the wait. *)
Definition block {A} : Proc A :=
  fun w => match sigusr1_at E with
           | Some n => if (clock w <=? n)%nat then deliver w
                       else Stop BlockedForever w
           | None => Stop BlockedForever w
           end.

Definition printf (s : string) : Proc unit := sched ;; emit (EvPrintf s).
Definition perror (s : string) : Proc unit := sched ;; emit (EvPerror s).
Definition getpid : Proc Z := ret (pid E).

(** [semop(SEMaccess, &sbuf, 1) < 0] is false exactly when this holds. *)
Definition semop (op : Z) : Proc bool :=
  fun w => (sched ;; emit (EvSemop op (semop_ok E (clock w))) ;;
            ret (semop_ok E (clock w))) w.

Definition msgsnd (data : string) : Proc bool :=
  fun w => (sched ;; emit (EvMsgsnd data (msgsnd_ok E (clock w))) ;;
            ret (msgsnd_ok E (clock w))) w.

(** [msgrcv] takes the next message of the queue, here [r]. *)
Definition msgrcv (r : rcv) : Proc rcv := sched ;; emit (EvMsgrcv r) ;; ret r.

(** Does a signal sent to [p] reach the sender itself: [p] is its pid, or
    0, which stands for its process group, or minus the number of that
    group.  ([kill(-1, sig)] of Linux spares the caller.) *)
Definition reaches_self (p : Z) : bool :=
  (p =? pid E) || (p =? 0) || ((p <? -1) && (p =? - pgrp E)).

(** [kill(p, SIGUSR1)].  A signal that the process sends to itself is
    delivered before the call returns. *)
Definition kill_SIGUSR1 (p : Z) : Proc unit :=
  sched ;; emit (EvKill p SIGUSR1) ;;
  if reaches_self p then deliver else ret tt.

Definition sigaction_SIGUSR1 : Proc bool :=
  sched ;; emit (EvSigaction (sigaction_ok E)) ;;
  fun w => Ret (sigaction_ok E)
               (mk_world (shm w) (trace w) (clock w) (rng w)
                         (handler w || sigaction_ok E)).

(** [shmat(SMgame, NULL, SHM_R|SHM_W)], which a process of this program
    calls once after its fork (line 169 in the watchdog, line 240 in a
    client): the value it returns there. *)
Definition shmat : pointer := if shmat_ok E then Segment else MinusOne.

(** [p < 0] for a pointer [p] (lines 169 and 240).  C gives no meaning to
    the comparison of a pointer with the number 0 by [<]; compilers accept
    it and compare the addresses, as unsigned numbers, and then nothing is
    below 0, or as signed ones.  The address of an attached segment is
    taken not to be below 0 either way. *)
Definition lt_0 (p : pointer) : bool :=
  match p with
  | Segment => false
  | MinusOne => minus_one_lt_0 E
  end.

(** An access through the pointer [p]: the access itself where the segment
    is attached; through the pointer -1 its behaviour is undefined. *)
Definition via {A} (p : pointer) (access : Proc A) : Proc A :=
  match p with
  | Segment => access
  | MinusOne => sched ;; stop (Undefined BadPointer)
  end.

(** The accesses to the attached segment. *)
Definition shm_read (f : field) : Proc Z :=
  sched ;;
  fun w => match load (shm w) f with
           | Some v => emit (EvShmRead f v) ;; ret v
           | None => stop (Undefined (OutOfBounds
                           match f with Fclientpids i => i | _ => 0 end))
           end w.

Definition shm_write (f : field) (v : Z) : Proc unit :=
  sched ;;
  fun w => match store (shm w) f v with
           | Some g => Ret tt (log (EvShmWrite f v)
                                 (mk_world g (trace w) (clock w) (rng w)
                                           (handler w)))
           | None => Stop (Undefined (OutOfBounds
                           match f with Fclientpids i => i | _ => 0 end)) w
           end.

Definition srand (seed : Z) : Proc unit :=
  fun w => Ret tt (mk_world (shm w) (trace w) (clock w) (prng_init E seed)
                            (handler w)).

Definition rand : Proc Z :=
  fun w => Ret (fst (prng_next E (rng w)))
               (mk_world (shm w) (trace w) (clock w)
                         (snd (prng_next E (rng w))) (handler w)).

Definition usleep (usec : Z) : Proc unit := sched ;; emit (EvUsleep usec).

End Process.

(** ** The C library's text conversions *)

Definition nl : string := String (ascii_of_nat 10) "".

(** [%d] of [printf] and [snprintf]. *)
Definition dec (n : Z) : string := NilZero.string_of_int (Z.to_int n).

Definition code (c : ascii) : Z := Z.of_N (N_of_ascii c).

(** [isspace] in the C locale. *)
Definition isspace (c : ascii) : bool :=
  (code c =? 32) || ((9 <=? code c) && (code c <=? 13)).

Definition isdigit (c : ascii) : bool := (48 <=? code c) && (code c <=? 57).

Fixpoint skip_spaces (s : string) : string :=
  match s with
  | String c s' => if isspace c then skip_spaces s' else s
  | EmptyString => s
  end.

(** The value of the longest prefix of decimal digits. *)
Fixpoint digits_value (s : string) (acc : Z) : Z :=
  match s with
  | String c s' =>
      if isdigit c then digits_value s' (10 * acc + (code c - 48)) else acc
  | EmptyString => acc
  end.

(** [sscanf(data, "%d", &x)] (C11 7.21.6.2 and 7.21.6.7): white space is
    skipped; if the string ends there the call is an input failure and
    returns EOF; otherwise an optional sign and decimal digits are read; with
    no digit it is a matching failure, the call returns 0 and [x] is left
    alone; else the number is stored and the call returns 1.  A number that
    does not fit an [int] has no defined result. *)
Inductive scan_result :=
| ScanEOF
| ScanNoMatch
| ScanInt (n : Z)
| ScanOverflow.

Definition scan_number (neg : bool) (s : string) : scan_result :=
  match s with
  | String c _ =>
      if isdigit c then
        let v := if neg then - digits_value s 0 else digits_value s 0 in
        if (INT_MIN <=? v) && (v <=? INT_MAX) then ScanInt v else ScanOverflow
      else ScanNoMatch
  | EmptyString => ScanNoMatch
  end.

Definition sscanf_d (data : string) : scan_result :=
  match skip_spaces data with
  | EmptyString => ScanEOF
  | String c s' =>
      if Ascii.eqb c "-" then scan_number true s'
      else if Ascii.eqb c "+" then scan_number false s'
      else scan_number false (String c s')
  end.

Definition EOF : Z := -1.

(** The value [sscanf] returns. *)
Definition scan_return (r : scan_result) : Z :=
  match r with
  | ScanEOF => EOF
  | ScanNoMatch => 0
  | ScanInt _ => 1
  | ScanOverflow => 1
  end.

(** ** Local arrays and [int] arithmetic *)

Definition array_get (a : list Z) (i : Z) : Proc Z :=
  match (if 0 <=? i then a !! Z.to_nat i else None) with
  | Some v => ret v
  | None => stop (Undefined (OutOfBounds i))
  end.

(** [x + 1] on an [int]. *)
Definition int_incr (x : Z) : Proc Z :=
  if x <? INT_MAX then ret (x + 1) else stop (Undefined IntOverflow).

(** [a[i]++] *)
Definition array_incr (a : list Z) (i : Z) : Proc (list Z) :=
  v <- array_get a i ;;
  v' <- int_incr v ;;
  ret (<[Z.to_nat i := v']> a).

(** [for (i=0;i<MAXCLIENTS;i++)]: the values [i] takes. *)
Definition client_indices : list nat := seq 0 (Z.to_nat MAXCLIENTS).

Fixpoint for_each {A} (l : list A) (body : A -> Proc unit) : Proc unit :=
  match l with
  | [] => ret tt
  | x :: l' => body x ;; for_each l' body
  end.

Section Program.

Variable E : env.

(** ** sem_operation (lines 276-288) *)

Definition sem_operation (op : Z) : Proc Z :=
  ok <- semop E op ;;
  if ok then ret 1
  else perror E "semop" ;; ret (-1).

(** ** random_sleep (lines 290-295) *)

Definition random_sleep : Proc unit :=
  p <- getpid E ;;
  srand E (Z.rem p 1234) ;;
  r <- rand E ;;
  usleep E (Z.rem r 398).

(** ** watchdog_code (lines 161-222) *)

(** [watchdog_client] (line 168): what the [shmat] of line 169 returned.
    It is not assigned again. *)
Definition watchdog_client : pointer := shmat E.

(** The watchdog's other local variables.  [client_nr] has no value until
    [sscanf] stores one. *)
Record wd_locals := mk_wd {
  wd_scores : list Z;
  wd_frontrunner : Z;
  wd_winner : Z;
  wd_client_nr : option Z
}.

Definition wd_init : wd_locals :=
  mk_wd (replicate (Z.to_nat MAXCLIENTS) 0) 0 (-1) None.

(** Lines 191-197: one pass over the scores.  The pair is
    [(frontrunner_score, frontrunner)]. *)
Definition scan_step (scores : list Z) (acc : Z * Z) (i : nat) : Z * Z :=
  match scores !! i with
  | Some s => if s >? fst acc then (s, Z.of_nat i) else acc
  | None => acc
  end.

Definition find_frontrunner (scores : list Z) (frontrunner : Z) : Z :=
  snd (fold_left (scan_step scores) client_indices (0, frontrunner)).

(** Lines 188-211: the message counts for [client_nr]. *)
Definition watchdog_score (l : wd_locals) : Proc wd_locals :=
  match wd_client_nr l with
  | None => stop (Undefined UninitRead)
  | Some nr =>
      scores <- array_incr (wd_scores l) nr ;;
      let fr := find_frontrunner scores (wd_frontrunner l) in
      sf <- array_get scores fr ;;
      (if (Z.rem sf 5 =? 0) && (nr =? fr) then
         sn <- array_get scores nr ;;
         printf E ("[watchdog] client " ++ dec nr ++ " first to get to "
                   ++ dec sn ++ " points" ++ nl)
       else ret tt) ;;
      let win := if (sf =? MSGNR) && (nr =? fr) then fr else wd_winner l in
      sem_operation LOCK ;;
      via E watchdog_client (shm_write E Ffrontrunner fr) ;;
      rd <- via E watchdog_client (shm_read E Fruns_done) ;;
      rd' <- int_incr rd ;;
      via E watchdog_client (shm_write E Fruns_done rd') ;;
      sem_operation UNLOCK ;;
      ret (mk_wd scores fr win (Some nr))
  end.

(** Lines 178-213: the body of the do-while loop, for the message [r] that
    [msgrcv] delivers.  [continue] leaves the body for the loop test. *)
Definition watchdog_iteration (r : rcv) (l : wd_locals) : Proc wd_locals :=
  m <- msgrcv E r ;;
  match m with
  | RcvErr => perror E "[watchdog] msgrcv" ;; exit EXIT_FAILURE
  | RcvMsg data =>
      match sscanf_d data with
      | ScanOverflow => stop (Undefined ScanRange)
      | sr =>
          let l1 := match sr with
                    | ScanInt n => mk_wd (wd_scores l) (wd_frontrunner l)
                                         (wd_winner l) (Some n)
                    | _ => l
                    end in
          if scan_return sr <? 0 then
            perror E "[watchdog] sscanf" ;; ret l1
          else watchdog_score l1
      end
  end.

(** Line 214: [winner == -1 && watchdog_client->runs_done < MAXRUNS]. *)
Definition watchdog_test (l : wd_locals) : Proc bool :=
  if wd_winner l =? -1 then
    rd <- via E watchdog_client (shm_read E Fruns_done) ;;
    ret (rd <? MAXRUNS)
  else ret false.

(** The do-while loop over the messages the queue will deliver.  With no
    message left [msgrcv] does not return. *)
Fixpoint watchdog_loop (inbox : list rcv) (l : wd_locals) : Proc wd_locals :=
  match inbox with
  | [] => sched E ;; block E
  | r :: inbox' =>
      l' <- watchdog_iteration r l ;;
      again <- watchdog_test l' ;;
      if again then watchdog_loop inbox' l' else ret l'
  end.

(** Lines 218-221. *)
Definition watchdog_broadcast : Proc unit :=
  for_each client_indices (fun i =>
    p <- via E watchdog_client (shm_read E (Fclientpids (Z.of_nat i))) ;;
    kill_SIGUSR1 E p).

(** Lines 161-222.  After the test of line 169 the function goes on with
    the pointer it has, attached or not. *)
Definition watchdog_code (inbox : list rcv) : Proc unit :=
  p <- getpid E ;;
  printf E ("[watchdog] starting with pid " ++ dec p ++ nl) ;;
  if lt_0 E watchdog_client then
    perror E "[watchdog] shmat" ;; ret tt
  else
    l <- watchdog_loop inbox wd_init ;;
    printf E ("[watchdog] finished, winner: client "
              ++ dec (wd_winner l) ++ nl) ;;
    watchdog_broadcast.

(** The watchdog process: case 0 of the first fork in [main]. *)
Definition watchdog_process (inbox : list rcv) : Proc unit :=
  watchdog_code inbox ;; exit EXIT_SUCCESS.

(** ** client_code (lines 224-274) *)

(** [game_main] of [client_code] (line 239): what the [shmat] of line 240
    returned. *)
Definition game_main : pointer := shmat E.

Record cl_locals := mk_cl {
  cl_frontrunner : Z;
  cl_actual_frontrunner : Z
}.

(** Lines 246-248: the message every send of client [nr] carries. *)
Definition client_message (nr : Z) : string := dec nr.

(** Lines 254-270: one turn of the sending loop. *)
Definition client_iteration (nr : Z) (l : cl_locals) : Proc cl_locals :=
  random_sleep ;;
  ok <- msgsnd E (client_message nr) ;;
  if ok then
    sem_operation LOCK ;;
    actual <- via E game_main (shm_read E Ffrontrunner) ;;
    sem_operation UNLOCK ;;
    ret (mk_cl (if negb (cl_frontrunner l =? actual) then actual
                else cl_frontrunner l) actual)
  else
    perror E ("msgsnd c" ++ dec nr) ;; ret l.

(** [for (i=0;i<MSGNR;i++)], [n] turns left. *)
Fixpoint client_loop (n : nat) (nr : Z) (l : cl_locals) : Proc cl_locals :=
  match n with
  | O => ret l
  | S n' => l' <- client_iteration nr l ;; client_loop n' nr l'
  end.

Definition client_code (nr : Z) : Proc unit :=
  p <- getpid E ;;
  printf E ("[client " ++ dec nr ++ "] starting with pid " ++ dec p ++ nl) ;;
  ok <- sigaction_SIGUSR1 E ;;
  (if ok then ret tt else perror E ("sigaction client " ++ dec nr)) ;;
  (if lt_0 E game_main then perror E "shmat" ;; exit EXIT_FAILURE
   else ret tt) ;;
  client_loop (Z.to_nat MSGNR) nr (mk_cl 0 0) ;;
  printf E ("[client " ++ dec nr ++ "] finished" ++ nl).

(** Lines 122-124: the client stores its pid in its slot, through the
    [game_main] of [main], at which the segment is attached: [main] has
    stored through it at line 96. *)
Definition client_register (i : Z) : Proc unit :=
  sem_operation LOCK ;;
  p <- getpid E ;;
  shm_write E (Fclientpids i) p ;;
  sem_operation UNLOCK ;;
  ret tt.

(** Lines 126-128: what a client does once it is registered. *)
Definition client_run (i : Z) : Proc unit :=
  random_sleep ;;
  client_code i ;;
  exit EXIT_SUCCESS.

(** A client process: case 0 of the forks in [main]'s loop. *)
Definition client_process (i : Z) : Proc unit :=
  client_register i ;;
  client_run i.

End Program.


(** * main (lines 60-159)

    [main] creates the three IPC objects, forks the watchdog and the
    clients, waits, and removes the objects.  It is the program of every
    process: the parent, and each child up to the [fork] that made it. *)

(** ** The calls only [main] makes *)

Inductive syscall :=
| Msgget (ok : bool)
| Semget (ok : bool)
| SemctlSetval (v : Z) (ok : bool)
| Shmget (ok : bool)
| Fork (r : Z)
| Fflush
| Sleep (sec : Z)
| Wait (r : Z)
| MsgctlRmid (ok : bool)
| SemctlRmid (ok : bool)
| ShmctlRmid (ok : bool).

(** What a process running [main] does: the events of the code it shares
    with [watchdog_code] and [client_code], and those calls. *)
Inductive mevent :=
| Ev (e : event)
| Sys (c : syscall).

(** The answers of the system to the calls of [main]: does each creation
    and each removal succeed, and what the [k]-th [fork] returns in this
    process (0 in the child, -1 on error, else the pid of the child). *)
Record sys := mk_sys {
  msgget_ok : bool;
  semget_ok : bool;
  semctl_setval_ok : bool;
  shmget_ok : bool;
  fork_result : nat -> Z;
  msgctl_ok : bool;
  semctl_rmid_ok : bool;
  shmctl_ok : bool
}.

(** The state of a process running [main]: as [world], with the history
    of all it did in place of the trace.  [mshm] is the segment once
    [shmget] has made it. *)
Record mworld := mk_mworld {
  mshm : game;
  history : list mevent;
  mclock : nat;
  mrng : Z;
  mhandler : bool
}.

Inductive moutcome (A : Type) :=
| MRet (a : A) (m : mworld)
| MStop (h : halt) (m : mworld).
Arguments MRet {A} a m.
Arguments MStop {A} h m.

Definition MProc (A : Type) : Type := mworld -> moutcome A.

Definition mret {A} (a : A) : MProc A := fun m => MRet a m.

Definition mbind {A B} (p : MProc A) (k : A -> MProc B) : MProc B :=
  fun m => match p m with
           | MRet a m' => k a m'
           | MStop h m' => MStop h m'
           end.

Declare Scope mproc_scope.
Delimit Scope mproc_scope with mproc.
Bind Scope mproc_scope with MProc.
Notation "x <- p ;; k" := (mbind p (fun x => k))
  (at level 100, p at next level, k at level 200, right associativity)
  : mproc_scope.
Notation "p ;; k" := (mbind p (fun _ => k))
  (at level 100, k at level 200, right associativity) : mproc_scope.

Definition mexit {A} (status : Z) : MProc A := fun m => MStop (Exit status) m.

(** The process makes the call [e]. *)
Definition record (e : mevent) : MProc unit :=
  fun m => MRet tt (mk_mworld (mshm m) (history m ++ [e]) (mclock m) (mrng m)
                              (mhandler m)).

(** A piece of code written for [Proc] runs inside [main]: it starts in the
    state of the process, and what it does is added to the history. *)
Definition as_world (m : mworld) : world :=
  mk_world (mshm m) [] (mclock m) (mrng m) (mhandler m).

Definition resume (m : mworld) (w : world) : mworld :=
  mk_mworld (shm w) (history m ++ map Ev (trace w)) (clock w) (rng w)
            (handler w).

Definition run {A} (p : Proc A) : MProc A :=
  fun m => match p (as_world m) with
           | Ret a w => MRet a (resume m w)
           | Stop h w => MStop h (resume m w)
           end.

(** [fork] returned 0: this is the child, a new process.  It has done
    nothing yet; the segment stays attached, the generator and the signal
    dispositions are those of the parent. *)
Definition newborn : MProc unit :=
  fun m => MRet tt (mk_mworld (mshm m) [] (mclock m) (mrng m) (mhandler m)).

(** The segment [shmget] creates is filled with zeros. *)
Definition fresh_segment : game :=
  mk_game 0 0 (replicate (Z.to_nat MAXCLIENTS) 0).

Section Main.

Variable E : env.
Variable S : sys.

(** A call of [main]: like every step of a process it lets the others run
    and may be cut short by SIGUSR1. *)
Definition call (c : syscall) : MProc unit :=
  (run (sched E) ;; record (Sys c))%mproc.

Definition shmget : MProc bool :=
  (call (Shmget (shmget_ok S)) ;;
   if shmget_ok S then
     fun m => MRet true (mk_mworld fresh_segment (history m) (mclock m)
                                   (mrng m) (mhandler m))
   else mret false)%mproc.

Definition fork (k : nat) : MProc Z :=
  (call (Fork (fork_result S k)) ;; mret (fork_result S k))%mproc.

(** Lines 65-99.  The attachment of line 92 is taken to succeed: [main]
    stores through its pointer at line 96, before any fork, so that every
    child is made with the segment attached there. *)
Definition main_setup : MProc unit :=
  (call (Msgget (msgget_ok S)) ;;
   (if msgget_ok S then run (printf E ("WatchdogMQ initialized" ++ nl))
    else run (perror E "msgget") ;; mexit EXIT_FAILURE) ;;
   call (Semget (semget_ok S)) ;;
   (if semget_ok S then
      call (SemctlSetval 1 (semctl_setval_ok S)) ;;
      if semctl_setval_ok S then
        run (printf E ("SEMaccess initialized" ++ nl))
      else run (perror E "semctl") ;; mexit EXIT_FAILURE
    else run (perror E "semget") ;; mexit EXIT_FAILURE) ;;
   made <- shmget ;;
   if made then
     run (shm_write E Fruns_done 0) ;;
     run (printf E ("SMgame initialized" ++ nl))
   else run (perror E "shmget") ;; mexit EXIT_FAILURE)%mproc.

(** Lines 119-134: the forks [k], [k+1], ... make the clients [idx].  In
    the child, [exit] does not return; the code after it is the next case
    of the [switch]. *)
Fixpoint fork_clients (k : nat) (idx : list nat) : MProc unit :=
  match idx with
  | [] => mret tt
  | i :: idx' =>
      (r <- fork k ;;
       if r =? 0 then
         newborn ;;
         run (client_process E (Z.of_nat i)) ;;
         run (perror E "fork") ;; mexit EXIT_FAILURE
       else if r =? -1 then
         run (perror E "fork") ;; mexit EXIT_FAILURE
       else fork_clients (Datatypes.S k) idx')%mproc
  end.

(** Line 137, [while (wait(NULL) < 0);], for the values [waits] that
    [wait] will return.  With none left [wait] does not return. *)
Fixpoint wait_loop (waits : list Z) : MProc unit :=
  match waits with
  | [] => run (sched E ;; block E)
  | r :: waits' =>
      (call (Wait r) ;;
       if r <? 0 then wait_loop waits' else mret tt)%mproc
  end.

(** Lines 139-157. *)
Definition main_cleanup : MProc unit :=
  (call Fflush ;;
   run (printf E ("---clients-fin----" ++ nl)) ;;
   run (printf E ("cleaning up" ++ nl)) ;;
   call (MsgctlRmid (msgctl_ok S)) ;;
   (if msgctl_ok S then run (printf E ("WatchdogMQ deleted" ++ nl))
    else run (perror E "msgctl")) ;;
   call (SemctlRmid (semctl_rmid_ok S)) ;;
   (if semctl_rmid_ok S then run (printf E ("SEMaccess deleted" ++ nl))
    else run (perror E "semctl")) ;;
   call (ShmctlRmid (shmctl_ok S)) ;;
   (if shmctl_ok S then run (printf E ("SMgame deleted" ++ nl))
    else run (perror E "shmctl")))%mproc.

(** [main], for the messages [inbox] that [msgrcv] will deliver if this
    process is the watchdog and the values [waits] that [wait] will return
    if it is the parent. *)
Definition main (inbox : list rcv) (waits : list Z) : MProc unit :=
  (main_setup ;;
   r <- fork 0 ;;
   (if r =? 0 then
      newborn ;;
      run (watchdog_process E inbox)
    else if r =? -1 then
      run (perror E "fork") ;; mexit EXIT_FAILURE
    else mret tt) ;;
   call Fflush ;;
   run (printf E ("-----forking-----" ++ nl)) ;;
   fork_clients 1 client_indices ;;
   call (Sleep 2) ;;
   wait_loop waits ;;
   main_cleanup)%mproc.

End Main.

(** * Vocabulary of the statements *)

(** ** Judgements on processes *)

(** [wp m Q R w]: run from [w], [m] either returns [a] in a world with
    [Q a], or stops for reason [h] in a world with [R h]. *)
Definition wp {A} (m : Proc A) (Q : A -> world -> Prop)
    (R : halt -> world -> Prop) (w : world) : Prop :=
  match m w with
  | Ret a w' => Q a w'
  | Stop h w' => R h w'
  end.

(** [m] keeps the invariant [I], however it ends. *)
Definition preserves {A} (I : world -> Prop) (m : Proc A) : Prop :=
  forall w, I w -> I (world_of (m w)).

(** From any world [m] returns a value in [Q] or stops for a reason in
    [R]. *)
Definition yields {A} (m : Proc A) (Q : A -> Prop) (R : halt -> Prop) : Prop :=
  forall w, wp m (fun a _ => Q a) (fun h _ => R h) w.

(** From a world in [P], [m] returns [a] in a world in [Q a], or stops in
    a world in [R]. *)
Definition hoare {A} (P : world -> Prop) (m : Proc A)
    (Q : A -> world -> Prop) (R : world -> Prop) : Prop :=
  forall w, P w -> wp m Q (fun _ => R) w.

(** A computation on locals leaves the world alone. *)
Definition pure {A} (m : Proc A) : Prop := forall w, world_of (m w) = w.

(** An invariant of the world that survives whatever a process does
    except writing to the segment: it is kept when time passes, when an
    event allowed by [P] is added to the trace, and when the generator or
    the handler change. *)
Record stable (E : env) (P : event -> Prop) (I : world -> Prop) : Prop := {
  st_tick : forall w, I w -> I (tick E w);
  st_log : forall e w, P e -> I w -> I (log e w);
  st_local : forall w r h,
      I w -> I (mk_world (shm w) (trace w) (clock w) r h)
}.

(** ** Environments *)

(** No other process sends SIGUSR1 to the process. *)
Definition quiet (E : env) : Prop := sigusr1_at E = None.

(** The [shmat] of the process succeeds. *)
Definition attached (E : env) : Prop := shmat_ok E = true.

(** The other processes do nothing. *)
Definition alone (E : env) : Prop := forall n g, others E n g = g.

(** The other processes never store into [runs_done]. *)
Definition keeps_runs_done (E : env) : Prop :=
  forall n g, runs_done (others E n g) = runs_done g.

(** The other processes keep the shape of the pid table. *)
Definition pids_kept (E : env) : Prop :=
  forall n g, length (clientpids (others E n g)) = length (clientpids g).

(** Every semaphore operation succeeds. *)
Definition semop_succeeds (E : env) : Prop := forall n, semop_ok E n = true.

(** Every call succeeds, no signal arrives, the other processes leave the
    segment alone; the generator is the linear congruential one of the C
    standard's example; pointers are compared as unsigned numbers; the
    process group is that of a parent with the pid before this one. *)
Definition calm_env : env :=
  mk_env 4242 (fun _ => true) (fun _ => true) true None (fun _ g => g)
         (fun seed => seed)
         (fun s => let s' := (s * 1103515245 + 12345) mod 2147483648 in
                   ((s' / 65536) mod 32768, s'))
         true false 4241.

(** The same, but every [semop] fails. *)
Definition nosem_env : env :=
  mk_env 4242 (fun _ => false) (fun _ => true) true None (fun _ g => g)
         (prng_init calm_env) (prng_next calm_env) true false 4241.


(** ** How a process stops *)

(** How the process ends when SIGUSR1 arrives. *)
Definition sig_halt (w : world) : halt :=
  if handler w then Exit EXIT_SUCCESS else KilledBy SIGUSR1.

(** The process was stopped by SIGUSR1. *)
Definition signalled (h : halt) : Prop :=
  h = Exit EXIT_SUCCESS \/ h = KilledBy SIGUSR1.

(** The process stopped at an access through the pointer of a failed
    [shmat]. *)
Definition unattached (E : env) (h : halt) : Prop :=
  shmat_ok E = false /\ h = Undefined BadPointer.

(** It was stopped by SIGUSR1 or at such an access. *)
Definition cut_short (E : env) (h : halt) : Prop :=
  signalled h \/ unattached E h.

(** ** What a process did, and what it left alone *)

(** Since [w0] the process added events to its trace, all in [P]. *)
Definition emitted (P : event -> Prop) (w0 w : world) : Prop :=
  exists evs, trace w = trace w0 ++ evs /\ Forall P evs.

(** The segment after the other processes alone have acted on it during
    the [n] steps from step [c] on. *)
Fixpoint interfere (E : env) (c n : nat) (g : game) : game :=
  match n with
  | O => g
  | S n' => interfere E (S c) n' (others E c g)
  end.

(** Since [w0] the segment changed only by what the others did: this
    process stored nothing in it. *)
Definition unwritten (E : env) (w0 w : world) : Prop :=
  (clock w0 <= clock w)%nat /\
  shm w = interfere E (clock w0) (clock w - clock w0) (shm w0).

(** Apart from slot [i] of [clientpids], the segment of [w] is that of
    [w0]. *)
Definition same_but_slot (i : Z) (w0 w : world) : Prop :=
  frontrunner (shm w) = frontrunner (shm w0) /\
  runs_done (shm w) = runs_done (shm w0) /\
  forall j, j <> i ->
    load (shm w) (Fclientpids j) = load (shm w0) (Fclientpids j).

(** The pid table has its [MAXCLIENTS] slots. *)
Definition pids_wf (w : world) : Prop :=
  length (clientpids (shm w)) = Z.to_nat MAXCLIENTS.



Definition is_kill (e : event) : bool :=
  match e with EvKill _ sig => sig =? SIGUSR1 | _ => false end.

(** The number of SIGUSR1 sent. *)
Definition kills (evs : list event) : nat := length (filter is_kill evs).

(** ** random_sleep and sem_operation *)

(** The generator after [srand(getpid()%1234)] and one [rand()]. *)
Definition reseed (E : env) (w : world) : world :=
  mk_world (shm w) (trace w) (clock w)
           (snd (prng_next E (prng_init E (Z.rem (pid E) 1234)))) (handler w).

(** The one delay a process with this pid ever sleeps. *)
Definition sleep_usec (E : env) : Z :=
  Z.rem (fst (prng_next E (prng_init E (Z.rem (pid E) 1234)))) 398.

Definition sleeps_only (d : Z) (e : event) : Prop :=
  match e with
  | EvUsleep d' => d' = d
  | _ => True
  end.

(** [sem_operation op] called in [w], when no signal arrives: the value
    it returns, the world it leaves, the events of the call. *)
Definition sem_value (E : env) (w : world) : Z :=
  if semop_ok E (clock w) then 1 else -1.

Definition sem_world (E : env) (op : Z) (w : world) : world :=
  if semop_ok E (clock w) then log (EvSemop op true) (tick E w)
  else log (EvPerror "semop") (tick E (log (EvSemop op false) (tick E w))).


(** ** The clients *)

(** The events of [client_code nr]: output, semaphore calls, the
    installation of the handler, reads of [frontrunner], sends of the
    client's own message, sleeps of the one delay.  No write, no receive,
    no kill. *)
Definition reporting_event (E : env) (nr : Z) (e : event) : Prop :=
  match e with
  | EvPrintf _ | EvPerror _ | EvSemop _ _ => True
  | EvSigaction ok => ok = sigaction_ok E
  | EvShmRead f _ => f = Ffrontrunner
  | EvMsgsnd data _ => data = client_message nr
  | EvUsleep d => d = sleep_usec E
  | EvShmWrite _ _ | EvMsgrcv _ | EvKill _ _ => False
  end.

(** The events of a whole client process: those, and the write of the pid
    into the client's own slot. *)
Definition client_event (E : env) (i : Z) (e : event) : Prop :=
  match e with
  | EvShmWrite f v => f = Fclientpids i /\ v = pid E
  | _ => reporting_event E i e
  end.

(** The world after the sleep and the [msgsnd] of a turn of client [nr]'s
    loop, the send having succeeded or not. *)
Definition sent (E : env) (nr : Z) (ok : bool) (w : world) : world :=
  log (EvMsgsnd (client_message nr) ok)
      (tick E (log (EvUsleep (sleep_usec E)) (tick E (reseed E w)))).

(** The value of [frontrunner] a read made in [w] finds in the segment,
    and the world after that read. *)
Definition leader_seen (E : env) (w : world) : Z := frontrunner (shm (tick E w)).

Definition leader_read (E : env) (w : world) : world :=
  log (EvShmRead Ffrontrunner (leader_seen E w)) (tick E w).

(** A message as [client_code] sends them. *)
Definition sent_by_client (r : rcv) : Prop :=
  exists nr, 0 <= nr < MAXCLIENTS /\ r = RcvMsg (client_message nr).

(** ** The watchdog's scores *)

(** [scores[i]] *)
Definition score_of (scores : list Z) (i : Z) : Z :=
  default 0 (scores !! Z.to_nat i).

(** [fr] is the lowest-numbered client among those with the greatest
    score. *)
Definition leads (scores : list Z) (fr : Z) : Prop :=
  0 <= fr < MAXCLIENTS /\
  (forall j, 0 <= j < MAXCLIENTS -> score_of scores j <= score_of scores fr) /\
  (forall j, 0 <= j < fr -> score_of scores j < score_of scores fr).

(** The locals once [sscanf] has looked at [data]. *)
Definition parsed (data : string) (l : wd_locals) : wd_locals :=
  match sscanf_d data with
  | ScanInt n => mk_wd (wd_scores l) (wd_frontrunner l) (wd_winner l) (Some n)
  | _ => l
  end.

(** The locals after a message was counted for client [nr], whose score
    was [s]. *)
Definition counted (l : wd_locals) (nr s : Z) : wd_locals :=
  let scores := <[Z.to_nat nr := s + 1]> (wd_scores l) in
  let fr := find_frontrunner scores (wd_frontrunner l) in
  mk_wd scores fr
        (if (score_of scores fr =? MSGNR) && (nr =? fr) then fr
         else wd_winner l)
        (Some nr).

(** A delivery that names a client: an error of [msgrcv], or a message
    that [sscanf] reads as a number in [0, MAXCLIENTS). *)
Definition in_range (r : rcv) : Prop :=
  match r with
  | RcvErr => True
  | RcvMsg data => exists n, sscanf_d data = ScanInt n /\ 0 <= n < MAXCLIENTS
  end.

Definition bad_index (a : list Z) (i : Z) : Prop :=
  i < 0 \/ a !! Z.to_nat i = None.

(** What [watchdog_score] returns, and the ways it stops. *)
Definition score_ret (l l' : wd_locals) : Prop :=
  exists nr s, wd_client_nr l = Some nr /\ 0 <= nr /\
               wd_scores l !! Z.to_nat nr = Some s /\ s < INT_MAX /\
               l' = counted l nr s.

Definition score_halt (E : env) (l : wd_locals) (h : halt) : Prop :=
  cut_short E h \/
  h = Undefined IntOverflow \/
  (wd_client_nr l = None /\ h = Undefined UninitRead) \/
  (exists nr, wd_client_nr l = Some nr /\ h = Undefined (OutOfBounds nr) /\
              bad_index (wd_scores l) nr) \/
  (exists nr s, wd_client_nr l = Some nr /\
                wd_scores l !! Z.to_nat nr = Some s /\
                h = Undefined (OutOfBounds (wd_frontrunner (counted l nr s))) /\
                bad_index (wd_scores (counted l nr s))
                          (wd_frontrunner (counted l nr s))).

(** What an iteration of the loop returns, and the ways it stops. *)
Definition iteration_ret (r : rcv) (l l' : wd_locals) : Prop :=
  exists data, r = RcvMsg data /\
    ((sscanf_d data = ScanEOF /\ l' = l) \/
     (0 <= scan_return (sscanf_d data) /\ score_ret (parsed data l) l')).

Definition iteration_halt (E : env) (r : rcv) (l : wd_locals) (h : halt)
    : Prop :=
  signalled h \/
  (r = RcvErr /\ h = Exit EXIT_FAILURE) \/
  (exists data, r = RcvMsg data /\
     ((sscanf_d data = ScanOverflow /\ h = Undefined ScanRange) \/
      (0 <= scan_return (sscanf_d data) /\ score_halt E (parsed data l) h))).

(** ** The watchdog's loop *)

(** What holds of the locals each time the loop starts its body: twelve
    scores, none at the target yet, no winner, [frontrunner] and (once set)
    [client_nr] numbers of clients. *)
Definition wd_ok (l : wd_locals) : Prop :=
  length (wd_scores l) = Z.to_nat MAXCLIENTS /\
  Forall (fun s => 0 <= s < MSGNR) (wd_scores l) /\
  0 <= wd_frontrunner l < MAXCLIENTS /\
  wd_winner l = -1 /\
  (forall nr, wd_client_nr l = Some nr -> 0 <= nr < MAXCLIENTS).

(** [wd_at E l0 w0 ms l w]: started with locals [l0] in world [w0], the
    loop has consumed the messages [ms], its test has held after each of
    them, and it is back at the start of its body with [l] in [w]. *)
Inductive wd_at (E : env) : wd_locals -> world -> list rcv ->
                           wd_locals -> world -> Prop :=
| wd_at_start l w : wd_at E l w [] l w
| wd_at_next l0 w0 r l1 w1 w1' ms l w :
    watchdog_iteration E r l0 w0 = Ret l1 w1 ->
    watchdog_test E l1 w1 = Ret true w1' ->
    wd_at E l1 w1' ms l w ->
    wd_at E l0 w0 (r :: ms) l w.

(** ** The counter [runs_done] *)

Definition runs_done_write (e : event) : option Z :=
  match e with
  | EvShmWrite Fruns_done v => Some v
  | _ => None
  end.

(** The values the process stored into [runs_done], in order. *)
Definition runs_done_writes (evs : list event) : list Z :=
  omap runs_done_write evs.

(** [runs_done] is [k], and this process stored 1, 2, ..., [k] into it. *)
Definition tally (k : nat) (w : world) : Prop :=
  runs_done (shm w) = Z.of_nat k /\
  runs_done_writes (trace w) = map Z.of_nat (seq 1 k).

(** At most [MAXRUNS] messages were counted. *)
Definition within_bound (w : world) : Prop :=
  exists k, tally k w /\ Z.of_nat k <= MAXRUNS.

(** The sum of the scores. *)
Definition total (scores : list Z) : Z := foldr Z.add 0 scores.

(** ** The semaphore as a lock *)

(** Does the process hold the lock after [e], given that it did so or not
    before: a successful [semop] of -1 takes it, one of +1 gives it back. *)
Definition lock_step (held : bool) (e : event) : bool :=
  match e with
  | EvSemop op true =>
      if op =? LOCK then true else if op =? UNLOCK then false else held
  | _ => held
  end.

(** Does it hold the lock after the events [evs] of its life. *)
Definition holds (evs : list event) : bool := fold_left lock_step evs false.

Definition is_write (e : event) : bool :=
  match e with EvShmWrite _ _ => true | _ => false end.

Definition is_access (e : event) : bool :=
  match e with EvShmRead _ _ | EvShmWrite _ _ => true | _ => false end.

(** Every event of [evs] that [needs] the lock happens while it is
    held, [held] telling whether it is at the start. *)
Fixpoint guarded (needs : event -> bool) (held : bool) (evs : list event)
    : bool :=
  match evs with
  | [] => true
  | e :: evs' =>
      (if needs e then held else true) &&
      guarded needs (lock_step held e) evs'
  end.

Definition guard_ok (needs : event -> bool) (w : world) : Prop :=
  guarded needs false (trace w) = true.

(** So far the process made the accesses that [needs] the lock under
    it, and now holds it or not, as [b] says. *)
Definition locked (needs : event -> bool) (b : bool) (w : world) : Prop :=
  guarded needs false (trace w) = true /\ holds (trace w) = b.

(** An event that neither needs the lock nor moves it. *)
Definition unguarded (needs : event -> bool) (e : event) : Prop :=
  needs e = false /\ forall h, lock_step h e = h.

(** * Further vocabulary: what the processes do besides *)

(** ** The watchdog *)

(** The events of the watchdog's loop: output, semaphore calls, receives,
    reads of [runs_done], stores into [frontrunner] and [runs_done]. *)
Definition loop_event (e : event) : Prop :=
  match e with
  | EvPrintf _ | EvPerror _ | EvSemop _ _ | EvMsgrcv _ => True
  | EvShmRead f _ => f = Fruns_done
  | EvShmWrite f _ => f = Ffrontrunner \/ f = Fruns_done
  | EvMsgsnd _ _ | EvSigaction _ | EvUsleep _ | EvKill _ _ => False
  end.

(** The events of the whole watchdog process: those, the reads of the pid
    table and the SIGUSR1 it sends. *)
Definition watchdog_event (e : event) : Prop :=
  match e with
  | EvShmRead (Fclientpids _) _ => True
  | EvKill _ sig => sig = SIGUSR1
  | _ => loop_event e
  end.

Definition signal_sent (e : event) : option Z :=
  match e with
  | EvKill p sig => if sig =? SIGUSR1 then Some p else None
  | _ => None
  end.

(** The pids SIGUSR1 was sent to, in order. *)
Definition signals_sent (evs : list event) : list Z := omap signal_sent evs.

(** The other processes never store into [frontrunner]. *)
Definition keeps_frontrunner (E : env) : Prop :=
  forall n g, frontrunner (others E n g) = frontrunner g.

(** The segment names [fr] as the frontrunner. *)
Definition publishes (fr : Z) (w : world) : Prop := frontrunner (shm w) = fr.

(** None of the pids is one at which a signal reaches the sender
    itself. *)
Definition strangersb (E : env) (pids : list Z) : bool :=
  forallb (fun p => negb (reaches_self E p)) pids.

(** The pid table holds pids of other processes only. *)
Definition strangers (E : env) (w : world) : Prop :=
  strangersb E (clientpids (shm w)) = true.

(** The other processes keep it so. *)
Definition keeps_strangers (E : env) : Prop :=
  forall n g, strangersb E (clientpids g) = true ->
              strangersb E (clientpids (others E n g)) = true.

(** The pids up to and including the first at which a signal reaches the
    sender itself. *)
Fixpoint up_to_self (E : env) (pids : list Z) : list Z :=
  match pids with
  | [] => []
  | p :: pids' => p :: if reaches_self E p then [] else up_to_self E pids'
  end.

(** The environment of a watchdog with the pid 4242 whose clients, with
    the pids that follow, have stored them in their slots of the table
    before the watchdog takes a step; apart from that, as [calm_env]. *)
Definition client_pid (i : nat) : Z := 4243 + Z.of_nat i.

Definition client_pids : list Z := map client_pid client_indices.

Definition registered_env : env :=
  mk_env 4242 (fun _ => true) (fun _ => true) true None
         (fun _ g => mk_game (frontrunner g) (runs_done g)
                             (imap (fun i _ => client_pid i) (clientpids g)))
         (prng_init calm_env) (prng_next calm_env) true false 4241.

(** [E] for a process with the pid [p]. *)
Definition with_pid (p : Z) (E : env) : env :=
  mk_env p (semop_ok E) (msgsnd_ok E) (sigaction_ok E) (sigusr1_at E)
         (others E) (prng_init E) (prng_next E) (shmat_ok E)
         (minus_one_lt_0 E) (pgrp E).

(** The world in which a watchdog process that started in [w] enters its
    loop, and the one in which it begins its broadcast, the loop having
    returned: each after the line it has printed, when no signal has
    arrived. *)
Definition at_loop (E : env) (w : world) : world :=
  log (EvPrintf ("[watchdog] starting with pid " ++ dec (pid E) ++ nl))
      (tick E w).

Definition at_broadcast (E : env) (inbox : list rcv) (w : world) : world :=
  match watchdog_loop E inbox wd_init (at_loop E w) with
  | Ret l wl =>
      log (EvPrintf ("[watchdog] finished, winner: client "
                     ++ dec (wd_winner l) ++ nl)) (tick E wl)
  | Stop _ wl => wl
  end.

(** The loop has consumed the messages [ms], as [wd_at] says, computed. *)
Fixpoint wd_run (E : env) (l : wd_locals) (w : world) (ms : list rcv)
    : option (wd_locals * world) :=
  match ms with
  | [] => Some (l, w)
  | r :: ms' =>
      match watchdog_iteration E r l w with
      | Ret l1 w1 =>
          match watchdog_test E l1 w1 with
          | Ret true w1' => wd_run E l1 w1' ms'
          | _ => None
          end
      | Stop _ _ => None
      end
  end.

(** ** How a process reacts to SIGUSR1 *)

(** Run from [w], [m] does events in [P], leaves the signal disposition as
    it is, and stops only if SIGUSR1 arrives, or in a way that [F]
    allows. *)
Definition tame_at {A} (F : halt -> Prop) (P : event -> Prop) (m : Proc A)
    (w : world) : Prop :=
  emitted P w (world_of (m w)) /\
  handler (world_of (m w)) = handler w /\
  forall h w', m w = Stop h w' -> h = sig_halt w' \/ F h.

Definition tame {A} (F : halt -> Prop) (P : event -> Prop) (m : Proc A)
    : Prop :=
  forall w, tame_at F P m w.

(** No other way. *)
Definition never (h : halt) : Prop := False.

(** Anything but the installation of a handler. *)
Definition unarmed (e : event) : Prop :=
  match e with EvSigaction _ => False | _ => True end.

(** The life of a client process in parts: what it does before it
    installs the handler (lines 122-126 and 228), the installation, the
    report of its failure (lines 233-235), the test of the attachment
    (lines 240-243) and the loop with the last line (lines 246-273). *)
Definition client_prelude (E : env) (i : Z) : Proc unit :=
  client_register E i ;;
  random_sleep E ;;
  p <- getpid E ;;
  printf E ("[client " ++ dec i ++ "] starting with pid " ++ dec p ++ nl).

Definition client_report (E : env) (nr : Z) (ok : bool) : Proc unit :=
  if ok then ret tt else perror E ("sigaction client " ++ dec nr).

Definition client_attach (E : env) : Proc unit :=
  if lt_0 E (game_main E) then perror E "shmat" ;; exit EXIT_FAILURE
  else ret tt.

Definition client_tail (E : env) (nr : Z) : Proc unit :=
  client_loop E (Z.to_nat MSGNR) nr (mk_cl 0 0) ;;
  printf E ("[client " ++ dec nr ++ "] finished" ++ nl).

(** The ways a client process ends, [evs] being what it did: killed by
    SIGUSR1 with no handler installed; by the handler; at the end of its
    work; at the test of a failed attachment; or, the test having seen
    nothing, at its first access through the pointer. *)
Definition client_end (E : env) (i : Z) (h : halt) (evs : list event)
    : Prop :=
  (h = KilledBy SIGUSR1 /\ ~ In (EvSigaction true) evs) \/
  (h = Exit EXIT_SUCCESS /\ In (EvSigaction true) evs) \/
  (h = Exit EXIT_SUCCESS /\
   exists evs0,
     evs = evs0 ++ [EvPrintf ("[client " ++ dec i ++ "] finished" ++ nl)]) \/
  (h = Exit EXIT_FAILURE /\ shmat_ok E = false /\ minus_one_lt_0 E = true /\
   exists evs0, evs = evs0 ++ [EvPerror "shmat"]) \/
  (h = Undefined BadPointer /\ shmat_ok E = false /\
   minus_one_lt_0 E = false).

(** Run without a handler for SIGUSR1, [m] returns without one, and does
    not stop by [exit(EXIT_SUCCESS)]. *)
Definition unarmed_run {A} (m : Proc A) : Prop :=
  forall w, handler w = false ->
    match m w with
    | Ret _ w' => handler w' = false
    | Stop h _ => h <> Exit EXIT_SUCCESS
    end.

(** ** The calls of the semaphore *)

(** The calls of [sem_operation] taken in turn.  The state is [Some b]
    while LOCK and UNLOCK have been called alternately, LOCK first, [b]
    telling whether the last call was a LOCK; it is [None] once a call has
    come out of turn. *)
Definition turn_step (st : option bool) (e : event) : option bool :=
  match st, e with
  | Some inside, EvSemop op _ =>
      if op =? (if inside then UNLOCK else LOCK) then Some (negb inside)
      else None
  | _, _ => st
  end.

Definition turns (evs : list event) : option bool :=
  fold_left turn_step evs (Some false).

(** Since [w0] the process has called LOCK and UNLOCK in turn, and its
    last call of the two, if any, was a LOCK exactly if [inside]. *)
Definition taking_turns (inside : bool) (w0 w : world) : Prop :=
  exists evs, trace w = trace w0 ++ evs /\ turns evs = Some inside.

Definition in_turns (w0 w : world) : Prop :=
  exists inside, taking_turns inside w0 w.

Definition not_semop (e : event) : Prop :=
  match e with EvSemop _ _ => False | _ => True end.

(** ** The sleeps *)

(** A sleep, if it is one, of less than 398 microseconds. *)
Definition short_sleep (e : event) : Prop :=
  match e with
  | EvUsleep d => 0 <= d < 398
  | _ => True
  end.

(** ** main *)

(** The state of the program when [main] starts: nothing done, the
    generator as [srand(1)] leaves it, no handler installed.  The segment
    does not exist yet; [g] stands for it. *)
Definition boot (g : game) : mworld := mk_mworld g [] 0 1 false.

(** Every creation and every removal succeeds, and [fork] returns what
    [f] says. *)
Definition sys_ok (f : nat -> Z) : sys :=
  mk_sys true true true true f true true true.

(** One call of [main] that returns: the others have run, the call is in
    the history. *)
Definition mstep (E : env) (e : mevent) (m : mworld) : mworld :=
  mk_mworld (others E (mclock m) (mshm m)) (history m ++ [e])
            (Datatypes.S (mclock m)) (mrng m) (mhandler m).

(** SIGUSR1 does not arrive during the [n] steps from step [c] on. *)
Definition no_signal (E : env) (c n : nat) : Prop :=
  forall k, (c <= k < c + n)%nat -> sigusr1_at E <> Some k.

(** The other processes do nothing during the [n] steps from step [c]
    on. *)
Definition idle (E : env) (c n : nat) : Prop :=
  forall k g, (c <= k < c + n)%nat -> others E k g = g.

(** The first creation that fails, under the name [perror] is given. *)
Definition setup_failure (S : sys) : option string :=
  if negb (msgget_ok S) then Some "msgget"%string
  else if negb (semget_ok S) then Some "semget"%string
  else if negb (semctl_setval_ok S) then Some "semctl"%string
  else if negb (shmget_ok S) then Some "shmget"%string
  else None.

(** [fork] made a child and returned in the parent. *)
Definition in_parent (r : Z) : Prop := r <> 0 /\ r <> -1.

Definition is_fork (e : mevent) : bool :=
  match e with Sys (Fork _) => true | _ => false end.

Definition is_wait (e : mevent) : bool :=
  match e with Sys (Wait _) => true | _ => false end.

Definition is_removal (e : mevent) : bool :=
  match e with
  | Sys (MsgctlRmid _) | Sys (SemctlRmid _) | Sys (ShmctlRmid _) => true
  | _ => false
  end.

(** What the process does up to its exit when the creation that [perror]
    names fails, or when a [fork] fails: no child is signalled or waited
    for, nothing is removed. *)
Definition gives_up (e : mevent) : Prop :=
  is_wait e = false /\ is_removal e = false /\
  forall p sig, e <> Ev (EvKill p sig).

(** The state in which a child starts that is forked in [m]. *)
Definition child_of (m : mworld) : world :=
  mk_world (mshm m) [] (mclock m) (mrng m) (mhandler m).

(** The state of a process that ran as [w] says since its [fork]. *)
Definition grown (w : world) : mworld :=
  mk_mworld (shm w) (map Ev (trace w)) (clock w) (rng w) (handler w).

(** The forks [k], ..., [k+n-1] returned in the parent. *)
Fixpoint forked (E : env) (S : sys) (k n : nat) (m : mworld) : mworld :=
  match n with
  | O => m
  | Datatypes.S n' =>
      forked E S (Datatypes.S k) n' (mstep E (Sys (Fork (fork_result S k))) m)
  end.

(** The state after the setup of lines 65-99, all creations having
    succeeded. *)
Definition set_up (E : env) (m : mworld) : mworld :=
  let m6 :=
    mstep E (Sys (Shmget true))
      (mstep E (Ev (EvPrintf ("SEMaccess initialized" ++ nl)))
         (mstep E (Sys (SemctlSetval 1 true))
            (mstep E (Sys (Semget true))
               (mstep E (Ev (EvPrintf ("WatchdogMQ initialized" ++ nl)))
                  (mstep E (Sys (Msgget true)) m))))) in
  let g := others E (mclock m6) fresh_segment in
  mstep E (Ev (EvPrintf ("SMgame initialized" ++ nl)))
    (mk_mworld (mk_game (frontrunner g) 0 (clientpids g))
               (history m6 ++ [Ev (EvShmWrite Fruns_done 0)])
               (Datatypes.S (mclock m6)) (mrng m6) (mhandler m6)).

(** * Reasoning about processes *)

Lemma wp_ret {A} (a : A) Q R w : Q a w -> wp (ret a) Q R w.
Proof. exact (fun H => H). Qed.

Lemma wp_stop {A} h (Q : A -> world -> Prop) R w : R h w -> wp (stop h) Q R w.
Proof. exact (fun H => H). Qed.

Lemma wp_bind {A B} (m : Proc A) (k : A -> Proc B) Q R w :
  wp m (fun a w' => wp (k a) Q R w') R w -> wp (bind m k) Q R w.
Proof. unfold wp, bind. destruct (m w); auto. Qed.

Lemma wp_mono {A} (m : Proc A) (Q Q' : A -> world -> Prop)
    (R R' : halt -> world -> Prop) w :
  (forall a w', Q a w' -> Q' a w') -> (forall h w', R h w' -> R' h w') ->
  wp m Q R w -> wp m Q' R' w.
Proof. unfold wp. destruct (m w); auto. Qed.

Lemma preserves_ret {A} I (a : A) : preserves I (ret a).
Proof. intros w H; exact H. Qed.

Lemma preserves_stop {A} I h : preserves I (@stop A h).
Proof. intros w H; exact H. Qed.

Lemma preserves_bind {A B} I (m : Proc A) (k : A -> Proc B) :
  preserves I m -> (forall a, preserves I (k a)) -> preserves I (bind m k).
Proof.
  intros Hm Hk w Hw. unfold bind. specialize (Hm w Hw).
  destruct (m w) as [a w'|h w']; simpl in *; [apply Hk|]; assumption.
Qed.

Lemma preserves_bind_ret {A B} I (a : A) (k : A -> Proc B) :
  preserves I (k a) -> preserves I (bind (ret a) k).
Proof. intros H w Hw. exact (H w Hw). Qed.

Lemma preserves_if {A} I (b : bool) (m1 m2 : Proc A) :
  preserves I m1 -> preserves I m2 -> preserves I (if b then m1 else m2).
Proof. destruct b; auto. Qed.

Lemma preserves_for_each {A} I (l : list A) body :
  (forall x, preserves I (body x)) -> preserves I (for_each l body).
Proof.
  intros H. induction l as [|x l IH]; simpl.
  - apply preserves_ret.
  - apply preserves_bind; auto.
Qed.

Create HintDb proc discriminated.
#[export] Hint Resolve preserves_ret preserves_stop preserves_bind
  preserves_if preserves_for_each : proc.

Section Steps.

Variable E : env.


Lemma deliver_eq {A} w : @deliver A w = Stop (sig_halt w) w.
Proof. unfold deliver, sig_halt. destruct (handler w); reflexivity. Qed.

Lemma wp_sched Q R w :
  (signal_due E w = true -> R (sig_halt w) (tick E w)) ->
  (signal_due E w = false -> Q tt (tick E w)) ->
  wp (sched E) Q R w.
Proof.
  intros Hs Hr. unfold wp, sched.
  destruct (signal_due E w); [rewrite deliver_eq; apply Hs | apply Hr];
    reflexivity.
Qed.

(** A system call: a step, then its effect [act]. *)
Lemma wp_step {A} (act : Proc A) Q R w :
  (signal_due E w = true -> R (sig_halt w) (tick E w)) ->
  (signal_due E w = false -> wp act Q R (tick E w)) ->
  wp (sched E ;; act) Q R w.
Proof. intros Hs Hr. apply wp_bind, wp_sched; assumption. Qed.

Lemma signal_due_none w : sigusr1_at E = None -> signal_due E w = false.
Proof. unfold signal_due. intros ->. reflexivity. Qed.

Lemma sched_quiet w : signal_due E w = false -> sched E w = Ret tt (tick E w).
Proof. unfold sched. intros ->. reflexivity. Qed.

(** Invariants that do not look at the clock or at what the others do
    are kept by a step. *)
Lemma preserves_sched I :
  (forall w, I w -> I (tick E w)) -> preserves I (sched E).
Proof.
  intros H w Hw. unfold sched.
  destruct (signal_due E w); [rewrite deliver_eq|]; simpl; auto.
Qed.

Lemma preserves_emit I e :
  (forall w, I w -> I (log e w)) -> preserves I (emit e).
Proof. intros H w Hw. simpl. auto. Qed.

(** An access through a pointer: with the segment attached it is the
    access itself; else it is a step that does not return. *)
Lemma via_attached {A} (m : Proc A) : attached E -> via E (shmat E) m = m.
Proof. unfold attached, shmat. intros ->. reflexivity. Qed.

Lemma lt_0_attached : attached E -> lt_0 E (shmat E) = false.
Proof. unfold attached, shmat. intros ->. reflexivity. Qed.

Lemma preserves_via {A} I p (m : Proc A) :
  (forall w, I w -> I (tick E w)) -> preserves I m ->
  preserves I (via E p m).
Proof.
  intros Ht Hm. destruct p; simpl; [exact Hm|].
  apply preserves_bind; [apply preserves_sched, Ht|].
  intros _. apply preserves_stop.
Qed.

End Steps.

(** * Weakest preconditions of the system calls *)

Section WpCalls.

Variable E : env.

Lemma wp_perror s Q R w :
  (signal_due E w = true -> R (sig_halt w) (tick E w)) ->
  (signal_due E w = false -> Q tt (log (EvPerror s) (tick E w))) ->
  wp (perror E s) Q R w.
Proof. intros Hs Hr. apply wp_step; [exact Hs | exact Hr]. Qed.

Lemma wp_semop op Q R w :
  (signal_due E w = true -> R (sig_halt w) (tick E w)) ->
  (signal_due E w = false ->
   Q (semop_ok E (clock w))
     (log (EvSemop op (semop_ok E (clock w))) (tick E w))) ->
  wp (semop E op) Q R w.
Proof.
  intros Hs Hr.
  apply (wp_step E (emit (EvSemop op (semop_ok E (clock w))) ;;
                    ret (semop_ok E (clock w)))); [exact Hs | exact Hr].
Qed.

Lemma wp_sem_operation op Q R w :
  (signal_due E w = true -> R (sig_halt w) (tick E w)) ->
  (signal_due E w = false -> semop_ok E (clock w) = true ->
   Q 1 (log (EvSemop op true) (tick E w))) ->
  (signal_due E w = false -> semop_ok E (clock w) = false ->
   forall w1, w1 = log (EvSemop op false) (tick E w) ->
     (signal_due E w1 = true -> R (sig_halt w1) (tick E w1)) /\
     (signal_due E w1 = false -> Q (-1) (log (EvPerror "semop") (tick E w1)))) ->
  wp (sem_operation E op) Q R w.
Proof.
  intros Hs Hok Hfail. unfold sem_operation. apply wp_bind, wp_semop.
  - exact Hs.
  - intros Hd. destruct (semop_ok E (clock w)) eqn:Hsem.
    + apply wp_ret, Hok; auto.
    + destruct (Hfail Hd eq_refl _ eq_refl) as [H1 H2].
      apply wp_bind, wp_perror; [exact H1|]. intros Hd'. apply wp_ret, H2, Hd'.
Qed.

Lemma wp_shm_read f Q R w :
  (signal_due E w = true -> R (sig_halt w) (tick E w)) ->
  (signal_due E w = false ->
   match load (shm (tick E w)) f with
   | Some v => Q v (log (EvShmRead f v) (tick E w))
   | None => R (Undefined (OutOfBounds
                  match f with Fclientpids i => i | _ => 0 end)) (tick E w)
   end) ->
  wp (shm_read E f) Q R w.
Proof.
  intros Hs Hr. apply wp_step; [exact Hs|]. intros Hd. specialize (Hr Hd).
  unfold wp. destruct (load (shm (tick E w)) f); exact Hr.
Qed.

Lemma wp_shm_write f v Q R w :
  (signal_due E w = true -> R (sig_halt w) (tick E w)) ->
  (signal_due E w = false ->
   match store (shm (tick E w)) f v with
   | Some g => Q tt (log (EvShmWrite f v)
                       (mk_world g (trace w) (S (clock w)) (rng w) (handler w)))
   | None => R (Undefined (OutOfBounds
                  match f with Fclientpids i => i | _ => 0 end)) (tick E w)
   end) ->
  wp (shm_write E f v) Q R w.
Proof.
  intros Hs Hr. apply wp_step; [exact Hs|]. intros Hd. specialize (Hr Hd).
  unfold wp, shm_write. destruct (store (shm (tick E w)) f v); exact Hr.
Qed.

Lemma wp_int_incr x Q R w :
  (x < INT_MAX -> Q (x + 1) w) ->
  (INT_MAX <= x -> R (Undefined IntOverflow) w) ->
  wp (int_incr x) Q R w.
Proof.
  intros H1 H2. unfold wp, int_incr.
  destruct (Z.ltb_spec x INT_MAX); [apply H1 | apply H2]; assumption.
Qed.

Lemma wp_array_get a i Q R w :
  (forall v, 0 <= i -> a !! Z.to_nat i = Some v -> Q v w) ->
  ((i < 0 \/ a !! Z.to_nat i = None) -> R (Undefined (OutOfBounds i)) w) ->
  wp (array_get a i) Q R w.
Proof.
  intros H1 H2. unfold wp, array_get.
  destruct (Z.leb_spec 0 i).
  - destruct (a !! Z.to_nat i) eqn:Hl; [apply H1 | apply H2]; auto.
  - apply H2. left. lia.
Qed.

Lemma wp_block {A} (Q : A -> world -> Prop) (R : halt -> world -> Prop) w :
  R (sig_halt w) w -> R BlockedForever w -> wp (block E) Q R w.
Proof.
  intros H1 H2. unfold wp, block. destruct (sigusr1_at E) as [n|]; [|apply H2].
  destruct (clock w <=? n)%nat; [rewrite deliver_eq; apply H1 | apply H2].
Qed.

End WpCalls.

(** * Rules of the derived judgements *)

Lemma yields_ret {A} (a : A) (Q : A -> Prop) R : Q a -> yields (ret a) Q R.
Proof. intros H w. exact H. Qed.

Lemma yields_stop {A} h (Q : A -> Prop) (R : halt -> Prop) :
  R h -> yields (stop h) Q R.
Proof. intros H w. exact H. Qed.

Lemma yields_bind {A B} (m : Proc A) (k : A -> Proc B) Q1 Q R :
  yields m Q1 R -> (forall a, Q1 a -> yields (k a) Q R) ->
  yields (bind m k) Q R.
Proof.
  intros Hm Hk w. apply wp_bind. specialize (Hm w). unfold wp in *.
  destruct (m w) as [a w'|h w']; [|exact Hm]. apply (Hk a Hm w').
Qed.

Lemma yields_weaken {A} (m : Proc A) (Q Q' : A -> Prop) (R R' : halt -> Prop) :
  (forall a, Q a -> Q' a) -> (forall h, R h -> R' h) ->
  yields m Q R -> yields m Q' R'.
Proof. intros HQ HR H w. eapply wp_mono; [| |apply H]; simpl; auto. Qed.

Lemma yields_inv {A} (m : Proc A) Q R w :
  yields m Q R ->
  match m w with Ret a _ => Q a | Stop h _ => R h end.
Proof. intros H. exact (H w). Qed.

Lemma hoare_ret {A} (a : A) (P : world -> Prop) Q R :
  (forall w, P w -> Q a w) -> hoare P (ret a) Q R.
Proof. intros H w Hw. apply H, Hw. Qed.

Lemma hoare_stop {A} h (P : world -> Prop) (Q : A -> world -> Prop)
    (R : world -> Prop) :
  (forall w, P w -> R w) -> hoare P (stop h) Q R.
Proof. intros H w Hw. apply H, Hw. Qed.

Lemma hoare_bind {A B} (m : Proc A) (k : A -> Proc B) P Q1 Q R :
  hoare P m Q1 R -> (forall a, hoare (Q1 a) (k a) Q R) ->
  hoare P (bind m k) Q R.
Proof.
  intros Hm Hk w Hw. apply wp_bind. specialize (Hm w Hw). unfold wp in *.
  destruct (m w) as [a w'|h w']; [|exact Hm]. apply (Hk a w' Hm).
Qed.

Lemma hoare_bind_ret {A B} (a : A) (k : A -> Proc B) P Q R :
  hoare P (k a) Q R -> hoare P (bind (ret a) k) Q R.
Proof. intros H w Hw. exact (H w Hw). Qed.

Lemma hoare_weaken {A} (m : Proc A) (P P' : world -> Prop)
    (Q Q' : A -> world -> Prop) (R R' : world -> Prop) :
  (forall w, P' w -> P w) -> (forall a w, Q a w -> Q' a w) ->
  (forall w, R w -> R' w) -> hoare P m Q R -> hoare P' m Q' R'.
Proof.
  intros HP HQ HR H w Hw. eapply wp_mono; [| |apply H, HP, Hw]; simpl; auto.
Qed.

Lemma hoare_preserves {A} (m : Proc A) I :
  preserves I m -> hoare I m (fun _ => I) I.
Proof.
  intros H w Hw. specialize (H w Hw). unfold wp.
  destruct (m w); exact H.
Qed.

Lemma hoare_world_of {A} (m : Proc A) P Q R w :
  hoare P m Q R -> P w -> (forall a w', Q a w' -> R w') -> R (world_of (m w)).
Proof.
  intros H Hw HQ. specialize (H w Hw). unfold wp in H.
  destruct (m w); simpl; auto. eapply HQ, H.
Qed.

Lemma hoare_ret_eq {A} (m : Proc A) P Q R w a w' :
  hoare P m Q R -> P w -> m w = Ret a w' -> Q a w'.
Proof.
  intros H Hw Heq. specialize (H w Hw). unfold wp in H. rewrite Heq in H.
  exact H.
Qed.

Section YieldCalls.

Variable E : env.

Lemma signalled_sig_halt w : signalled (sig_halt w).
Proof. unfold signalled, sig_halt. destruct (handler w); auto. Qed.

Lemma yields_sched : yields (sched E) (fun _ => True) signalled.
Proof.
  intros w. apply wp_sched; intros _; [apply signalled_sig_halt | exact Logic.I].
Qed.

Lemma yields_step {A} (act : Proc A) Q :
  (forall w, match act w with Ret a _ => Q a | Stop _ _ => False end) ->
  yields (sched E ;; act) Q signalled.
Proof.
  intros H. eapply yields_bind; [apply yields_sched|].
  intros _ _ w. specialize (H w). unfold wp. destruct (act w); tauto.
Qed.

Lemma yields_printf s : yields (printf E s) (fun _ => True) signalled.
Proof. apply yields_step. intros w. exact Logic.I. Qed.

Lemma yields_perror s : yields (perror E s) (fun _ => True) signalled.
Proof. apply yields_step. intros w. exact Logic.I. Qed.

Lemma yields_msgrcv r : yields (msgrcv E r) (fun m => m = r) signalled.
Proof. apply yields_step. intros w. reflexivity. Qed.

Lemma yields_semop op : yields (semop E op) (fun _ => True) signalled.
Proof.
  intros w.
  apply (yields_step (emit (EvSemop op (semop_ok E (clock w))) ;;
                      ret (semop_ok E (clock w)))).
  intros w'. exact Logic.I.
Qed.

Lemma yields_sem_operation op :
  yields (sem_operation E op) (fun _ => True) signalled.
Proof.
  eapply yields_bind; [apply yields_semop|].
  intros [|] _; [apply yields_ret; exact Logic.I|].
  eapply yields_bind; [apply yields_perror|].
  intros _ _. apply yields_ret. exact Logic.I.
Qed.

Lemma yields_read_runs_done :
  yields (shm_read E Fruns_done) (fun _ => True) signalled.
Proof. apply yields_step. intros w. exact Logic.I. Qed.

Lemma yields_write f v :
  (forall i, f <> Fclientpids i) ->
  yields (shm_write E f v) (fun _ => True) signalled.
Proof.
  intros Hf. apply yields_step. intros w.
  destruct f as [| |i]; simpl; try exact Logic.I. destruct (Hf i eq_refl).
Qed.

(** An access through the pointer of the process: besides the ways of the
    access itself, it stops when SIGUSR1 arrives or when the attachment had
    failed. *)
Lemma yields_via {A} (m : Proc A) Q R :
  yields m Q R -> (forall h, cut_short E h -> R h) ->
  yields (via E (shmat E) m) Q R.
Proof.
  intros Hm HR. unfold shmat. destruct (shmat_ok E) eqn:Hs; [exact Hm|].
  simpl. eapply yields_bind.
  - eapply yields_weaken; [| |apply yields_sched].
    + intros a H. exact H.
    + intros h Hh. apply HR. left. exact Hh.
  - intros _ _. apply yields_stop, HR. right. split; [exact Hs|reflexivity].
Qed.

Lemma hoare_via {A} p (m : Proc A) (P : world -> Prop) Q (R : world -> Prop) :
  hoare P m Q R -> (forall w, P w -> R (tick E w)) ->
  hoare P (via E p m) Q R.
Proof.
  intros Hm Ht. destruct p; simpl; [exact Hm|].
  intros w Hw. apply wp_step; intros _; [|apply wp_stop]; apply Ht, Hw.
Qed.

Lemma yields_int_incr x :
  yields (int_incr x) (fun y => y = x + 1 /\ x < INT_MAX)
         (fun h => h = Undefined IntOverflow).
Proof. intros w. apply wp_int_incr; auto. Qed.

Lemma yields_array_get a i :
  yields (array_get a i) (fun v => 0 <= i /\ a !! Z.to_nat i = Some v)
         (fun h => h = Undefined (OutOfBounds i) /\
                   (i < 0 \/ a !! Z.to_nat i = None)).
Proof. intros w. apply wp_array_get; auto. Qed.

End YieldCalls.

(** * Invariants kept by the system calls *)

Section Stable.

Variable E : env.

Lemma random_sleep_eq w :
  random_sleep E w =
  if signal_due E w then Stop (sig_halt w) (tick E (reseed E w))
  else Ret tt (log (EvUsleep (sleep_usec E)) (tick E (reseed E w))).
Proof.
  unfold random_sleep, getpid, srand, rand, usleep, bind, ret, sched, emit.
  simpl. change (signal_due E _) with (signal_due E w).
  destruct (signal_due E w); [rewrite deliver_eq|]; reflexivity.
Qed.

Section Calls.

Variables (P : event -> Prop) (I : world -> Prop).
Hypothesis HI : stable E P I.

Lemma stable_sched : preserves I (sched E).
Proof. apply preserves_sched, HI. Qed.

Lemma stable_emit e : P e -> preserves I (emit e).
Proof. intros He. apply preserves_emit. intros w. apply HI, He. Qed.

Lemma stable_printf s : P (EvPrintf s) -> preserves I (printf E s).
Proof. intros. apply preserves_bind; auto using stable_sched, stable_emit. Qed.

Lemma stable_perror s : P (EvPerror s) -> preserves I (perror E s).
Proof. intros. apply preserves_bind; auto using stable_sched, stable_emit. Qed.

Lemma stable_kill p : P (EvKill p SIGUSR1) -> preserves I (kill_SIGUSR1 E p).
Proof.
  intros. apply preserves_bind; [apply stable_sched|].
  intros _. apply preserves_bind; [apply stable_emit; assumption|].
  intros _ w Hw. destruct (reaches_self E p); [rewrite deliver_eq|]; exact Hw.
Qed.

Lemma stable_via {A} p (m : Proc A) :
  preserves I m -> preserves I (via E p m).
Proof. apply preserves_via, HI. Qed.

Lemma stable_usleep d : P (EvUsleep d) -> preserves I (usleep E d).
Proof. intros. apply preserves_bind; auto using stable_sched, stable_emit. Qed.

Lemma stable_semop op :
  (forall ok, P (EvSemop op ok)) -> preserves I (semop E op).
Proof.
  intros H w. apply (preserves_bind I (sched E)); [apply stable_sched|].
  intros _. apply preserves_bind; auto using stable_emit with proc.
Qed.

Lemma stable_msgsnd data :
  (forall ok, P (EvMsgsnd data ok)) -> preserves I (msgsnd E data).
Proof.
  intros H w. apply (preserves_bind I (sched E)); [apply stable_sched|].
  intros _. apply preserves_bind; auto using stable_emit with proc.
Qed.

Lemma stable_msgrcv r : P (EvMsgrcv r) -> preserves I (msgrcv E r).
Proof.
  intros H. apply preserves_bind; [apply stable_sched|].
  intros _. apply preserves_bind; auto using stable_emit with proc.
Qed.

Lemma stable_sigaction :
  P (EvSigaction (sigaction_ok E)) -> preserves I (sigaction_SIGUSR1 E).
Proof.
  intros H. apply preserves_bind; [apply stable_sched|].
  intros _. apply preserves_bind; [apply stable_emit, H|].
  intros _ w Hw. simpl. apply (st_local E P I HI), Hw.
Qed.

Lemma stable_shm_read f :
  (forall v, P (EvShmRead f v)) -> preserves I (shm_read E f).
Proof.
  intros H. apply preserves_bind; [apply stable_sched|].
  intros _ w Hw. destruct (load (shm w) f) as [v|]; [|exact Hw].
  apply (preserves_bind I (emit (EvShmRead f v)));
    auto using stable_emit with proc.
Qed.

Lemma stable_sem_operation op :
  (forall ok, P (EvSemop op ok)) -> P (EvPerror "semop") ->
  preserves I (sem_operation E op).
Proof.
  intros H1 H2. apply preserves_bind; [apply stable_semop, H1|].
  intros [|]; auto using stable_perror with proc.
Qed.

Lemma stable_random_sleep :
  P (EvUsleep (sleep_usec E)) -> preserves I (random_sleep E).
Proof.
  intros H w Hw. rewrite random_sleep_eq.
  assert (Ht : I (tick E (reseed E w))).
  { apply HI. apply (st_local E P I HI), Hw. }
  destruct (signal_due E w); simpl; [exact Ht|].
  apply (st_log E P I HI _ _ H Ht).
Qed.

Lemma stable_block {A} : preserves I (@block E A).
Proof.
  intros w Hw. unfold block.
  destruct (sigusr1_at E) as [n|]; [|exact Hw].
  destruct (clock w <=? n)%nat; [rewrite deliver_eq|]; exact Hw.
Qed.

End Calls.

End Stable.

#[export] Hint Resolve stable_sched stable_emit stable_printf stable_perror
  stable_kill stable_usleep stable_semop stable_msgsnd stable_msgrcv
  stable_sigaction stable_shm_read stable_sem_operation stable_random_sleep
  stable_block stable_via : proc.

(** * The clients *)

Section Client.

Variable E : env.

Lemma interfere_snoc c n g :
  interfere E c (S n) g = others E (c + n) (interfere E c n g).
Proof.
  revert c g. induction n as [|n IH]; intros c g.
  - simpl. rewrite Nat.add_0_r. reflexivity.
  - change (interfere E c (S (S n)) g)
      with (interfere E (S c) (S n) (others E c g)).
    rewrite IH. simpl. rewrite Nat.add_succ_r. reflexivity.
Qed.

Lemma stable_emitted P w0 : stable E P (emitted P w0).
Proof.
  split; unfold emitted; simpl; auto.
  intros e w He (evs & Ht & Hall). exists (evs ++ [e]). split.
  - rewrite Ht, app_assoc. reflexivity.
  - apply Forall_app; split; [exact Hall | repeat constructor; exact He].
Qed.

Lemma stable_unwritten P w0 : stable E P (unwritten E w0).
Proof.
  split; unfold unwritten; simpl; auto.
  intros w [Hle Hs]. split; [lia|].
  replace (S (clock w) - clock w0)%nat with (S (clock w - clock w0)) by lia.
  rewrite interfere_snoc, <- Hs. f_equal. lia.
Qed.

Lemma emitted_refl P w : emitted P w w.
Proof. exists []. rewrite app_nil_r. auto. Qed.

Lemma unwritten_refl w : unwritten E w w.
Proof. split; [lia|]. rewrite Nat.sub_diag. reflexivity. Qed.

(** ** Whatever happens: the alphabet of a client *)

Section Alphabet.

Variables (P : event -> Prop) (I : world -> Prop) (nr : Z).
Hypothesis HI : stable E P I.
Hypothesis HP : forall e, reporting_event E nr e -> P e.

Ltac alphabet := try (intros; apply HP; simpl; auto; fail).

Lemma stable_client_iteration l : preserves I (client_iteration E nr l).
Proof.
  unfold client_iteration.
  apply preserves_bind; [eapply stable_random_sleep; eauto; alphabet|].
  intros _. apply preserves_bind; [eapply stable_msgsnd; eauto; alphabet|].
  intros [|].
  - apply preserves_bind; [eapply stable_sem_operation; eauto; alphabet|].
    intros _. apply preserves_bind.
    { eapply stable_via; [exact HI|]. eapply stable_shm_read; eauto; alphabet. }
    intros actual.
    apply preserves_bind; [eapply stable_sem_operation; eauto; alphabet|].
    auto with proc.
  - apply preserves_bind; [eapply stable_perror; eauto; alphabet|].
    auto with proc.
Qed.

Lemma stable_client_loop n l : preserves I (client_loop E n nr l).
Proof.
  revert l. induction n as [|n IH]; intros l; simpl.
  - apply preserves_ret.
  - apply preserves_bind; [apply stable_client_iteration | exact IH].
Qed.

Lemma stable_client_code : preserves I (client_code E nr).
Proof.
  unfold client_code, getpid.
  apply preserves_bind; [apply preserves_ret|]. intros p.
  apply preserves_bind; [eapply stable_printf; eauto; alphabet|]. intros _.
  apply preserves_bind; [eapply stable_sigaction; eauto; alphabet|].
  intros ok. apply preserves_bind.
  { destruct ok; [apply preserves_ret | eapply stable_perror; eauto; alphabet]. }
  intros _. apply preserves_bind.
  { destruct (lt_0 E (game_main E)); [|apply preserves_ret].
    apply preserves_bind; [eapply stable_perror; eauto; alphabet|].
    intros _. apply preserves_stop. }
  intros _. apply preserves_bind; [apply stable_client_loop|]. intros _.
  eapply stable_printf; eauto; alphabet.
Qed.

Lemma stable_client_run : preserves I (client_run E nr).
Proof.
  unfold client_run.
  apply preserves_bind; [eapply stable_random_sleep; eauto; alphabet|].
  intros _. apply preserves_bind; [apply stable_client_code|].
  intros _. apply preserves_stop.
Qed.

End Alphabet.

(** ** When no signal arrives: what each call returns *)

Section Quiet.

Hypothesis HQ : quiet E.

Lemma sched_q w : sched E w = Ret tt (tick E w).
Proof. apply sched_quiet, signal_due_none, HQ. Qed.

Lemma printf_q s w : printf E s w = Ret tt (log (EvPrintf s) (tick E w)).
Proof. unfold printf, bind. rewrite sched_q. reflexivity. Qed.

Lemma perror_q s w : perror E s w = Ret tt (log (EvPerror s) (tick E w)).
Proof. unfold perror, bind. rewrite sched_q. reflexivity. Qed.

Lemma kill_q p w :
  kill_SIGUSR1 E p w =
  if reaches_self E p
  then Stop (sig_halt w) (log (EvKill p SIGUSR1) (tick E w))
  else Ret tt (log (EvKill p SIGUSR1) (tick E w)).
Proof.
  unfold kill_SIGUSR1, bind. rewrite sched_q. simpl.
  destruct (reaches_self E p); [rewrite deliver_eq|]; reflexivity.
Qed.

Lemma msgrcv_q r w : msgrcv E r w = Ret r (log (EvMsgrcv r) (tick E w)).
Proof. unfold msgrcv, bind. rewrite sched_q. reflexivity. Qed.

Lemma msgsnd_q data w :
  msgsnd E data w =
  Ret (msgsnd_ok E (clock w))
      (log (EvMsgsnd data (msgsnd_ok E (clock w))) (tick E w)).
Proof. unfold msgsnd, bind. rewrite sched_q. reflexivity. Qed.

Lemma random_sleep_q w :
  random_sleep E w =
  Ret tt (log (EvUsleep (sleep_usec E)) (tick E (reseed E w))).
Proof.
  rewrite random_sleep_eq, signal_due_none by exact HQ. reflexivity.
Qed.

Lemma sem_operation_q op w :
  sem_operation E op w = Ret (sem_value E w) (sem_world E op w).
Proof.
  unfold sem_operation, semop, bind, sem_value, sem_world.
  rewrite sched_q. simpl.
  destruct (semop_ok E (clock w)); [reflexivity|].
  rewrite perror_q. reflexivity.
Qed.

Lemma read_leader_q w :
  shm_read E Ffrontrunner w = Ret (leader_seen E w) (leader_read E w).
Proof. unfold shm_read, bind. rewrite sched_q. reflexivity. Qed.



(** With the pointer -1 a turn whose send succeeds stops at the read. *)
Lemma client_iteration_unattached nr l w :
  shmat_ok E = false -> msgsnd_ok E (S (clock w)) = true ->
  client_iteration E nr l w =
  Stop (Undefined BadPointer) (tick E (sem_world E LOCK (sent E nr true w))).
Proof.
  intros Hf Hok. unfold client_iteration, bind.
  rewrite random_sleep_q, msgsnd_q.
  change (clock (log _ (tick E (reseed E w)))) with (S (clock w)).
  rewrite Hok. fold (sent E nr true w).
  rewrite sem_operation_q. unfold game_main, shmat. rewrite Hf. simpl.
  unfold bind. rewrite sched_q. reflexivity.
Qed.

(** With the segment attached: a turn of the loop whose send succeeds. *)
Section Attached.

Hypothesis HS : attached E.

Lemma client_iteration_sent nr l w :
  msgsnd_ok E (S (clock w)) = true ->
  let w1 := sem_world E LOCK (sent E nr true w) in
  client_iteration E nr l w =
  Ret (mk_cl (if negb (cl_frontrunner l =? leader_seen E w1)
              then leader_seen E w1 else cl_frontrunner l)
             (leader_seen E w1))
      (sem_world E UNLOCK (leader_read E w1)).
Proof.
  intros Hok w1. unfold client_iteration, bind.
  rewrite random_sleep_q, msgsnd_q.
  change (clock (log _ (tick E (reseed E w)))) with (S (clock w)).
  rewrite Hok. fold (sent E nr true w).
  rewrite sem_operation_q. fold w1. unfold game_main.
  rewrite (via_attached E _ HS), read_leader_q, sem_operation_q. reflexivity.
Qed.





End Attached.

End Quiet.

End Client.

(** ** The registration, and the clients' effect on the segment *)

Section Register.

Variable E : env.

Lemma emitted_shm_write P w0 f v :
  P (EvShmWrite f v) -> preserves (emitted P w0) (shm_write E f v).
Proof.
  intros H. apply preserves_bind.
  - apply (stable_sched E P), stable_emitted.
  - intros _ w (evs & Ht & Hall).
    destruct (store (shm w) f v) as [g|]; simpl.
    + exists (evs ++ [EvShmWrite f v]). rewrite Ht, app_assoc.
      split; [reflexivity|]. apply Forall_app; split; auto.
    + exists evs; auto.
Qed.

Lemma emitted_client_register P w0 i :
  (forall e, client_event E i e -> P e) ->
  preserves (emitted P w0) (client_register E i).
Proof.
  intros HP. pose proof (stable_emitted E P w0) as HI.
  unfold client_register, getpid.
  apply preserves_bind.
  { eapply stable_sem_operation; eauto; intros; apply HP; exact Logic.I. }
  intros _. apply preserves_bind_ret.
  apply preserves_bind; [apply emitted_shm_write, HP; simpl; auto|].
  intros _. apply preserves_bind; [|intros _; apply preserves_ret].
  eapply stable_sem_operation; eauto; intros; apply HP; exact Logic.I.
Qed.

Lemma emitted_client_process P w0 i :
  (forall e, client_event E i e -> P e) ->
  preserves (emitted P w0) (client_process E i).
Proof.
  intros HP. unfold client_process. apply preserves_bind.
  - apply emitted_client_register, HP.
  - intros _. apply (stable_client_run E P); [apply stable_emitted|].
    intros e He. apply HP. destruct e; simpl in *; auto; contradiction.
Qed.

Lemma load_store_other g g' i j v :
  store g (Fclientpids i) v = Some g' -> j <> i ->
  load g' (Fclientpids j) = load g (Fclientpids j).
Proof.
  simpl. intros Hs Hne.
  destruct (in_clients i && (Z.to_nat i <? length (clientpids g))%nat) eqn:Hi;
    [|discriminate].
  injection Hs as <-. simpl.
  destruct (in_clients j) eqn:Hj; [|reflexivity].
  apply andb_prop in Hi as [Hi _]. unfold in_clients in *.
  apply list_lookup_insert_ne. lia.
Qed.

Section Alone.

Hypothesis HA : alone E.

Lemma stable_same_but_slot P i w0 : stable E P (same_but_slot i w0).
Proof.
  split; unfold same_but_slot; simpl; auto.
  intros w. rewrite HA. auto.
Qed.

Lemma same_but_slot_write i w0 v :
  preserves (same_but_slot i w0) (shm_write E (Fclientpids i) v).
Proof.
  apply preserves_bind.
  - apply (stable_sched E (fun _ => True)), stable_same_but_slot.
  - intros _ w (Hf & Hr & Hs).
    destruct (store (shm w) (Fclientpids i) v) as [g|] eqn:Hst; simpl;
      [|split; auto].
    pose proof (fun j => load_store_other _ _ _ j _ Hst) as Hl.
    simpl in Hst.
    destruct (in_clients i && (Z.to_nat i <? length (clientpids (shm w)))%nat);
      [|discriminate].
    injection Hst as <-. split; [exact Hf|]. split; [exact Hr|].
    intros j Hj. rewrite <- (Hs j Hj). apply Hl, Hj.
Qed.

Lemma same_but_slot_client_process i w0 :
  preserves (same_but_slot i w0) (client_process E i).
Proof.
  pose proof (stable_same_but_slot (fun _ => True) i w0) as HI.
  unfold client_process, client_register, getpid.
  assert (Hsem : forall op, preserves (same_but_slot i w0) (sem_operation E op)).
  { intros op. eapply stable_sem_operation;
      [exact HI | intros; exact Logic.I | exact Logic.I]. }
  apply preserves_bind.
  - apply preserves_bind; [apply Hsem|].
    intros _. apply preserves_bind_ret.
    apply preserves_bind; [apply same_but_slot_write|]. intros _.
    apply preserves_bind; [apply Hsem|].
    intros _. apply preserves_ret.
  - intros _. eapply stable_client_run; [exact HI|].
    intros; exact Logic.I.
Qed.

End Alone.

(** A failed semaphore operation, when no signal arrives. *)
Lemma sem_operation_failed op w :
  quiet E -> semop_ok E (clock w) = false ->
  sem_operation E op w =
  Ret (-1) (log (EvPerror "semop") (tick E (log (EvSemop op false) (tick E w)))).
Proof.
  intros HQ Hf. rewrite (sem_operation_q E HQ). unfold sem_value, sem_world.
  rewrite Hf. reflexivity.
Qed.

(** Only a signal stops a process inside [sem_operation]. *)
Lemma sem_operation_stops op w h w' :
  sem_operation E op w = Stop h w' -> h = sig_halt w'.
Proof.
  unfold sem_operation, semop, perror, bind, sched, emit.
  destruct (signal_due E w).
  - rewrite deliver_eq. intros [= <- <-]. reflexivity.
  - simpl. destruct (semop_ok E (clock w)); [discriminate|].
    match goal with |- context [signal_due E ?x] => destruct (signal_due E x) end.
    + rewrite deliver_eq. intros [= <- <-]. reflexivity.
    + discriminate.
Qed.

End Register.

(** * The scan for the frontrunner *)

Section Scan.

Lemma scan_prefix scores fr0 n :
  (n <= length scores)%nat ->
  forall fs fr,
    fold_left (scan_step scores) (seq 0 n) (0, fr0) = (fs, fr) ->
    0 <= fs /\
    (forall j s, (j < n)%nat -> scores !! j = Some s -> s <= fs) /\
    ((fs = 0 /\ fr = fr0) \/
     (0 < fs /\ exists k, fr = Z.of_nat k /\ (k < n)%nat /\
        scores !! k = Some fs /\
        forall j s, (j < k)%nat -> scores !! j = Some s -> s < fs)).
Proof.
  induction n as [|n IH]; intros Hn fs fr.
  - simpl. intros [= <- <-]. split; [lia|]. split; [intros; lia|].
    left; auto.
  - rewrite seq_S, fold_left_app. simpl.
    destruct (fold_left (scan_step scores) (seq 0 n) (0, fr0)) as [fs0 fr1]
      eqn:Hfold.
    destruct (IH ltac:(lia) fs0 fr1 eq_refl) as (Hpos & Hmax & Hfr).
    destruct (lookup_lt_is_Some_2 scores n ltac:(lia)) as [s Hs].
    unfold scan_step. rewrite Hs. simpl.
    destruct (Z.gtb_spec s fs0) as [Hgt|Hle]; intros [= <- <-].
    + split; [lia|]. split.
      * intros j s' Hj Hl. destruct (decide (j = n)) as [->|Hne].
        -- rewrite Hs in Hl. injection Hl as <-. lia.
        -- specialize (Hmax j s' ltac:(lia) Hl). lia.
      * right. split; [lia|]. exists n. repeat split; auto.
        intros j s' Hj Hl. specialize (Hmax j s' Hj Hl). lia.
    + split; [lia|]. split.
      * intros j s' Hj Hl. destruct (decide (j = n)) as [->|Hne].
        -- rewrite Hs in Hl. injection Hl as <-. lia.
        -- apply Hmax with j; [lia | exact Hl].
      * destruct Hfr as [Hz|(Hp & k & Hk & Hlt & Hsk & Hlow)]; [left; exact Hz|].
        right. split; [exact Hp|]. exists k. repeat split; auto.
Qed.

Lemma score_of_lookup scores (j : nat) s :
  scores !! j = Some s -> score_of scores (Z.of_nat j) = s.
Proof. unfold score_of. rewrite Nat2Z.id. intros ->. reflexivity. Qed.

Lemma score_of_some scores j :
  length scores = Z.to_nat MAXCLIENTS -> 0 <= j < MAXCLIENTS ->
  scores !! Z.to_nat j = Some (score_of scores j).
Proof.
  intros Hlen Hj. unfold score_of.
  destruct (lookup_lt_is_Some_2 scores (Z.to_nat j)) as [s Hs].
  - rewrite Hlen. unfold MAXCLIENTS in *. lia.
  - rewrite Hs. reflexivity.
Qed.

(** With a positive score in the table the scan ends on the first client
    among those with the greatest score, whoever led before. *)
Lemma find_frontrunner_leads scores fr0 :
  length scores = Z.to_nat MAXCLIENTS ->
  (exists j, 0 <= j < MAXCLIENTS /\ 0 < score_of scores j) ->
  leads scores (find_frontrunner scores fr0).
Proof.
  intros Hlen (j0 & Hj0 & Hpos). unfold find_frontrunner, client_indices.
  destruct (fold_left (scan_step scores) (seq 0 (Z.to_nat MAXCLIENTS)) (0, fr0))
    as [fs fr] eqn:Hfold.
  destruct (scan_prefix scores fr0 (Z.to_nat MAXCLIENTS) ltac:(lia) fs fr Hfold)
    as (Hfs & Hmax & Hfr).
  simpl.
  assert (Hall : forall j, 0 <= j < MAXCLIENTS -> score_of scores j <= fs).
  { intros j Hj. apply (Hmax (Z.to_nat j)); [lia|].
    apply score_of_some; assumption. }
  destruct Hfr as [[Hz _]|(Hp & k & -> & Hk & Hsk & Hlow)].
  - specialize (Hall j0 Hj0). lia.
  - rewrite <- (score_of_lookup _ _ _ Hsk) in Hall, Hlow.
    split; [lia|]. split; [exact Hall|].
    intros j Hj. apply (Hlow (Z.to_nat j)); [lia|].
    apply score_of_some; [assumption|lia].
Qed.

(** With no positive score the scan leaves [frontrunner] as it was. *)
Lemma find_frontrunner_keeps scores fr0 :
  Forall (fun s => s <= 0) scores ->
  find_frontrunner scores fr0 = fr0.
Proof.
  intros Hall. unfold find_frontrunner.
  assert (H : forall l acc, snd acc = fr0 -> fst acc = 0 ->
            snd (fold_left (scan_step scores) l acc) = fr0).
  { induction l as [|i l IH]; intros acc H1 H2; simpl; [exact H1|].
    apply IH; unfold scan_step; destruct (scores !! i) as [s|] eqn:Hs; auto.
    - destruct (Z.gtb_spec s (fst acc)); auto.
      rewrite Forall_lookup in Hall. specialize (Hall i s Hs). simpl in Hall.
      lia.
    - destruct (Z.gtb_spec s (fst acc)); auto.
      rewrite Forall_lookup in Hall. specialize (Hall i s Hs). simpl in Hall.
      lia. }
  apply H; reflexivity.
Qed.

(** The leader is determined by the scores alone. *)
Lemma leads_unique scores fr1 fr2 :
  leads scores fr1 -> leads scores fr2 -> fr1 = fr2.
Proof.
  intros (H1 & M1 & L1) (H2 & M2 & L2).
  destruct (Z.lt_trichotomy fr1 fr2) as [Hlt|[Heq|Hgt]]; [|exact Heq|].
  - specialize (L2 fr1 ltac:(lia)). specialize (M1 fr2 H2). lia.
  - specialize (L1 fr2 ltac:(lia)). specialize (M2 fr1 H1). lia.
Qed.

End Scan.

(** * The watchdog's local variables *)

Section WatchdogLocals.

Variable E : env.

Lemma yields_watchdog_score l :
  yields (watchdog_score E l) (score_ret l) (score_halt E l).
Proof.
  unfold watchdog_score. destruct (wd_client_nr l) as [nr|] eqn:Hnr.
  2:{ apply yields_stop. right; right; left. auto. }
  eapply yields_bind.
  { unfold array_incr. eapply yields_bind.
    - eapply yields_weaken; [| |apply yields_array_get].
      + intros v Hv. exact Hv.
      + intros h [-> Hbad]. right; right; right; left. exists nr. auto.
    - intros s [Hnr0 Hs]. eapply yields_bind.
      + eapply yields_weaken; [| |apply yields_int_incr].
        * intros y Hy. exact Hy.
        * intros h ->. right; left. reflexivity.
      + intros s' [-> Hlt].
        apply (yields_ret _ (fun a => exists s, 0 <= nr /\
                 wd_scores l !! Z.to_nat nr = Some s /\ s < INT_MAX /\
                 a = <[Z.to_nat nr := s + 1]> (wd_scores l))).
        exists s. auto. }
  intros scores (s & Hnr0 & Hs & Hlt & ->).
  set (scores := <[Z.to_nat nr := s + 1]> (wd_scores l)).
  set (fr := find_frontrunner scores (wd_frontrunner l)).
  assert (Hc : counted l nr s =
               mk_wd scores fr
                 (if (score_of scores fr =? MSGNR) && (nr =? fr) then fr
                  else wd_winner l) (Some nr)) by reflexivity.
  eapply yields_bind.
  { eapply yields_weaken; [| |apply yields_array_get].
    - intros v Hv. exact Hv.
    - intros h [-> Hbad]. right; right; right; right. exists nr, s.
      rewrite Hc. simpl. auto. }
  intros sf [Hfr0 Hsf].
  assert (Hsf' : score_of scores fr = sf).
  { unfold score_of. rewrite Hsf. reflexivity. }
  assert (Hcut : forall h, cut_short E h -> score_halt E l h)
    by (intros h H; left; exact H).
  assert (Hsig : forall h, signalled h -> score_halt E l h)
    by (intros h H; left; left; exact H).
  eapply yields_bind.
  { instantiate (1 := fun _ => True).
    destruct ((Z.rem sf 5 =? 0) && (nr =? fr)); [|apply yields_ret; exact Logic.I].
    eapply yields_bind.
    - eapply yields_weaken; [| |apply yields_array_get].
      + intros v Hv. exact Hv.
      + intros h [_ [Hneg|Hnone]]; [lia|].
        exfalso. subst scores.
        rewrite list_lookup_insert_eq in Hnone; [discriminate|].
        apply lookup_lt_Some in Hs. exact Hs.
    - intros sn _. eapply yields_weaken; [| |apply yields_printf]; auto. }
  intros _ _. eapply yields_bind.
  { eapply yields_weaken; [| |apply yields_sem_operation]; eauto. }
  intros _ _. eapply yields_bind.
  { apply yields_via; [|exact Hcut].
    eapply yields_weaken; [| |apply (yields_write E Ffrontrunner)];
      eauto; intros i; discriminate. }
  intros _ _. eapply yields_bind.
  { apply yields_via; [|exact Hcut].
    eapply yields_weaken; [| |apply yields_read_runs_done]; eauto. }
  intros rd _. eapply yields_bind.
  { eapply yields_weaken; [| |apply yields_int_incr].
    - intros y Hy. exact Hy.
    - intros h ->. right; left. reflexivity. }
  intros rd' _. eapply yields_bind.
  { apply yields_via; [|exact Hcut].
    eapply yields_weaken; [| |apply (yields_write E Fruns_done)];
      eauto; intros i; discriminate. }
  intros _ _. eapply yields_bind.
  { eapply yields_weaken; [| |apply yields_sem_operation]; eauto. }
  intros _ _. apply yields_ret. exists nr, s. rewrite Hc, Hsf'. auto.
Qed.

Lemma yields_watchdog_iteration r l :
  yields (watchdog_iteration E r l) (iteration_ret r l) (iteration_halt E r l).
Proof.
  unfold watchdog_iteration. eapply yields_bind.
  { eapply yields_weaken; [| |apply yields_msgrcv].
    - intros m Hm. exact Hm.
    - intros h Hh. left. exact Hh. }
  intros m ->. destruct r as [|data].
  - eapply yields_bind.
    + eapply yields_weaken; [| |apply yields_perror].
      * intros a _. exact Logic.I.
      * intros h Hh. left. exact Hh.
    + intros _ _. apply yields_stop. right; left. auto.
  - unfold iteration_ret, iteration_halt, parsed.
    destruct (sscanf_d data) as [| |n|] eqn:Hscan; simpl.
    + eapply yields_bind.
      * eapply yields_weaken; [| |apply yields_perror].
        -- intros a _. exact Logic.I.
        -- intros h Hh. left. exact Hh.
      * intros _ _. apply yields_ret. exists data. rewrite Hscan. auto.
    + eapply yields_weaken; [| |apply yields_watchdog_score].
      * intros l' Hl'. exists data. rewrite Hscan. split; [reflexivity|].
        right. simpl. split; [lia | exact Hl'].
      * intros h Hh. right; right. exists data. rewrite Hscan.
        split; [reflexivity|]. right. simpl. split; [lia | exact Hh].
    + eapply yields_weaken; [| |apply yields_watchdog_score].
      * intros l' Hl'. exists data. rewrite Hscan. split; [reflexivity|].
        right. simpl. split; [lia | exact Hl'].
      * intros h Hh. right; right. exists data. rewrite Hscan.
        split; [reflexivity|]. right. simpl. split; [lia | exact Hh].
    + apply yields_stop. right; right. exists data. rewrite Hscan. auto.
Qed.

Lemma yields_watchdog_test l :
  yields (watchdog_test E l) (fun b => b = true -> wd_winner l = -1)
         (cut_short E).
Proof.
  unfold watchdog_test. destruct (Z.eqb_spec (wd_winner l) (-1)) as [Hw|Hw].
  - eapply yields_bind.
    { apply yields_via; [|intros h Hh; exact Hh].
      eapply yields_weaken; [| |apply yields_read_runs_done].
      - intros a H. exact H.
      - intros h Hh. left. exact Hh. }
    intros rd _. apply yields_ret. auto.
  - apply yields_ret. discriminate.
Qed.

(** With a winner recorded the test fails at once, without a look at the
    segment. *)
Lemma watchdog_test_winner l w :
  wd_winner l <> -1 -> watchdog_test E l w = Ret false w.
Proof.
  intros Hw. unfold watchdog_test.
  destruct (Z.eqb_spec (wd_winner l) (-1)); [contradiction | reflexivity].
Qed.

End WatchdogLocals.

(** ** The invariant of the loop *)

Lemma wd_init_ok : wd_ok wd_init.
Proof.
  unfold wd_ok, wd_init, MAXCLIENTS, MSGNR. simpl.
  repeat split; try lia; try discriminate.
  repeat constructor; lia.
Qed.

Lemma score_of_insert_eq scores nr v :
  (Z.to_nat nr < length scores)%nat ->
  score_of (<[Z.to_nat nr := v]> scores) nr = v.
Proof.
  intros H. unfold score_of. rewrite list_lookup_insert_eq by exact H.
  reflexivity.
Qed.

Lemma score_of_insert_ne scores nr j v :
  0 <= nr -> 0 <= j -> j <> nr ->
  score_of (<[Z.to_nat nr := v]> scores) j = score_of scores j.
Proof.
  intros H1 H2 H3. unfold score_of.
  rewrite list_lookup_insert_ne by lia. reflexivity.
Qed.

Lemma score_of_Forall (P : Z -> Prop) scores j :
  length scores = Z.to_nat MAXCLIENTS -> Forall P scores ->
  0 <= j < MAXCLIENTS -> P (score_of scores j).
Proof.
  intros Hlen Hall Hj. rewrite Forall_lookup in Hall.
  apply (Hall (Z.to_nat j)), score_of_some; assumption.
Qed.

(** Counting a message from a state of the loop: the new frontrunner
    leads; either no winner is recorded and the state is again one of the
    loop, or the winner recorded is the sender, who is the frontrunner and
    the only client at the target. *)
Lemma counted_ok l nr s :
  length (wd_scores l) = Z.to_nat MAXCLIENTS ->
  Forall (fun s => 0 <= s < MSGNR) (wd_scores l) ->
  wd_winner l = -1 ->
  0 <= nr -> wd_scores l !! Z.to_nat nr = Some s ->
  let l' := counted l nr s in
  0 <= nr < MAXCLIENTS /\
  wd_scores l' = <[Z.to_nat nr := score_of (wd_scores l) nr + 1]> (wd_scores l) /\
  leads (wd_scores l') (wd_frontrunner l') /\
  (wd_winner l' = -1 -> wd_ok l') /\
  (wd_winner l' <> -1 ->
   wd_winner l' = wd_frontrunner l' /\ nr = wd_frontrunner l' /\
   score_of (wd_scores l') nr = MSGNR /\
   forall j, 0 <= j < MAXCLIENTS -> j <> nr ->
             score_of (wd_scores l') j < MSGNR).
Proof.
  intros Hlen Hall Hwin Hnr0 Hs l'.
  pose proof (lookup_lt_Some _ _ _ Hs) as Hlt.
  assert (Hnr : 0 <= nr < MAXCLIENTS) by (unfold MAXCLIENTS in *; lia).
  assert (Hsr : 0 <= s < MSGNR).
  { rewrite Forall_lookup in Hall. apply (Hall _ _ Hs). }
  assert (Hso : score_of (wd_scores l) nr = s).
  { unfold score_of. rewrite Hs. reflexivity. }
  set (scores := <[Z.to_nat nr := s + 1]> (wd_scores l)).
  assert (Hlen' : length scores = Z.to_nat MAXCLIENTS).
  { unfold scores. rewrite length_insert. exact Hlen. }
  assert (Hat : score_of scores nr = s + 1).
  { apply score_of_insert_eq, Hlt. }
  assert (Hoth : forall j, 0 <= j < MAXCLIENTS -> j <> nr ->
                           0 <= score_of scores j < MSGNR).
  { intros j Hj Hne. unfold scores.
    rewrite score_of_insert_ne by lia.
    apply (score_of_Forall (fun s => 0 <= s < MSGNR)); assumption. }
  assert (Hlead : leads scores (find_frontrunner scores (wd_frontrunner l))).
  { apply find_frontrunner_leads; [exact Hlen'|]. exists nr. split; [exact Hnr|].
    lia. }
  set (fr := find_frontrunner scores (wd_frontrunner l)) in *.
  assert (Hfr : 0 <= fr < MAXCLIENTS) by apply Hlead.
  assert (Htop : s + 1 = MSGNR -> fr = nr).
  { intros Htop. apply (leads_unique scores); [exact Hlead|].
    split; [exact Hnr|]. split.
    - intros j Hj. destruct (Z.eq_dec j nr) as [->|Hne]; [lia|].
      specialize (Hoth j Hj Hne). lia.
    - intros j Hj. specialize (Hoth j ltac:(lia) ltac:(lia)). lia. }
  assert (Hw : wd_winner l' =
               if (score_of scores fr =? MSGNR) && (nr =? fr) then fr
               else wd_winner l) by reflexivity.
  split; [exact Hnr|]. split; [simpl; rewrite Hso; reflexivity|].
  split; [exact Hlead|].
  destruct ((score_of scores fr =? MSGNR) && (nr =? fr)) eqn:Hcond.
  - apply andb_prop in Hcond as [H1 H2].
    apply Z.eqb_eq in H1. apply Z.eqb_eq in H2.
    split; [intros Hneg; rewrite Hw in Hneg; lia|].
    intros _. split; [exact Hw|]. split; [exact H2|].
    split; [rewrite H2; exact H1|].
    intros j Hj Hne. apply Hoth; assumption.
  - split; [|intros Hneg; rewrite Hw in Hneg; contradiction].
    intros _. unfold wd_ok. simpl. fold scores. fold fr.
    split; [exact Hlen'|]. split.
    + apply Forall_insert; [exact Hall|].
      destruct (Z.eq_dec (s + 1) MSGNR) as [Htop'|Hnt]; [|lia].
      exfalso. specialize (Htop Htop').
      rewrite Htop, Hat, Htop', !Z.eqb_refl in Hcond. discriminate.
    + split; [exact Hfr|]. split; [rewrite Hcond; exact Hwin|].
      intros n [= <-]. exact Hnr.
Qed.

Lemma parsed_fields data l :
  wd_scores (parsed data l) = wd_scores l /\
  wd_frontrunner (parsed data l) = wd_frontrunner l /\
  wd_winner (parsed data l) = wd_winner l.
Proof. unfold parsed. destruct (sscanf_d data); auto. Qed.

(** * The watchdog's loop *)

Section WatchdogLoop.

Variable E : env.

(** What an iteration started in a state of the loop returns. *)
Lemma iteration_from_ok r l w l' w' :
  wd_ok l -> watchdog_iteration E r l w = Ret l' w' ->
  exists data, r = RcvMsg data /\
    ((sscanf_d data = ScanEOF /\ l' = l) \/
     (0 <= scan_return (sscanf_d data) /\
      exists nr,
        wd_client_nr l' = Some nr /\ 0 <= nr < MAXCLIENTS /\
        wd_scores l' =
          <[Z.to_nat nr := score_of (wd_scores l) nr + 1]> (wd_scores l) /\
        leads (wd_scores l') (wd_frontrunner l') /\
        (wd_winner l' = -1 -> wd_ok l') /\
        (wd_winner l' <> -1 ->
         wd_winner l' = wd_frontrunner l' /\ nr = wd_frontrunner l' /\
         score_of (wd_scores l') nr = MSGNR /\
         forall j, 0 <= j < MAXCLIENTS -> j <> nr ->
                   score_of (wd_scores l') j < MSGNR))).
Proof.
  intros (Hlen & Hall & Hfr & Hwin & Hnr) Hit.
  pose proof (yields_inv _ _ _ w (yields_watchdog_iteration E r l)) as Hy.
  rewrite Hit in Hy. destruct Hy as (data & -> & Hy). exists data.
  split; [reflexivity|].
  destruct Hy as [Hskip|(Hret & nr & s & Hc & Hnr0 & Hs & _ & ->)];
    [left; exact Hskip|].
  right. split; [exact Hret|]. exists nr.
  destruct (parsed_fields data l) as (Hps & Hpf & Hpw).
  rewrite Hps in Hs.
  assert (Hlen' : length (wd_scores (parsed data l)) = Z.to_nat MAXCLIENTS)
    by (rewrite Hps; exact Hlen).
  assert (Hall' : Forall (fun s => 0 <= s < MSGNR) (wd_scores (parsed data l)))
    by (rewrite Hps; exact Hall).
  assert (Hs' : wd_scores (parsed data l) !! Z.to_nat nr = Some s)
    by (rewrite Hps; exact Hs).
  assert (Hwin' : wd_winner (parsed data l) = -1) by (rewrite Hpw; exact Hwin).
  destruct (counted_ok (parsed data l) nr s Hlen' Hall' Hwin' Hnr0 Hs')
    as (H1 & H2 & H3 & H4 & H5).
  rewrite Hps in H2.
  split; [reflexivity|]. split; [exact H1|]. split; [exact H2|].
  split; [exact H3|]. split; [exact H4 | exact H5].
Qed.

Lemma test_true_no_winner l w w' :
  watchdog_test E l w = Ret true w' -> wd_winner l = -1.
Proof.
  intros Ht. pose proof (yields_inv _ _ _ w (yields_watchdog_test E l)) as Hy.
  rewrite Ht in Hy. apply Hy. reflexivity.
Qed.

Lemma step_ok r l w l' w' w'' :
  wd_ok l -> watchdog_iteration E r l w = Ret l' w' ->
  watchdog_test E l' w' = Ret true w'' -> wd_ok l'.
Proof.
  intros Hok Hit Ht. apply test_true_no_winner in Ht.
  destruct (iteration_from_ok r l w l' w' Hok Hit) as (data & _ & [[_ ->]|H]).
  - exact Hok.
  - destruct H as (_ & nr & _ & _ & _ & _ & H & _). apply H, Ht.
Qed.

Lemma wd_at_ok l0 w0 ms l w : wd_ok l0 -> wd_at E l0 w0 ms l w -> wd_ok l.
Proof.
  intros Hok Hat. induction Hat as [|l0 w0 r l1 w1 w1' ms l w Hit Ht _ IH].
  - exact Hok.
  - apply IH. eapply step_ok; eassumption.
Qed.

(** A run computed by [wd_run] is one of [wd_at]. *)
Lemma wd_run_at ms : forall l0 w0 l w,
  wd_run E l0 w0 ms = Some (l, w) -> wd_at E l0 w0 ms l w.
Proof.
  induction ms as [|r ms IH]; intros l0 w0 l w; simpl.
  - intros [= <- <-]. constructor.
  - destruct (watchdog_iteration E r l0 w0) as [l1 w1|] eqn:Hit; [|discriminate].
    destruct (watchdog_test E l1 w1) as [[|] w1'|] eqn:Ht; try discriminate.
    intros H. econstructor; [exact Hit | exact Ht | apply IH, H].
Qed.

(** The loop goes through the messages after which its test holds. *)
Lemma watchdog_loop_at l0 w0 ms l w rest :
  wd_at E l0 w0 ms l w ->
  watchdog_loop E (ms ++ rest) l0 w0 = watchdog_loop E rest l w.
Proof.
  intros Hat. induction Hat as [|l0 w0 r l1 w1 w1' ms l w Hit Ht _ IH].
  - reflexivity.
  - simpl. unfold bind at 1. rewrite Hit. unfold bind at 1. rewrite Ht.
    exact IH.
Qed.

(** It returns at the first message after which the test fails. *)
Lemma watchdog_loop_last r rest l w l' w1 w' :
  watchdog_iteration E r l w = Ret l' w1 ->
  watchdog_test E l' w1 = Ret false w' ->
  watchdog_loop E (r :: rest) l w = Ret l' w'.
Proof.
  intros Hit Ht. simpl. unfold bind at 1. rewrite Hit.
  unfold bind at 1. rewrite Ht. reflexivity.
Qed.

Lemma block_stops {A} w : exists h w', @block E A w = Stop h w'.
Proof.
  unfold block. destruct (sigusr1_at E) as [n|]; [|eauto].
  destruct (clock w <=? n)%nat; [rewrite deliver_eq|]; eauto.
Qed.

Lemma watchdog_loop_returns inbox l0 w0 l' w' :
  watchdog_loop E inbox l0 w0 = Ret l' w' ->
  exists ms r rest l w w1,
    inbox = ms ++ r :: rest /\ wd_at E l0 w0 ms l w /\
    watchdog_iteration E r l w = Ret l' w1 /\
    watchdog_test E l' w1 = Ret false w'.
Proof.
  revert l0 w0. induction inbox as [|r inbox IH]; intros l0 w0.
  - simpl. unfold bind, sched.
    destruct (signal_due E w0); [rewrite deliver_eq; discriminate|].
    destruct (@block_stops wd_locals (tick E w0)) as (h & w1 & ->).
    discriminate.
  - simpl. unfold bind at 1.
    destruct (watchdog_iteration E r l0 w0) as [l1 w1|] eqn:Hit; [|discriminate].
    unfold bind at 1.
    destruct (watchdog_test E l1 w1) as [[|] w1'|] eqn:Ht; [| |discriminate].
    + intros Hloop.
      destruct (IH l1 w1' Hloop) as (ms & r' & rest & l & w & w2 & -> & Hat & H1 & H2).
      exists (r :: ms), r', rest, l, w, w2. split; [reflexivity|].
      split; [econstructor; eassumption|]. auto.
    + intros [= <- <-]. exists [], r, inbox, l0, w0, w1.
      split; [reflexivity|]. split; [constructor|]. auto.
Qed.

End WatchdogLoop.

(** * The score table's subscript *)

Section WatchdogBounds.

Variable E : env.

Lemma sscanf_d_eof data :
  scan_return (sscanf_d data) < 0 <-> skip_spaces data = EmptyString.
Proof.
  assert (Hn : forall neg s, 0 <= scan_return (scan_number neg s)).
  { intros neg s. unfold scan_number. destruct s as [|c s]; simpl; [lia|].
    destruct (isdigit c); simpl; [|lia].
    destruct ((INT_MIN <=? _) && (_ <=? INT_MAX)); simpl; lia. }
  unfold sscanf_d. destruct (skip_spaces data) as [|c s].
  - simpl. unfold EOF. split; [reflexivity | lia].
  - split; [|discriminate]. intros H. exfalso.
    destruct (Ascii.eqb c "-"); [specialize (Hn true s); lia|].
    destruct (Ascii.eqb c "+"); [specialize (Hn false s); lia|].
    specialize (Hn false (String c s)). lia.
Qed.

Lemma msgrcv_bind {B} r (k : rcv -> Proc B) w :
  bind (msgrcv E r) k w = bind (msgrcv E r) (fun _ => k r) w.
Proof.
  cbv [bind msgrcv sched emit ret].
  destruct (signal_due E w); [rewrite deliver_eq|]; reflexivity.
Qed.

Lemma iteration_nomatch l w data :
  sscanf_d data = ScanNoMatch ->
  watchdog_iteration E (RcvMsg data) l w =
  (msgrcv E (RcvMsg data) ;; watchdog_score E l) w.
Proof.
  intros Hs. unfold watchdog_iteration. rewrite msgrcv_bind, Hs. reflexivity.
Qed.

Lemma iteration_eof l w data :
  sscanf_d data = ScanEOF ->
  watchdog_iteration E (RcvMsg data) l w =
  (msgrcv E (RcvMsg data) ;; perror E "[watchdog] sscanf" ;; ret l) w.
Proof.
  intros Hs. unfold watchdog_iteration. rewrite msgrcv_bind, Hs. reflexivity.
Qed.

Lemma iteration_out_of_range l w data n :
  quiet E -> length (wd_scores l) = Z.to_nat MAXCLIENTS ->
  sscanf_d data = ScanInt n -> ~ (0 <= n < MAXCLIENTS) ->
  watchdog_iteration E (RcvMsg data) l w =
  Stop (Undefined (OutOfBounds n)) (log (EvMsgrcv (RcvMsg data)) (tick E w)).
Proof.
  intros HQ Hlen Hs Hn. unfold watchdog_iteration.
  rewrite msgrcv_bind, Hs. unfold bind at 1. rewrite (msgrcv_q E HQ).
  simpl. unfold watchdog_score. simpl.
  unfold array_incr, bind, array_get.
  destruct (Z.leb_spec 0 n) as [Hpos|Hneg]; [|reflexivity].
  rewrite (lookup_ge_None_2 (wd_scores l) (Z.to_nat n)); [reflexivity|].
  rewrite Hlen. unfold MAXCLIENTS in *. lia.
Qed.

Lemma iteration_uninit l w data :
  quiet E -> sscanf_d data = ScanNoMatch -> wd_client_nr l = None ->
  watchdog_iteration E (RcvMsg data) l w =
  Stop (Undefined UninitRead) (log (EvMsgrcv (RcvMsg data)) (tick E w)).
Proof.
  intros HQ Hs Hn. rewrite (iteration_nomatch l w data Hs).
  unfold bind. rewrite (msgrcv_q E HQ). unfold watchdog_score.
  rewrite Hn. reflexivity.
Qed.

(** Fed with deliveries that name clients, the loop stops for no undefined
    behaviour but, if ever, the overflow of a counter, or an access
    through the pointer of a failed attachment. *)
Lemma loop_in_range inbox :
  Forall in_range inbox ->
  forall l, wd_ok l ->
    yields (watchdog_loop E inbox l) (fun _ => True)
      (fun h => forall f, h = Undefined f ->
                  f = IntOverflow \/ (f = BadPointer /\ shmat_ok E = false)).
Proof.
  assert (Hsig : forall h, signalled h ->
                 forall f, h = Undefined f ->
                   f = IntOverflow \/ (f = BadPointer /\ shmat_ok E = false)).
  { intros h [->| ->] f; discriminate. }
  assert (Hcut : forall h, cut_short E h ->
                 forall f, h = Undefined f ->
                   f = IntOverflow \/ (f = BadPointer /\ shmat_ok E = false)).
  { intros h [Hs|[Hs ->]]; [apply Hsig, Hs|].
    intros f [= <-]. right. auto. }
  induction 1 as [|r inbox Hr _ IH]; intros l Hok; simpl.
  - eapply yields_bind.
    + eapply yields_weaken; [| |apply yields_sched]; eauto.
    + intros _ _ w. apply wp_block.
      * apply Hsig, signalled_sig_halt.
      * intros f. discriminate.
  - intros w. apply wp_bind.
    pose proof (yields_watchdog_iteration E r l w) as Hy.
    unfold wp in *.
    destruct (watchdog_iteration E r l w) as [l' w'|h w'] eqn:Hit.
    + pose proof (yields_watchdog_test E l' w') as Ht.
      unfold wp in Ht. unfold bind.
      destruct (watchdog_test E l' w') as [[|] w''|h w''] eqn:Htest.
      * apply (IH l'). eapply step_ok; eassumption.
      * exact Logic.I.
      * apply Hcut, Ht.
    + destruct Hy as [Hs|[[-> ->]|(data & -> & Hd)]].
      * apply Hsig, Hs.
      * discriminate.
      * simpl in Hr. destruct Hr as (n & Hscan & Hn).
        destruct Hd as [[Hov _]|[_ Hsc]]; [congruence|].
        intros f ->.
        assert (Hp : parsed data l =
                     mk_wd (wd_scores l) (wd_frontrunner l) (wd_winner l)
                           (Some n)).
        { unfold parsed. rewrite Hscan. reflexivity. }
        destruct Hok as (Hlen & Hall & Hfr & Hwin & Hcn).
        assert (Hin : (Z.to_nat n < length (wd_scores l))%nat).
        { rewrite Hlen. unfold MAXCLIENTS in *. lia. }
        destruct Hsc as [[[Hx|Hx]|[Hx1 Hx]]|[Hx|[[Hx _]|[Hx|Hx]]]];
          try discriminate.
        -- injection Hx as <-. right. auto.
        -- injection Hx as <-. left. reflexivity.
        -- rewrite Hp in Hx. discriminate.
        -- destruct Hx as (nr & Hnr & _ & [Hneg|Hnone]);
             rewrite Hp in *; simpl in *; injection Hnr as <-; [lia|].
           apply lookup_ge_None_1 in Hnone. lia.
        -- destruct Hx as (nr & s & Hnr & Hs & _ & Hbad).
           rewrite Hp in Hnr, Hs. simpl in Hnr, Hs. injection Hnr as <-.
           assert (Hs' : wd_scores (parsed data l) !! Z.to_nat n = Some s)
             by (rewrite Hp; exact Hs).
           destruct (counted_ok (parsed data l) n s)
             as (_ & _ & (Hl1 & _) & _); rewrite ?Hp; simpl; auto; try lia.
           destruct Hbad as [Hneg|Hnone]; [lia|].
           apply lookup_ge_None_1 in Hnone. simpl in Hnone.
           rewrite length_insert in Hnone.
           destruct (parsed_fields data l) as (Hps & _). rewrite Hps in Hnone.
           rewrite Hlen in Hnone. simpl in Hl1. rewrite Hps in Hl1.
           unfold MAXCLIENTS in *. lia.
Qed.

End WatchdogBounds.

(** * The watchdog and the world *)

Lemma pure_array_get a i : pure (array_get a i).
Proof.
  intros w. unfold array_get.
  destruct (if 0 <=? i then a !! Z.to_nat i else None); reflexivity.
Qed.

Lemma pure_int_incr x : pure (int_incr x).
Proof. intros w. unfold int_incr. destruct (x <? INT_MAX); reflexivity. Qed.

Lemma pure_ret {A} (a : A) : pure (ret a).
Proof. intros w. reflexivity. Qed.

Lemma pure_bind {A B} (m : Proc A) (k : A -> Proc B) :
  pure m -> (forall a, pure (k a)) -> pure (bind m k).
Proof.
  intros Hm Hk w. unfold bind. specialize (Hm w).
  destruct (m w) as [a w'|h w']; simpl in *; subst; [apply Hk | reflexivity].
Qed.

Lemma pure_array_incr a i : pure (array_incr a i).
Proof.
  unfold array_incr. apply pure_bind; [apply pure_array_get|].
  intros v. apply pure_bind; [apply pure_int_incr|]. intros v'. apply pure_ret.
Qed.

Lemma hoare_pure {A} (m : Proc A) (P R : world -> Prop) :
  pure m -> (forall w, P w -> R w) -> hoare P m (fun _ => P) R.
Proof.
  intros Hm HR w Hw. specialize (Hm w). unfold wp.
  destruct (m w); simpl in *; subst; auto.
Qed.

Section WatchdogWorld.

Variable E : env.

(** ** The steps of [watchdog_score], for any predicates that follow them *)

Section Skeleton.

Variables (A B C F G : world -> Prop) (D : Z -> world -> Prop).
Variable R : world -> Prop.
Hypothesis HA : forall s, hoare A (printf E s) (fun _ => A) R.
Hypothesis HAR : forall w, A w -> R w.
Hypothesis HDR : forall rd w, D rd w -> R w.
Hypothesis HBt : forall w, B w -> R (tick E w).
Hypothesis HCt : forall w, C w -> R (tick E w).
Hypothesis HDt : forall rd w, D rd w -> R (tick E w).
Hypothesis Hlock : hoare A (sem_operation E LOCK) (fun _ => B) R.
Hypothesis Hfr : forall v, hoare B (shm_write E Ffrontrunner v) (fun _ => C) R.
Hypothesis Hrd : hoare C (shm_read E Fruns_done) D R.
Hypothesis Hwr : forall rd,
  hoare (D rd) (shm_write E Fruns_done (rd + 1)) (fun _ => F) R.
Hypothesis Hunlock : hoare F (sem_operation E UNLOCK) (fun _ => G) R.

Lemma hoare_watchdog_score l :
  hoare A (watchdog_score E l) (fun _ => G) R.
Proof.
  unfold watchdog_score. destruct (wd_client_nr l) as [nr|].
  2:{ apply hoare_stop. exact HAR. }
  eapply hoare_bind.
  { apply hoare_pure; [apply pure_array_incr | exact HAR]. }
  intros scores. eapply hoare_bind.
  { apply hoare_pure; [apply pure_array_get | exact HAR]. }
  intros sf. eapply hoare_bind.
  { instantiate (1 := fun _ => A).
    destruct ((Z.rem sf 5 =? 0) && (nr =? _)).
    - eapply hoare_bind.
      + apply hoare_pure; [apply pure_array_get | exact HAR].
      + intros sn. apply HA.
    - apply hoare_ret. auto. }
  intros ?. eapply hoare_bind; [apply Hlock|].
  intros ?. eapply hoare_bind; [apply hoare_via; [apply Hfr|exact HBt]|].
  intros ?. eapply hoare_bind; [apply hoare_via; [apply Hrd|exact HCt]|].
  intros rd. eapply hoare_bind.
  { instantiate (1 := fun rd' w => rd' = rd + 1 /\ D rd w).
    intros w Hw. apply wp_int_incr; intros; simpl; eauto. }
  intros rd'. eapply hoare_bind.
  { apply hoare_via.
    - intros w [-> Hw]. apply (Hwr rd w Hw).
    - intros w [_ Hw]. apply (HDt rd w Hw). }
  intros ?. eapply hoare_bind; [apply Hunlock|].
  intros ?. apply hoare_ret. auto.
Qed.

(** An iteration: a counted message takes the world from [A] to [G], a
    skipped one leaves it in [A]. *)
Hypothesis Hrcv : forall r, hoare A (msgrcv E r) (fun _ => A) R.
Hypothesis Herr : forall s, hoare A (perror E s) (fun _ => A) R.

Lemma hoare_watchdog_iteration r l :
  hoare A (watchdog_iteration E r l)
    (fun _ w => match r with
                | RcvMsg data =>
                    if scan_return (sscanf_d data) <? 0 then A w else G w
                | RcvErr => False
                end) R.
Proof.
  unfold watchdog_iteration. eapply hoare_bind.
  { instantiate (1 := fun m w => m = r /\ A w).
    intros w Hw. specialize (Hrcv r w Hw).
    pose proof (yields_msgrcv E r w) as Hy. unfold wp in *.
    destruct (msgrcv E r w); auto. }
  intros m w [-> Hw]. revert w Hw.
  destruct r as [|data].
  - eapply hoare_bind; [apply Herr|]. intros ?. apply hoare_stop. exact HAR.
  - destruct (sscanf_d data) as [| |n|]; simpl.
    + eapply hoare_bind; [apply Herr|]. intros ?. apply hoare_ret. auto.
    + apply hoare_watchdog_score.
    + apply hoare_watchdog_score.
    + apply (hoare_stop (A:=wd_locals)). exact HAR.
Qed.

End Skeleton.

End WatchdogWorld.

(** * The counter runs_done *)

Lemma hoare_kept {A} (m : Proc A) (I R : world -> Prop) :
  preserves I m -> (forall w, I w -> R w) -> hoare I m (fun _ => I) R.
Proof.
  intros Hm HR. eapply hoare_weaken; [| | |apply hoare_preserves, Hm]; auto.
Qed.

Section RunsDone.

Variable E : env.
Hypothesis Hkeep : keeps_runs_done E.

Lemma runs_done_writes_app l1 l2 :
  runs_done_writes (l1 ++ l2) = runs_done_writes l1 ++ runs_done_writes l2.
Proof. apply omap_app. Qed.

Lemma stable_tally k :
  stable E (fun e => runs_done_write e = None) (tally k).
Proof.
  split.
  - intros w [H1 H2]. split; [simpl; rewrite Hkeep; exact H1 | exact H2].
  - intros e w He [H1 H2]. split; [exact H1|].
    change (trace (log e w)) with (trace w ++ [e]).
    rewrite runs_done_writes_app, H2.
    change (runs_done_writes [e]) with
      (match runs_done_write e with Some v => [v] | None => [] end).
    rewrite He. apply app_nil_r.
  - intros w r h [H1 H2]. split; assumption.
Qed.

Lemma stable_within_bound :
  stable E (fun e => runs_done_write e = None) within_bound.
Proof.
  split; intros; destruct_and?;
    match goal with H : within_bound _ |- _ => destruct H as (k & Hk & Hle) end;
    exists k; (split; [|exact Hle]); eapply stable_tally; eauto.
Qed.

Lemma tally_write_frontrunner k v :
  preserves (tally k) (shm_write E Ffrontrunner v).
Proof.
  apply preserves_bind.
  - eapply stable_sched, stable_tally.
  - intros _ w [H1 H2]. split; [exact H1|].
    change (runs_done_writes (trace w ++ [EvShmWrite Ffrontrunner v]) =
            map Z.of_nat (seq 1 k)).
    rewrite runs_done_writes_app, H2. apply app_nil_r.
Qed.

Lemma tally_read k R :
  (forall w, tally k w -> R w) ->
  hoare (tally k) (shm_read E Fruns_done)
        (fun rd w => rd = Z.of_nat k /\ tally k w) R.
Proof.
  intros HR w Hw. apply wp_shm_read.
  - intros _. apply HR. eapply stable_tally; eauto.
  - intros _. destruct Hw as [H1 H2].
    change (runs_done (others E (clock w) (shm w)) = Z.of_nat k /\
            tally k (log (EvShmRead Fruns_done
                            (runs_done (others E (clock w) (shm w))))
                         (tick E w))).
    rewrite Hkeep. split; [exact H1|].
    eapply stable_tally; [reflexivity|]. eapply stable_tally. split; assumption.
Qed.

Lemma tally_write k R :
  (forall w, tally k w -> R w) -> (forall w, tally (S k) w -> R w) ->
  hoare (fun w => tally k w)
        (shm_write E Fruns_done (Z.of_nat k + 1)) (fun _ => tally (S k)) R.
Proof.
  intros HR HR' w Hw. apply wp_shm_write.
  - intros _. apply HR. eapply stable_tally; eauto.
  - intros _. destruct Hw as [H1 H2]. split; [simpl; lia|].
    change (runs_done_writes
              (trace w ++ [EvShmWrite Fruns_done (Z.of_nat k + 1)]) =
            map Z.of_nat (seq 1 (S k))).
    rewrite runs_done_writes_app, H2, seq_S, map_app.
    change (runs_done_writes [EvShmWrite Fruns_done (Z.of_nat k + 1)])
      with [Z.of_nat k + 1].
    simpl. do 2 f_equal. lia.
Qed.

Lemma tally_iteration k r l :
  hoare (tally k) (watchdog_iteration E r l)
    (fun _ w => match r with
                | RcvMsg data =>
                    if scan_return (sscanf_d data) <? 0 then tally k w
                    else tally (S k) w
                | RcvErr => False
                end)
    (fun w => tally k w \/ tally (S k) w).
Proof.
  pose proof (stable_tally k) as Hk. pose proof (stable_tally (S k)) as HSk.
  apply (hoare_watchdog_iteration E (tally k) (tally k) (tally k) (tally (S k))
           (tally (S k)) (fun rd w => rd = Z.of_nat k /\ tally k w)).
  - intros s. apply hoare_kept; [|auto].
    eapply stable_printf; [exact Hk | reflexivity].
  - auto.
  - intros rd w [_ Hw]. auto.
  - intros w Hw. left. apply Hk, Hw.
  - intros w Hw. left. apply Hk, Hw.
  - intros rd w [_ Hw]. left. apply Hk, Hw.
  - apply hoare_kept; [|auto].
    eapply stable_sem_operation; [exact Hk | reflexivity | reflexivity].
  - intros v. apply hoare_kept; [|auto]. apply tally_write_frontrunner.
  - apply tally_read. auto.
  - intros rd w [-> Hw]. apply (tally_write k); auto.
  - apply hoare_kept; [|auto].
    eapply stable_sem_operation; [exact HSk | reflexivity | reflexivity].
  - intros r'. apply hoare_kept; [|auto].
    eapply stable_msgrcv; [exact Hk | reflexivity].
  - intros s. apply hoare_kept; [|auto].
    eapply stable_perror; [exact Hk | reflexivity].
Qed.

Lemma tally_test k l :
  hoare (tally k) (watchdog_test E l)
    (fun b w => tally k w /\ (b = true -> Z.of_nat k < MAXRUNS)) (tally k).
Proof.
  unfold watchdog_test. destruct (wd_winner l =? -1).
  - eapply hoare_bind.
    { apply hoare_via; [apply tally_read; auto|].
      intros w Hw. apply (stable_tally k), Hw. }
    intros rd. apply hoare_ret. intros w [-> Hw]. split; [exact Hw|]. lia.
  - apply hoare_ret. intros w Hw. split; [exact Hw | discriminate].
Qed.

Lemma tally_bounded k w :
  Z.of_nat k <= MAXRUNS -> tally k w -> within_bound w.
Proof. intros Hle Hw. exists k. auto. Qed.

Lemma within_bound_loop inbox :
  forall l k, Z.of_nat k < MAXRUNS ->
    hoare (tally k) (watchdog_loop E inbox l) (fun _ => within_bound)
          within_bound.
Proof.
  induction inbox as [|r inbox IH]; intros l k Hk; simpl.
  - assert (Hp : preserves within_bound (sched E ;; @block E wd_locals)).
    { apply preserves_bind.
      + eapply stable_sched; apply stable_within_bound.
      + intros _. eapply stable_block; apply stable_within_bound. }
    intros w Hw. apply (hoare_preserves _ _ Hp).
    eapply tally_bounded; [|exact Hw]. lia.
  - eapply hoare_bind.
    { eapply hoare_weaken; [| | |apply (tally_iteration k r l)].
      - auto.
      - instantiate (1 := fun _ w => tally k w \/ tally (S k) w).
        intros l' w' Hpost. destruct r as [|data]; [contradiction|].
        destruct (scan_return (sscanf_d data) <? 0); auto.
      - intros w [Hw|Hw]; eapply tally_bounded; try exact Hw; lia. }
    intros l'.
    assert (Hstep : forall k', Z.of_nat k' <= MAXRUNS ->
              hoare (tally k')
                (again <- watchdog_test E l' ;;
                 if again then watchdog_loop E inbox l' else ret l')
                (fun _ => within_bound) within_bound).
    { intros k' Hk'. eapply hoare_bind.
      - apply (hoare_weaken _ (tally k') (tally k') _ _ (tally k') within_bound
                 (fun w H => H) (fun b w H => H)
                 (fun w H => tally_bounded k' w Hk' H) (tally_test k' l')).
      - intros [|].
        + intros w [Hw Hlt]. apply (IH l' k' (Hlt eq_refl) w Hw).
        + apply hoare_ret. intros w [Hw _]. eapply tally_bounded; eauto. }
    intros w [Hw|Hw]; [apply (Hstep k) | apply (Hstep (S k))]; auto; lia.
Qed.

Lemma within_bound_process inbox :
  hoare (tally 0) (watchdog_process E inbox) (fun _ => within_bound)
        within_bound.
Proof.
  pose proof stable_within_bound as Hb.
  assert (H0 : forall w, tally 0 w -> within_bound w).
  { intros w Hw. eapply tally_bounded; [|exact Hw]. unfold MAXRUNS, MSGNR,
      MAXCLIENTS. lia. }
  unfold watchdog_process, watchdog_code, getpid.
  apply (hoare_bind _ _ _ (fun _ => within_bound));
    [|intros ?; apply hoare_stop; auto].
  apply hoare_bind_ret. eapply hoare_bind.
  { apply hoare_kept; [|exact H0]. eapply stable_printf; [apply stable_tally|].
    reflexivity. }
  intros ?. destruct (lt_0 E (watchdog_client E)).
  { eapply hoare_weaken;
      [exact H0 | intros a' w' H; exact H | intros w' H; exact H |].
    apply hoare_preserves, preserves_bind.
    - eapply stable_perror; [exact Hb | reflexivity].
    - intros _. apply preserves_ret. }
  eapply hoare_bind.
  { apply within_bound_loop. unfold MAXRUNS, MSGNR, MAXCLIENTS. lia. }
  intros l. apply hoare_preserves. apply preserves_bind.
  - eapply stable_printf; [exact Hb | reflexivity].
  - intros _. apply preserves_for_each. intros i. apply preserves_bind.
    + eapply stable_via; [exact Hb|].
      eapply stable_shm_read; [exact Hb | reflexivity].
    + intros p'. eapply stable_kill; [exact Hb | reflexivity].
Qed.

(** At the start of the body [runs_done] is the number of messages
    received, if each of them was counted. *)
Lemma tally_wd_at l0 w0 ms l w :
  wd_at E l0 w0 ms l w ->
  Forall (fun r => exists data, r = RcvMsg data /\
                                0 <= scan_return (sscanf_d data)) ms ->
  forall k, tally k w0 -> Z.of_nat k < MAXRUNS ->
    tally (k + length ms) w /\ Z.of_nat (k + length ms) < MAXRUNS.
Proof.
  induction 1 as [|l0 w0 r l1 w1 w1' ms l w Hit Ht _ IH]; intros Hall k Hk Hlt.
  - simpl. rewrite Nat.add_0_r. auto.
  - inversion Hall as [|r' ms' (data & -> & Hret) Hall']; subst.
    pose proof (hoare_ret_eq _ _ _ _ _ _ _ (tally_iteration k _ l0) Hk Hit) as H1.
    simpl in H1. destruct (Z.ltb_spec (scan_return (sscanf_d data)) 0); [lia|].
    pose proof (hoare_ret_eq _ _ _ _ _ _ _ (tally_test (S k) l1) H1 Ht)
      as [H2 H3].
    destruct (IH Hall' (S k) H2 (H3 eq_refl)) as [H4 H5].
    simpl. rewrite Nat.add_succ_r. auto.
Qed.

End RunsDone.

Lemma sscanf_client_message nr :
  0 <= nr < MAXCLIENTS -> sscanf_d (client_message nr) = ScanInt nr.
Proof.
  intros H. unfold MAXCLIENTS in H.
  assert (Hc : nr = 0 \/ nr = 1 \/ nr = 2 \/ nr = 3 \/ nr = 4 \/ nr = 5 \/
               nr = 6 \/ nr = 7 \/ nr = 8 \/ nr = 9 \/ nr = 10 \/ nr = 11) by lia.
  repeat (destruct Hc as [->|Hc]; [vm_compute; reflexivity|]).
  subst. vm_compute. reflexivity.
Qed.

(** * The end of the loop, and after *)

Section WatchdogEnd.

Variable E : env.

(** The test fails exactly with a winner recorded or [runs_done] at the
    bound. *)
Lemma watchdog_test_spec l w b w' :
  watchdog_test E l w = Ret b w' ->
  (b = false <-> wd_winner l <> -1 \/ MAXRUNS <= runs_done (shm w')).
Proof.
  unfold watchdog_test. destruct (Z.eqb_spec (wd_winner l) (-1)) as [Hw|Hw].
  - unfold watchdog_client, shmat. destruct (shmat_ok E).
    2:{ cbv [via bind sched stop]. destruct (signal_due E w).
        - rewrite deliver_eq. discriminate.
        - discriminate. }
    cbv [via bind shm_read sched emit ret]. destruct (signal_due E w).
    + rewrite deliver_eq. discriminate.
    + simpl. intros [= <- <-]. simpl.
      destruct (Z.ltb_spec (runs_done (others E (clock w) (shm w))) MAXRUNS);
        split; intros; try discriminate; try lia; auto.
  - intros [= <- <-]. split; auto.
Qed.

Lemma watchdog_loop_returns_iff inbox l0 w0 l' w' :
  watchdog_loop E inbox l0 w0 = Ret l' w' <->
  exists ms r rest l w w1,
    inbox = ms ++ r :: rest /\ wd_at E l0 w0 ms l w /\
    watchdog_iteration E r l w = Ret l' w1 /\
    watchdog_test E l' w1 = Ret false w'.
Proof.
  split; [apply watchdog_loop_returns|].
  intros (ms & r & rest & l & w & w1 & -> & Hat & Hit & Ht).
  rewrite (watchdog_loop_at E _ _ _ _ _ (r :: rest) Hat).
  eapply watchdog_loop_last; eassumption.
Qed.

Lemma kills_app l1 l2 : kills (l1 ++ l2) = (kills l1 + kills l2)%nat.
Proof. unfold kills. rewrite filter_app, length_app. reflexivity. Qed.

(** ** The ways the watchdog stops after its loop *)

Lemma not_signalled_failure : ~ signalled (Exit EXIT_FAILURE).
Proof. intros [H|H]; discriminate. Qed.

Lemma not_cut_short_failure : ~ cut_short E (Exit EXIT_FAILURE).
Proof. intros [H|[_ H]]; [destruct (not_signalled_failure H)|discriminate]. Qed.

Lemma sig_halt_not_failure w : sig_halt w <> Exit EXIT_FAILURE.
Proof. unfold sig_halt. destruct (handler w); discriminate. Qed.

Lemma printf_returns s w w' :
  printf E s w = Ret tt w' -> w' = log (EvPrintf s) (tick E w).
Proof.
  unfold printf, bind, sched. destruct (signal_due E w).
  - rewrite deliver_eq. discriminate.
  - simpl. intros [= <-]. reflexivity.
Qed.

Lemma perror_returns s w w' :
  perror E s w = Ret tt w' -> w' = log (EvPerror s) (tick E w).
Proof.
  unfold perror, bind, sched. destruct (signal_due E w).
  - rewrite deliver_eq. discriminate.
  - simpl. intros [= <-]. reflexivity.
Qed.

Lemma yields_shm_read f :
  yields (shm_read E f) (fun _ => True)
         (fun h => cut_short E h \/ exists i, h = Undefined (OutOfBounds i)).
Proof.
  intros w. unfold wp, shm_read, bind, sched. destruct (signal_due E w).
  - rewrite deliver_eq. left. left. apply signalled_sig_halt.
  - destruct (load (shm (tick E w)) f); simpl; eauto.
Qed.

Lemma yields_kill p : yields (kill_SIGUSR1 E p) (fun _ => True) signalled.
Proof.
  unfold kill_SIGUSR1. eapply yields_bind; [apply yields_sched|].
  intros _ _ w. unfold wp, bind, emit.
  destruct (reaches_self E p); [rewrite deliver_eq|exact Logic.I].
  apply signalled_sig_halt.
Qed.

Lemma yields_watchdog_broadcast :
  yields (watchdog_broadcast E) (fun _ => True)
         (fun h => cut_short E h \/ exists i, h = Undefined (OutOfBounds i)).
Proof.
  unfold watchdog_broadcast. induction client_indices as [|i idx IH]; simpl.
  - apply yields_ret. exact Logic.I.
  - apply (yields_bind _ _ (fun _ => True)); [|intros _ _; exact IH].
    apply (yields_bind _ _ (fun _ => True)).
    + apply yields_via; [apply yields_shm_read|]. intros h Hh. left. exact Hh.
    + intros p _. eapply yields_weaken; [| |apply yields_kill]; auto.
      intros h Hh. left. left. exact Hh.
Qed.

(** Once the loop has returned, with a winner or without, the process
    does not end with a failure status. *)
Lemma watchdog_process_no_failure inbox w l' w' h w'' :
  watchdog_loop E inbox wd_init
    (log (EvPrintf ("[watchdog] starting with pid " ++ dec (pid E) ++ nl))
         (tick E w)) = Ret l' w' ->
  watchdog_process E inbox w = Stop h w'' ->
  h <> Exit EXIT_FAILURE.
Proof.
  intros Hloop. unfold watchdog_process, watchdog_code, getpid.
  unfold bind at 1. unfold bind at 1. unfold ret at 1. unfold bind at 1.
  set (s := ("[watchdog] starting with pid " ++ dec (pid E) ++ nl)%string) in *.
  destruct (printf E s w) as [[] w1|h1 w1] eqn:Hp.
  2:{ intros [= <- _] Hf.
      pose proof (yields_inv _ _ _ w (yields_printf E s)) as Hy.
      rewrite Hp, Hf in Hy. destruct (not_signalled_failure Hy). }
  apply printf_returns in Hp. subst w1.
  destruct (lt_0 E (watchdog_client E)).
  { unfold bind at 1.
    pose proof (yields_inv _ _ _ (log (EvPrintf s) (tick E w))
                  (yields_perror E "[watchdog] shmat")) as Hy.
    destruct (perror E "[watchdog] shmat" _) as [[] w2|h2 w2].
    - unfold ret, exit, stop. intros [= <- _]. discriminate.
    - intros [= <- _] Hf. rewrite Hf in Hy.
      destruct (not_signalled_failure Hy). }
  unfold bind at 1. rewrite Hloop.
  set (rest := (printf E _ ;; watchdog_broadcast E)).
  assert (Hy : yields rest (fun _ => True)
                 (fun h => cut_short E h \/
                           exists i, h = Undefined (OutOfBounds i))).
  { apply (yields_bind _ _ (fun _ => True)).
    - eapply yields_weaken; [| |apply yields_printf]; auto.
      intros h0 Hh. left. left. exact Hh.
    - intros _ _. apply yields_watchdog_broadcast. }
  pose proof (yields_inv _ _ _ w' Hy) as Hy2.
  destruct (rest w') as [[] w3|h3 w3].
  - unfold exit, stop. intros [= <- _]. discriminate.
  - intros [= <- _] Hf. rewrite Hf in Hy2.
    destruct Hy2 as [Hs|[i Hi]]; [|discriminate].
    destruct (not_cut_short_failure Hs).
Qed.

Section Pids.

Hypothesis HP : pids_kept E.

Lemma stable_pids_wf : stable E (fun _ => True) pids_wf.
Proof.
  split; unfold pids_wf; simpl; auto.
  intros w H. rewrite HP. exact H.
Qed.

Lemma pids_wf_write f v : preserves pids_wf (shm_write E f v).
Proof.
  apply preserves_bind; [eapply stable_sched, stable_pids_wf|].
  intros _ w Hw. unfold pids_wf in *.
  destruct f as [| |i]; simpl; try exact Hw.
  destruct (in_clients i && (Z.to_nat i <? length (clientpids (shm w)))%nat);
    simpl; [rewrite length_insert|]; exact Hw.
Qed.

Lemma pids_wf_iteration r l :
  hoare pids_wf (watchdog_iteration E r l) (fun _ => pids_wf) pids_wf.
Proof.
  pose proof stable_pids_wf as Hs.
  eapply hoare_weaken;
    [| | |apply (hoare_watchdog_iteration E pids_wf pids_wf pids_wf pids_wf
                  pids_wf (fun _ => pids_wf) pids_wf)]; auto.
  - intros l' w Hw. destruct r as [|data]; [contradiction|].
    destruct (scan_return (sscanf_d data) <? 0); exact Hw.
  - intros s. apply hoare_preserves. eapply stable_printf; [exact Hs|exact Logic.I].
  - apply Hs.
  - apply Hs.
  - intros _. apply Hs.
  - apply hoare_preserves.
    eapply stable_sem_operation; [exact Hs|intros; exact Logic.I|exact Logic.I].
  - intros v. apply hoare_preserves, pids_wf_write.
  - apply hoare_preserves.
    eapply stable_shm_read; [exact Hs|intros; exact Logic.I].
  - intros rd. apply hoare_preserves, pids_wf_write.
  - apply hoare_preserves.
    eapply stable_sem_operation; [exact Hs|intros; exact Logic.I|exact Logic.I].
  - intros r'. apply hoare_preserves.
    eapply stable_msgrcv; [exact Hs|exact Logic.I].
  - intros s. apply hoare_preserves.
    eapply stable_perror; [exact Hs|exact Logic.I].
Qed.

Lemma pids_wf_loop inbox :
  forall l, hoare pids_wf (watchdog_loop E inbox l) (fun _ => pids_wf) pids_wf.
Proof.
  pose proof stable_pids_wf as Hs.
  induction inbox as [|r inbox IH]; intros l; simpl.
  - apply hoare_preserves, preserves_bind.
    + eapply stable_sched; exact Hs.
    + intros _. eapply stable_block; exact Hs.
  - eapply hoare_bind; [apply pids_wf_iteration|].
    intros l'. apply (hoare_bind _ _ _ (fun _ => pids_wf)).
    + apply hoare_preserves. unfold watchdog_test.
      destruct (wd_winner l' =? -1); [|apply preserves_ret].
      apply preserves_bind; [|intros rd; apply preserves_ret].
      eapply stable_via; [exact Hs|].
      eapply stable_shm_read; [exact Hs|intros; exact Logic.I].
    + intros [|]; [apply IH | apply hoare_ret; auto].
Qed.

Lemma strangersb_lookup pids (i : nat) p :
  strangersb E pids = true -> pids !! i = Some p -> reaches_self E p = false.
Proof.
  unfold strangersb. rewrite forallb_forall. intros H Hl.
  apply negb_true_iff, H, list_elem_of_In. eapply list_elem_of_lookup_2, Hl.
Qed.

Section Quiet.

Hypothesis HQ : quiet E.
Hypothesis HS : attached E.
Hypothesis HK : keeps_strangers E.

Lemma strangers_tick w : strangers E w -> strangers E (tick E w).
Proof. unfold strangers. simpl. apply HK. Qed.

(** With pids of other processes in the table the broadcast goes through
    the slots and returns. *)
Lemma broadcast_quiet (idx : list nat) w :
  Forall (fun i => (i < Z.to_nat MAXCLIENTS)%nat) idx ->
  length (clientpids (shm w)) = Z.to_nat MAXCLIENTS ->
  strangers E w ->
  exists w' evs,
    for_each idx (fun i =>
      p <- via E (watchdog_client E) (shm_read E (Fclientpids (Z.of_nat i))) ;;
      kill_SIGUSR1 E p) w = Ret tt w' /\
    trace w' = trace w ++ evs /\ kills evs = length idx.
Proof.
  revert w. induction idx as [|i idx IH]; intros w Hall Hlen Hstr.
  - exists w, []. rewrite app_nil_r. auto.
  - inversion Hall as [|i' idx' Hi Hall']; subst.
    assert (Hlen' : length (clientpids (shm (tick E w))) = Z.to_nat MAXCLIENTS).
    { simpl. rewrite HP. exact Hlen. }
    destruct (lookup_lt_is_Some_2 (clientpids (shm (tick E w))) i) as [p Hp];
      [lia|].
    assert (Hread : shm_read E (Fclientpids (Z.of_nat i)) w =
                    Ret p (log (EvShmRead (Fclientpids (Z.of_nat i)) p) (tick E w))).
    { unfold shm_read, bind. rewrite (sched_q E HQ).
      unfold load. unfold in_clients.
      replace ((0 <=? Z.of_nat i) && (Z.of_nat i <? MAXCLIENTS)) with true
        by (symmetry; apply andb_true_intro; split;
            [apply Z.leb_le | apply Z.ltb_lt]; unfold MAXCLIENTS in *; lia).
      rewrite Nat2Z.id, Hp. reflexivity. }
    assert (Hp' : reaches_self E p = false).
    { apply (strangersb_lookup _ i p (strangers_tick w Hstr) Hp). }
    set (w1 := log (EvKill p SIGUSR1)
                 (tick E (log (EvShmRead (Fclientpids (Z.of_nat i)) p) (tick E w)))).
    destruct (IH w1 Hall') as (w' & evs & Heq & Ht & Hk).
    { unfold w1. simpl. rewrite !HP. exact Hlen. }
    { unfold w1. apply (strangers_tick _ (strangers_tick w Hstr)). }
    exists w', ([EvShmRead (Fclientpids (Z.of_nat i)) p; EvKill p SIGUSR1] ++ evs).
    split; [|split].
    + simpl. unfold bind at 1. unfold bind at 1. unfold watchdog_client.
      rewrite (via_attached E _ HS), Hread.
      rewrite (kill_q E HQ), Hp'. exact Heq.
    + rewrite Ht. unfold w1. simpl. rewrite <- !app_assoc. reflexivity.
    + rewrite kills_app, Hk. reflexivity.
Qed.

(** Once the loop has returned, with a winner or without, and with pids
    of other processes in the twelve slots, the watchdog prints the
    result, sends SIGUSR1 to these pids and exits with success. *)
Lemma watchdog_process_after_loop inbox w l' w' :
  watchdog_loop E inbox wd_init
    (log (EvPrintf ("[watchdog] starting with pid " ++ dec (pid E) ++ nl))
         (tick E w)) = Ret l' w' ->
  pids_wf w' -> strangers E w' ->
  exists w'' evs,
    watchdog_process E inbox w = Stop (Exit EXIT_SUCCESS) w'' /\
    trace w'' =
      trace w' ++
      EvPrintf ("[watchdog] finished, winner: client " ++ dec (wd_winner l') ++ nl)
      :: evs /\
    kills evs = Z.to_nat MAXCLIENTS.
Proof.
  intros Hloop Hlen Hstr.
  set (w1 := log (EvPrintf ("[watchdog] finished, winner: client "
                            ++ dec (wd_winner l') ++ nl)) (tick E w')).
  destruct (broadcast_quiet client_indices w1) as (w'' & evs & Hb & Ht & Hk).
  { unfold client_indices. apply Forall_forall. intros i Hi.
    apply list_elem_of_In, in_seq in Hi. lia. }
  { unfold w1. simpl. rewrite HP. exact Hlen. }
  { unfold w1. apply (strangers_tick _ Hstr). }
  exists w'', evs. split; [|split].
  - unfold watchdog_process, watchdog_code, getpid.
    unfold bind at 1. unfold bind at 1. unfold ret at 1.
    unfold bind at 1. rewrite (printf_q E HQ).
    unfold watchdog_client. rewrite (lt_0_attached E HS).
    unfold bind at 1. rewrite Hloop.
    unfold bind at 1. rewrite (printf_q E HQ).
    unfold watchdog_broadcast. fold w1. rewrite Hb. reflexivity.
  - rewrite Ht. unfold w1. simpl. rewrite <- app_assoc. reflexivity.
  - rewrite Hk. unfold client_indices. apply length_seq.
Qed.

End Quiet.

End Pids.

End WatchdogEnd.

(** ** The environment of registered clients *)

Lemma registered_env_pids_kept : pids_kept registered_env.
Proof. intros n g. simpl. apply length_imap. Qed.

Lemma registered_env_keeps_strangers : keeps_strangers registered_env.
Proof.
  intros n g _. simpl. unfold strangersb. apply forallb_forall.
  intros p Hp. apply list_elem_of_In, elem_of_lookup_imap_1 in Hp.
  destruct Hp as (i & _ & -> & _). unfold reaches_self, client_pid. simpl.
  apply negb_true_iff, orb_false_intro; [apply orb_false_intro|].
  - apply Z.eqb_neq. lia.
  - apply Z.eqb_neq. lia.
  - apply andb_false_intro1, Z.ltb_ge. lia.
Qed.

(** * The bound on runs_done and the winner *)

Lemma total_insert l (i : nat) s v :
  l !! i = Some s -> total (<[i := v]> l) = total l - s + v.
Proof.
  revert i. induction l as [|x l IH]; intros [|i]; simpl; try discriminate.
  - intros [= ->]. lia.
  - intros H. unfold total in *. simpl. rewrite (IH i H). lia.
Qed.

Lemma total_below l b :
  Forall (fun s => 0 <= s < b) l -> total l <= (b - 1) * Z.of_nat (length l).
Proof.
  induction 1 as [|x l Hx _ IH]; unfold total in *; simpl; [lia|]. lia.
Qed.

Section Exhaustion.

Variable E : env.
Hypothesis Hkeep : keeps_runs_done E.

(** After an iteration [runs_done] is still the sum of the scores. *)
Lemma total_iteration r l w l' w' k :
  wd_ok l -> tally k w -> Z.of_nat k = total (wd_scores l) ->
  watchdog_iteration E r l w = Ret l' w' ->
  exists k', tally k' w' /\ Z.of_nat k' = total (wd_scores l').
Proof.
  intros Hok Hk Hsum Hit.
  pose proof (hoare_ret_eq _ _ _ _ _ _ _ (tally_iteration E Hkeep k r l) Hk Hit)
    as Hw.
  destruct (iteration_from_ok E r l w l' w' Hok Hit)
    as (data & -> & [[He ->]|(Hret & nr & _ & Hnr & Hs & _)]).
  - rewrite He in Hw. simpl in Hw. exists k. auto.
  - simpl in Hw. destruct (Z.ltb_spec (scan_return (sscanf_d data)) 0); [lia|].
    exists (S k). split; [exact Hw|]. rewrite Hs.
    destruct Hok as (Hlen & _).
    rewrite (total_insert _ _ (score_of (wd_scores l) nr)).
    + lia.
    + apply score_of_some; assumption.
Qed.

Lemma total_wd_at l0 w0 ms l w :
  wd_at E l0 w0 ms l w ->
  forall k, wd_ok l0 -> tally k w0 -> Z.of_nat k = total (wd_scores l0) ->
  wd_ok l /\ exists k', tally k' w /\ Z.of_nat k' = total (wd_scores l).
Proof.
  induction 1 as [|l0 w0 r l1 w1 w1' ms l w Hit Ht _ IH]; intros k Hok Hk Hsum.
  - split; [exact Hok|]. exists k. auto.
  - destruct (total_iteration r l0 w0 l1 w1 k Hok Hk Hsum Hit)
      as (k1 & Hk1 & Hsum1).
    pose proof (hoare_ret_eq _ _ _ _ _ _ _ (tally_test E Hkeep k1 l1) Hk1 Ht)
      as [Hk1' _].
    apply (IH k1); [eapply step_ok; eassumption | exact Hk1' | exact Hsum1].
Qed.

(** Started with [runs_done] at 0, the loop never returns for the bound
    alone: when it returns a winner is recorded.  The twelve scores add up
    to [runs_done], and with no winner each is below [MSGNR]. *)
Lemma loop_returns_with_winner inbox w0 l' w' :
  tally 0 w0 ->
  watchdog_loop E inbox wd_init w0 = Ret l' w' ->
  wd_winner l' <> -1.
Proof.
  intros H0 Hloop Hno.
  destruct (watchdog_loop_returns E inbox wd_init w0 l' w' Hloop)
    as (ms & r & rest & l & w & w1 & _ & Hat & Hit & Ht).
  destruct (total_wd_at _ _ _ _ _ Hat 0%nat wd_init_ok H0 eq_refl)
    as (Hok & k & Hk & Hsum).
  destruct (total_iteration r l w l' w1 k Hok Hk Hsum Hit) as (k1 & Hk1 & Hsum1).
  assert (Hok' : wd_ok l').
  { destruct (iteration_from_ok E r l w l' w1 Hok Hit)
      as (data & _ & [[_ ->]|(_ & nr & _ & _ & _ & _ & H & _)]); auto. }
  pose proof (hoare_ret_eq _ _ _ _ _ _ _ (tally_test E Hkeep k1 l') Hk1 Ht)
    as [[Hrd _] _].
  destruct (proj1 (watchdog_test_spec E l' w1 false w' Ht) eq_refl) as [Hw|Hb];
    [contradiction|].
  destruct Hok' as (Hlen & Hall & _).
  pose proof (total_below _ _ Hall) as Hle. rewrite Hlen in Hle.
  unfold MAXRUNS, MSGNR, MAXCLIENTS in *. lia.
Qed.

End Exhaustion.

(** ** A message of a client, and the winner *)

Section ClientMessage.

Variable E : env.

(** A message that [sscanf] reads as [nr] and that is counted is counted
    for [nr]. *)
Lemma message_counted l w data nr l' w' :
  wd_ok l -> sscanf_d data = ScanInt nr ->
  watchdog_iteration E (RcvMsg data) l w = Ret l' w' ->
  0 <= nr < MAXCLIENTS /\
  wd_client_nr l' = Some nr /\
  wd_scores l' = <[Z.to_nat nr := score_of (wd_scores l) nr + 1]> (wd_scores l) /\
  (wd_winner l' = -1 -> wd_ok l') /\
  (wd_winner l' <> -1 ->
   wd_winner l' = wd_frontrunner l' /\ nr = wd_frontrunner l' /\
   score_of (wd_scores l') nr = MSGNR).
Proof.
  intros Hok Hscan Hit.
  pose proof (yields_inv _ _ _ w (yields_watchdog_iteration E (RcvMsg data) l))
    as Hy.
  rewrite Hit in Hy. destruct Hy as (data' & [= <-] & [[He _]|[_ Hs]]).
  { rewrite Hscan in He. discriminate. }
  destruct Hs as (nr0 & s & Hc & _ & _ & _ & ->).
  unfold parsed in Hc. rewrite Hscan in Hc. simpl in Hc. injection Hc as <-.
  destruct (iteration_from_ok E _ l w _ w' Hok Hit)
    as (data' & [= <-] & [[He _]|(_ & nr' & Hc' & Hr & Hs & _ & Hno & Hyes)]).
  { rewrite Hscan in He. discriminate. }
  simpl in Hc'. injection Hc' as <-.
  split; [exact Hr|]. split; [reflexivity|]. split; [exact Hs|].
  split; [exact Hno|]. intros Hw. destruct (Hyes Hw) as (H1 & H2 & H3 & _).
  auto.
Qed.

(** It makes its sender the winner exactly when it brings the sender's
    score to [MSGNR]. *)
Lemma message_decides_winner l w data nr l' w' :
  wd_ok l -> sscanf_d data = ScanInt nr ->
  watchdog_iteration E (RcvMsg data) l w = Ret l' w' ->
  wd_winner l' = if score_of (wd_scores l) nr =? MSGNR - 1 then nr else -1.
Proof.
  intros Hok Hscan Hit.
  destruct (message_counted l w data nr l' w' Hok Hscan Hit)
    as (Hnr & _ & Hs & Hno & Hyes).
  assert (Hnew : score_of (wd_scores l') nr = score_of (wd_scores l) nr + 1).
  { rewrite Hs. apply score_of_insert_eq. destruct Hok as (Hlen & _).
    rewrite Hlen. unfold MAXCLIENTS in *. lia. }
  destruct (Z.eqb_spec (score_of (wd_scores l) nr) (MSGNR - 1)) as [Hlast|Hnot].
  - destruct (Z.eq_dec (wd_winner l') (-1)) as [Hw|Hw].
    + destruct (Hno Hw) as (Hlen' & Hall' & _).
      pose proof (score_of_Forall (fun s => 0 <= s < MSGNR) _ nr Hlen' Hall' Hnr).
      simpl in *. lia.
    + destruct (Hyes Hw) as (H1 & H2 & _). congruence.
  - destruct (Z.eq_dec (wd_winner l') (-1)) as [Hw|Hw]; [exact Hw|].
    destruct (Hyes Hw) as (_ & _ & H3). lia.
Qed.

End ClientMessage.

(** * Accesses under the lock *)

Lemma guarded_app needs h l1 l2 :
  guarded needs h (l1 ++ l2) =
  guarded needs h l1 && guarded needs (fold_left lock_step l1 h) l2.
Proof.
  revert h. induction l1 as [|e l1 IH]; intros h; simpl; [reflexivity|].
  rewrite IH, andb_assoc. reflexivity.
Qed.

Lemma holds_snoc evs e : holds (evs ++ [e]) = lock_step (holds evs) e.
Proof. unfold holds. rewrite fold_left_app. reflexivity. Qed.

Section Lock.

Variable E : env.
Variable needs : event -> bool.
Hypothesis Hneeds : forall e, needs e = true -> is_access e = true.
Hypothesis Hsem : semop_succeeds E.

Lemma not_needed e : is_access e = false -> needs e = false.
Proof.
  intros H. destruct (needs e) eqn:Hn; [|reflexivity].
  apply Hneeds in Hn. congruence.
Qed.

Lemma quiet_event e :
  is_access e = false -> (forall h, lock_step h e = h) -> unguarded needs e.
Proof. intros H1 H2. split; [apply not_needed, H1 | exact H2]. Qed.

Lemma locked_log b e w :
  (needs e = true -> b = true) ->
  locked needs b w -> locked needs (lock_step b e) (log e w).
Proof.
  intros Hn [Hg Hh]. split.
  - change (guarded needs false (trace w ++ [e]) = true).
    rewrite guarded_app, Hg. simpl. fold (holds (trace w)). rewrite Hh.
    destruct (needs e); [rewrite Hn|]; reflexivity.
  - change (holds (trace w ++ [e]) = lock_step b e).
    rewrite holds_snoc, Hh. reflexivity.
Qed.

Lemma stable_locked b : stable E (unguarded needs) (locked needs b).
Proof.
  split.
  - intros w H. exact H.
  - intros e w [Ha Hl] H. rewrite <- (Hl b). apply locked_log; [|exact H].
    intros Hn. congruence.
  - intros w r h H. exact H.
Qed.

Lemma locked_guarded b w : locked needs b w -> guard_ok needs w.
Proof. intros [H _]. exact H. Qed.

Lemma locked_sem_operation b op :
  op = LOCK \/ op = UNLOCK ->
  hoare (locked needs b) (sem_operation E op)
        (fun _ => locked needs (if op =? LOCK then true else false)) (guard_ok needs).
Proof.
  intros Hop w Hw. apply wp_sem_operation.
  - intros _. apply (locked_guarded b), (stable_locked b), Hw.
  - intros _ _.
    assert (Hl : lock_step b (EvSemop op true) =
                 if op =? LOCK then true else false).
    { simpl. destruct Hop as [-> | ->]; reflexivity. }
    rewrite <- Hl. apply locked_log.
    + intros Hn. apply Hneeds in Hn. discriminate.
    + apply (stable_locked b), Hw.
  - intros _ Hf. rewrite Hsem in Hf. discriminate.
Qed.

Lemma locked_access f :
  hoare (locked needs true) (shm_read E f) (fun _ => locked needs true) (guard_ok needs).
Proof.
  intros w Hw. apply wp_shm_read.
  - intros _. apply (locked_guarded true), (stable_locked true), Hw.
  - intros _. destruct (load (shm (tick E w)) f) as [v|].
    + apply (locked_log true (EvShmRead f v)); [auto|].
      apply (stable_locked true), Hw.
    + apply (locked_guarded true), (stable_locked true), Hw.
Qed.

Lemma locked_write f v :
  hoare (locked needs true) (shm_write E f v) (fun _ => locked needs true) (guard_ok needs).
Proof.
  intros w Hw. apply wp_shm_write.
  - intros _. apply (locked_guarded true), (stable_locked true), Hw.
  - intros _. destruct (store (shm (tick E w)) f v) as [g|].
    + apply (locked_log true (EvShmWrite f v)
               (mk_world g (trace w) (S (clock w)) (rng w) (handler w)));
        [auto|exact Hw].
    + apply (locked_guarded true), (stable_locked true), Hw.
Qed.

Lemma locked_kept {A} (m : Proc A) b :
  preserves (locked needs b) m ->
  hoare (locked needs b) m (fun _ => locked needs b) (guard_ok needs).
Proof. intros H. apply hoare_kept; [exact H | apply locked_guarded]. Qed.

Lemma locked_tick b w : locked needs b w -> guard_ok needs (tick E w).
Proof. intros H. apply (locked_guarded b), (stable_locked b), H. Qed.

(** ** The clients *)

Lemma locked_client_iteration nr l :
  hoare (locked needs false) (client_iteration E nr l)
        (fun _ => locked needs false) (guard_ok needs).
Proof.
  pose proof (stable_locked false) as Hs.
  unfold client_iteration. eapply hoare_bind.
  { apply locked_kept. eapply stable_random_sleep; [exact Hs|].
    apply quiet_event; auto. }
  intros ?. eapply hoare_bind.
  { apply locked_kept. eapply stable_msgsnd; [exact Hs|].
    intros ok'. apply quiet_event; auto. }
  intros [|].
  - eapply hoare_bind; [apply (locked_sem_operation false LOCK); auto|].
    intros ?. eapply hoare_bind.
    { apply hoare_via; [apply locked_access | apply locked_tick]. }
    intros actual. eapply hoare_bind;
      [apply (locked_sem_operation true UNLOCK); auto|].
    intros ?. apply hoare_ret. auto.
  - eapply hoare_bind.
    { apply locked_kept. eapply stable_perror; [exact Hs|].
      apply quiet_event; auto. }
    intros ?. apply hoare_ret. auto.
Qed.

Lemma locked_client_loop n nr l :
  hoare (locked needs false) (client_loop E n nr l)
        (fun _ => locked needs false) (guard_ok needs).
Proof.
  revert l. induction n as [|n IH]; intros l; simpl.
  - apply hoare_ret. auto.
  - eapply hoare_bind; [apply locked_client_iteration|]. intros l'. apply IH.
Qed.

Lemma locked_client_process i :
  hoare (locked needs false) (client_process E i)
        (fun _ => locked needs false) (guard_ok needs).
Proof.
  pose proof (stable_locked false) as Hs.
  assert (Hu : forall e, (forall h, lock_step h e = h) -> is_access e = false ->
                         unguarded needs e)
    by (intros e H1 H2; apply quiet_event; assumption).
  unfold client_process, client_register, client_run, client_code, getpid.
  apply (hoare_bind _ _ _ (fun _ => locked needs false)).
  { eapply hoare_bind; [apply (locked_sem_operation false LOCK); auto|].
    intros ?. apply hoare_bind_ret.
    eapply hoare_bind; [apply locked_write|].
    intros ?. eapply hoare_bind;
      [apply (locked_sem_operation true UNLOCK); auto|].
    intros ?. apply hoare_ret. auto. }
  intros ?. eapply hoare_bind.
  { apply locked_kept. eapply stable_random_sleep; [exact Hs|].
    apply Hu; auto. }
  intros ?. apply (hoare_bind _ _ _ (fun _ => locked needs false));
    [|intros ?; apply hoare_stop, locked_guarded].
  apply hoare_bind_ret. eapply hoare_bind.
  { apply locked_kept. eapply stable_printf; [exact Hs|]. apply Hu; auto. }
  intros ?. eapply hoare_bind.
  { apply locked_kept. eapply stable_sigaction; [exact Hs|]. apply Hu; auto. }
  intros ok'. eapply hoare_bind.
  { instantiate (1 := fun _ => locked needs false). destruct ok'.
    - apply hoare_ret. auto.
    - apply locked_kept. eapply stable_perror; [exact Hs|]. apply Hu; auto. }
  intros ?. eapply hoare_bind.
  { instantiate (1 := fun _ => locked needs false).
    destruct (lt_0 E (game_main E)); [|apply hoare_ret; auto].
    eapply hoare_bind.
    - apply locked_kept. eapply stable_perror; [exact Hs|]. apply Hu; auto.
    - intros ?. apply hoare_stop, locked_guarded. }
  intros ?. eapply hoare_bind; [apply locked_client_loop|].
  intros ?. apply locked_kept. eapply stable_printf; [exact Hs|].
  apply Hu; auto.
Qed.

End Lock.

(** ** The watchdog: its stores *)

Section LockWatchdog.

Variable E : env.
Hypothesis Hsem : semop_succeeds E.

Lemma writes_are_accesses e : is_write e = true -> is_access e = true.
Proof. destruct e; auto. Qed.

Lemma no_write e :
  is_write e = false -> (forall h, lock_step h e = h) -> unguarded is_write e.
Proof. intros H1 H2. split; assumption. Qed.

Lemma locked_watchdog_iteration r l :
  hoare (locked is_write false) (watchdog_iteration E r l)
        (fun _ => locked is_write false) (guard_ok is_write).
Proof.
  pose proof (stable_locked E is_write false) as Hf.
  pose proof (stable_locked E is_write true) as Ht.
  eapply hoare_weaken;
    [| | |apply (hoare_watchdog_iteration E
                  (locked is_write false) (locked is_write true)
                  (locked is_write true) (locked is_write true)
                  (locked is_write false) (fun _ => locked is_write true)
                  (guard_ok is_write))].
  - auto.
  - intros l' w Hw. destruct r as [|data]; [contradiction|].
    destruct (scan_return (sscanf_d data) <? 0); exact Hw.
  - auto.
  - intros s. apply locked_kept. eapply stable_printf; [exact Hf|].
    apply no_write; auto.
  - apply locked_guarded.
  - intros rd. apply locked_guarded.
  - apply (locked_tick E is_write true).
  - apply (locked_tick E is_write true).
  - intros rd. apply (locked_tick E is_write true).
  - apply (locked_sem_operation E is_write writes_are_accesses Hsem false LOCK).
    auto.
  - intros v. apply locked_write.
  - apply locked_kept. eapply stable_shm_read; [exact Ht|].
    intros v. apply no_write; auto.
  - intros rd. apply locked_write.
  - apply (locked_sem_operation E is_write writes_are_accesses Hsem true UNLOCK).
    auto.
  - intros r'. apply locked_kept. eapply stable_msgrcv; [exact Hf|].
    apply no_write; auto.
  - intros s. apply locked_kept. eapply stable_perror; [exact Hf|].
    apply no_write; auto.
Qed.

Lemma locked_watchdog_test l :
  hoare (locked is_write false) (watchdog_test E l)
        (fun _ => locked is_write false) (guard_ok is_write).
Proof.
  pose proof (stable_locked E is_write false) as Hf.
  unfold watchdog_test. destruct (wd_winner l =? -1).
  - eapply hoare_bind.
    + apply locked_kept. eapply stable_via; [exact Hf|].
      eapply stable_shm_read; [exact Hf|].
      intros v. apply no_write; auto.
    + intros rd. apply hoare_ret. auto.
  - apply hoare_ret. auto.
Qed.

Lemma locked_watchdog_loop inbox :
  forall l, hoare (locked is_write false) (watchdog_loop E inbox l)
                  (fun _ => locked is_write false) (guard_ok is_write).
Proof.
  pose proof (stable_locked E is_write false) as Hf.
  induction inbox as [|r inbox IH]; intros l; simpl.
  - apply locked_kept. apply preserves_bind.
    + eapply stable_sched; exact Hf.
    + intros _. eapply stable_block; exact Hf.
  - eapply hoare_bind; [apply locked_watchdog_iteration|].
    intros l'. eapply hoare_bind; [apply locked_watchdog_test|].
    intros [|]; [apply IH | apply hoare_ret; auto].
Qed.

Lemma locked_watchdog_process inbox :
  hoare (locked is_write false) (watchdog_process E inbox)
        (fun _ => locked is_write false) (guard_ok is_write).
Proof.
  pose proof (stable_locked E is_write false) as Hf.
  unfold watchdog_process, watchdog_code, getpid.
  apply (hoare_bind _ _ _ (fun _ => locked is_write false));
    [|intros ?; apply hoare_stop, locked_guarded].
  apply hoare_bind_ret. eapply hoare_bind.
  { apply locked_kept. eapply stable_printf; [exact Hf|]. apply no_write; auto. }
  intros ?. destruct (lt_0 E (watchdog_client E)).
  { apply locked_kept. apply preserves_bind.
    - eapply stable_perror; [exact Hf|]. apply no_write; auto.
    - intros _. apply preserves_ret. }
  eapply hoare_bind; [apply locked_watchdog_loop|].
  intros l. apply locked_kept. apply preserves_bind.
  - eapply stable_printf; [exact Hf|]. apply no_write; auto.
  - intros _. apply preserves_for_each. intros i. apply preserves_bind.
    + eapply stable_via; [exact Hf|].
      eapply stable_shm_read; [exact Hf|]. intros v. apply no_write; auto.
    + intros p. eapply stable_kill; [exact Hf|]. apply no_write; auto.
Qed.

End LockWatchdog.

(** * The semaphore helper and the clients: main results *)

(** C2, as the code has it.  When [semop] fails and no signal arrives,
    [sem_operation] reports the failure with [perror] and returns -1 to its
    caller; it does not end the process.  Every caller has the form
    [sem_operation op ;; k], discarding the value, and so goes on with [k]:
    the process continues past the failed acquire or release.  Whatever the
    environment, the only way a process stops inside [sem_operation] is the
    arrival of SIGUSR1, never an exit with a failure status. *)
Theorem sem_operation_failure_is_ignored (E : env) (op : Z) (w : world) :
  quiet E -> semop_ok E (clock w) = false ->
  let w' := log (EvPerror "semop")
                (tick E (log (EvSemop op false) (tick E w))) in
  sem_operation E op w = Ret (-1) w' /\
  (forall B (k : Proc B), (sem_operation E op ;; k) w = k w') /\
  (forall E' h w1, sem_operation E' op w = Stop h w1 -> h <> Exit EXIT_FAILURE).
Proof.
  intros HQ Hf w'. pose proof (sem_operation_failed E op w HQ Hf) as Heq.
  split; [exact Heq|]. split.
  - intros B k. unfold bind. rewrite Heq. reflexivity.
  - intros E' h w1 Hs. rewrite (sem_operation_stops E' op w h w1 Hs).
    unfold sig_halt. destruct (handler w1); discriminate.
Qed.

Lemma sem_operation_failure_is_ignored_witness :
  sem_operation nosem_env LOCK (init_world init_game) =
  Ret (-1) (mk_world init_game [EvSemop LOCK false; EvPerror "semop"] 2 1 false).
Proof.
  exact (proj1 (sem_operation_failure_is_ignored nosem_env LOCK
                  (init_world init_game) eq_refl eq_refl)).
Defined.

(** C2 as stated fails: with every [semop] failing, the registration of
    client 3 neither exits nor stops; it stores the pid without holding the
    lock and returns. *)
Lemma failed_semop_does_not_exit :
  semop_ok nosem_env 0 = false /\
  client_register nosem_env 3 (init_world init_game) =
  Ret tt (mk_world
            (mk_game 0 0 [0; 0; 0; 4242; 0; 0; 0; 0; 0; 0; 0; 0])
            [EvSemop LOCK false; EvPerror "semop";
             EvShmWrite (Fclientpids 3) 4242;
             EvSemop UNLOCK false; EvPerror "semop"]
            5 1 false).
Proof. split; reflexivity. Qed.



(** C8.  Once a client is registered, whatever the environment does and
    however the client ends, it only does what [reporting_event] lists (no
    write to the segment among it) and the segment is at the end what the
    other processes alone made of it.  Over the whole client process the
    one write is that of its pid into its own slot; with the other
    processes at rest, [frontrunner], [runs_done] and every other slot end
    as they began.  And when no signal arrives, a turn of the loop whose
    send succeeds reads [frontrunner] from the attached segment, between
    [sem_operation(LOCK)] and [sem_operation(UNLOCK)], into
    [actual_frontrunner]; through the pointer -1 of a failed attachment
    that read ends the process, after the [sem_operation(LOCK)]. *)
Theorem client_writes_only_its_slot (E : env) (i : Z) :
  (forall w, emitted (reporting_event E i) w (world_of (client_run E i w)) /\
             unwritten E w (world_of (client_run E i w))) /\
  (forall w, emitted (client_event E i) w (world_of (client_process E i w))) /\
  (alone E ->
   forall w, same_but_slot i w (world_of (client_process E i w))) /\
  (quiet E -> attached E ->
   forall l w, msgsnd_ok E (S (clock w)) = true ->
     let w1 := sem_world E LOCK (sent E i true w) in
     exists l',
       client_iteration E i l w
         = Ret l' (sem_world E UNLOCK (leader_read E w1)) /\
       cl_actual_frontrunner l' = leader_seen E w1) /\
  (quiet E -> shmat_ok E = false ->
   forall l w, msgsnd_ok E (S (clock w)) = true ->
     client_iteration E i l w =
     Stop (Undefined BadPointer)
          (tick E (sem_world E LOCK (sent E i true w)))).
Proof.
  repeat split.
  9:{ intros HQ Hf l w Hok.
      apply (client_iteration_unattached E HQ i l w Hf Hok). }
  - apply (stable_client_run E (reporting_event E i) _ i
             (stable_emitted E _ w) (fun e H => H) w (emitted_refl _ w)).
  - apply (stable_client_run E (fun _ => True) _ i
             (stable_unwritten E _ w) (fun _ _ => Logic.I) w
             (unwritten_refl E w)).
  - apply (stable_client_run E (fun _ => True) _ i
             (stable_unwritten E _ w) (fun _ _ => Logic.I) w
             (unwritten_refl E w)).
  - intros w. apply (emitted_client_process E _ w i (fun e H => H) w),
      emitted_refl.
  - apply (same_but_slot_client_process E H i w w). repeat split.
  - apply (same_but_slot_client_process E H i w w). repeat split.
  - apply (same_but_slot_client_process E H i w w). repeat split.
  - intros HQ HS l w Hok w1. eexists. split.
    + apply (client_iteration_sent E HQ HS i l w Hok).
    + reflexivity.
Qed.

Lemma client_writes_only_its_slot_witness :
  same_but_slot 3 (init_world init_game)
    (world_of (client_process calm_env 3 (init_world init_game))) /\
  (let w1 := sem_world calm_env LOCK (sent calm_env 3 true (init_world init_game)) in
   exists l',
     client_iteration calm_env 3 (mk_cl 0 0) (init_world init_game)
       = Ret l' (sem_world calm_env UNLOCK (leader_read calm_env w1)) /\
     cl_actual_frontrunner l' = leader_seen calm_env w1).
Proof.
  split.
  - exact (proj1 (proj2 (proj2 (client_writes_only_its_slot calm_env 3)))
                 (fun _ _ => eq_refl) (init_world init_game)).
  - exact (proj1 (proj2 (proj2 (proj2 (client_writes_only_its_slot calm_env 3))))
                 eq_refl eq_refl (mk_cl 0 0) (init_world init_game) eq_refl).
Defined.

(** C10.  [random_sleep] seeds the generator anew with [getpid() % 1234] on
    every call, so a call that returns has slept [sleep_usec E], whatever
    the state of the generator before: two calls in one process sleep
    equally long.  Every sleep in the life of a client process has that
    length, and the length is the same for two processes with the same pid
    and the same C library. *)
Theorem random_sleep_delay_fixed_by_pid (E : env) :
  (forall w w', random_sleep E w = Ret tt w' ->
                trace w' = trace w ++ [EvUsleep (sleep_usec E)]) /\
  (forall i w, emitted (sleeps_only (sleep_usec E)) w
                       (world_of (client_process E i w))) /\
  (forall E', pid E' = pid E -> prng_init E' = prng_init E ->
              prng_next E' = prng_next E -> sleep_usec E' = sleep_usec E).
Proof.
  split; [|split].
  - intros w w'. rewrite random_sleep_eq.
    destruct (signal_due E w); [discriminate|]. intros [= <-]. reflexivity.
  - intros i w. apply (emitted_client_process E _ w i); [|apply emitted_refl].
    intros [] He; simpl in *; auto.
  - intros E' Hp Hi Hn. unfold sleep_usec. rewrite Hp, Hi, Hn. reflexivity.
Qed.

Lemma random_sleep_delay_fixed_by_pid_witness :
  trace (world_of (random_sleep calm_env (init_world init_game))) =
  [EvUsleep (sleep_usec calm_env)] /\ sleep_usec calm_env = 29.
Proof.
  split.
  - exact (proj1 (random_sleep_delay_fixed_by_pid calm_env)
                 (init_world init_game) _ eq_refl).
  - reflexivity.
Defined.

(** * The watchdog: main results *)




(** C4.  Each time the loop starts its body no winner is recorded.  The
    iteration that follows records one exactly when, after it, the
    frontrunner's score is [MSGNR] and the message was counted for the
    frontrunner; the winner is then that client, no other client has
    reached [MSGNR], and the loop returns at once with these locals,
    whatever messages are still queued: nothing can record a winner a
    second time or change it.  And a message of a client [nr], once
    counted, has added one to the score of [nr] and has recorded [nr] as
    the winner if that score was [MSGNR - 1] before, and nobody if not. *)
Theorem winner_recorded_once
    (E : env) (w0 : world) (ms : list rcv) (l : wd_locals) (w : world) :
  wd_at E wd_init w0 ms l w ->
  wd_winner l = -1 /\
  (forall r l' w',
     watchdog_iteration E r l w = Ret l' w' ->
     (wd_winner l' <> -1 <->
      score_of (wd_scores l') (wd_frontrunner l') = MSGNR /\
      wd_client_nr l' = Some (wd_frontrunner l')) /\
     (wd_winner l' <> -1 ->
      wd_winner l' = wd_frontrunner l' /\
      (forall j, 0 <= j < MAXCLIENTS -> j <> wd_winner l' ->
                 score_of (wd_scores l') j < MSGNR) /\
      forall rest, watchdog_loop E (r :: rest) l w = Ret l' w')) /\
  (forall nr l' w',
     0 <= nr < MAXCLIENTS ->
     watchdog_iteration E (RcvMsg (client_message nr)) l w = Ret l' w' ->
     score_of (wd_scores l') nr = score_of (wd_scores l) nr + 1 /\
     wd_winner l' =
       if score_of (wd_scores l) nr =? MSGNR - 1 then nr else -1).
Proof.
  intros Hat. pose proof (wd_at_ok E _ _ _ _ _ wd_init_ok Hat) as Hok.
  split; [apply Hok|]. split.
  - intros r l' w' Hit.
    assert (Hlow : forall l, wd_ok l ->
              score_of (wd_scores l) (wd_frontrunner l) < MSGNR).
    { intros l1 (Hlen & Hall & Hfr & _).
      apply (score_of_Forall (fun s => 0 <= s < MSGNR)); assumption. }
    destruct (iteration_from_ok E r l w l' w' Hok Hit)
      as (data & -> & [[_ ->]|(_ & nr & Hnr & _ & _ & _ & Hno & Hyes)]).
    + split.
      * split.
        -- intros Hw. destruct Hw. apply Hok.
        -- intros [Hs _]. specialize (Hlow l Hok). lia.
      * intros Hw. destruct Hw. apply Hok.
    + split.
      * split.
        -- intros Hw. destruct (Hyes Hw) as (_ & <- & Hs & _). auto.
        -- intros [Hs _] Hw. specialize (Hlow l' (Hno Hw)). lia.
      * intros Hw. destruct (Hyes Hw) as (H1 & H2 & H3 & H4).
        split; [exact H1|]. split.
        -- intros j Hj Hne. apply H4; [exact Hj|]. rewrite H2, <- H1. exact Hne.
        -- intros rest. eapply watchdog_loop_last; [exact Hit|].
           apply watchdog_test_winner, Hw.
  - intros nr l' w' Hnr Hit.
    pose proof (sscanf_client_message nr Hnr) as Hscan. split.
    + destruct (message_counted E l w _ nr l' w' Hok Hscan Hit)
        as (_ & _ & Hs & _).
      rewrite Hs. apply score_of_insert_eq. destruct Hok as (Hlen & _).
      rewrite Hlen. unfold MAXCLIENTS in *. lia.
    + exact (message_decides_winner E l w _ nr l' w' Hok Hscan Hit).
Qed.

(** The race of client 0 alone, the twelve clients having registered, from
    the segment as [main] made it: after its first 99 messages the loop
    stands with 99 points for client 0 and no winner.  One more message of
    client 0 records it as the winner, and the loop returns; a message of
    client 1 instead would record nobody. *)
Lemma winner_recorded_once_witness :
  let E := registered_env in
  let w0 := at_loop E (init_world init_game) in
  let ms := replicate 99 (RcvMsg (client_message 0)) in
  let l := mk_wd (99 :: replicate 11 0) 0 (-1) (Some 0) in
  let w := match wd_run E wd_init w0 ms with
           | Some (_, w) => w
           | None => w0
           end in
  let l0 := mk_wd (100 :: replicate 11 0) 0 0 (Some 0) in
  let v0 := world_of (watchdog_iteration E (RcvMsg (client_message 0)) l w) in
  let l1 := mk_wd (99 :: 1 :: replicate 10 0) 0 (-1) (Some 1) in
  let v1 := world_of (watchdog_iteration E (RcvMsg (client_message 1)) l w) in
  wd_at E wd_init w0 ms l w /\
  wd_winner l = -1 /\
  watchdog_iteration E (RcvMsg (client_message 0)) l w = Ret l0 v0 /\
  wd_winner l0 = 0 /\
  (forall rest,
     watchdog_loop E (RcvMsg (client_message 0) :: rest) l w = Ret l0 v0) /\
  watchdog_iteration E (RcvMsg (client_message 1)) l w = Ret l1 v1 /\
  wd_winner l1 = -1.
Proof.
  intros E w0 ms l w l0 v0 l1 v1.
  assert (Hat : wd_at E wd_init w0 ms l w)
    by (apply wd_run_at; vm_compute; reflexivity).
  assert (H0 : watchdog_iteration E (RcvMsg (client_message 0)) l w
               = Ret l0 v0) by (vm_compute; reflexivity).
  assert (H1 : watchdog_iteration E (RcvMsg (client_message 1)) l w
               = Ret l1 v1) by (vm_compute; reflexivity).
  destruct (winner_recorded_once E w0 ms l w Hat) as (Hw & Hany & Hcl).
  split; [exact Hat|]. split; [exact Hw|]. split; [exact H0|].
  assert (Hrec : wd_winner l0 = 0).
  { apply (proj2 (Hcl 0 l0 v0 ltac:(unfold MAXCLIENTS; lia) H0)). }
  split; [exact Hrec|]. split.
  - apply (proj2 (Hany _ l0 v0 H0)). rewrite Hrec. discriminate.
  - split; [exact H1|].
    apply (proj2 (Hcl 1 l1 v1 ltac:(unfold MAXCLIENTS; lia) H1)).
Defined.

(** C9, as the code has it.  The watchdog uses the number [sscanf] stored in
    [client_nr] as a subscript of [scores] without any check: a number
    outside [0, MAXCLIENTS) makes the access [scores[client_nr]++] undefined.
    Fed only with deliveries that name clients, the loop never makes an
    undefined access to [scores] (what is left is the overflow of a
    counter, and the use of the pointer of a failed attachment).  The guard
    compares the value of [sscanf] with 0: it fires exactly for blank data,
    on which [sscanf] answers EOF, and that message is skipped with a
    [perror]; on data that is not blank and does not start with a number
    [sscanf] answers 0, the message is not skipped and is counted for the
    value [client_nr] held before, an uninitialised one if this is the
    first message. *)
Theorem score_subscript_is_unchecked (E : env) :
  (quiet E ->
   forall l w data n,
     length (wd_scores l) = Z.to_nat MAXCLIENTS ->
     sscanf_d data = ScanInt n -> ~ (0 <= n < MAXCLIENTS) ->
     watchdog_iteration E (RcvMsg data) l w =
     Stop (Undefined (OutOfBounds n)) (log (EvMsgrcv (RcvMsg data)) (tick E w))) /\
  (forall inbox w h w',
     Forall in_range inbox ->
     watchdog_loop E inbox wd_init w = Stop h w' ->
     forall f, h = Undefined f ->
       f = IntOverflow \/ (f = BadPointer /\ shmat_ok E = false)) /\
  (forall data,
     scan_return (sscanf_d data) < 0 <-> skip_spaces data = EmptyString) /\
  (forall l w data,
     sscanf_d data = ScanEOF ->
     watchdog_iteration E (RcvMsg data) l w =
     (msgrcv E (RcvMsg data) ;; perror E "[watchdog] sscanf" ;; ret l) w) /\
  (forall l w data,
     sscanf_d data = ScanNoMatch ->
     watchdog_iteration E (RcvMsg data) l w =
     (msgrcv E (RcvMsg data) ;; watchdog_score E l) w) /\
  (quiet E ->
   forall l w data,
     sscanf_d data = ScanNoMatch -> wd_client_nr l = None ->
     watchdog_iteration E (RcvMsg data) l w =
     Stop (Undefined UninitRead) (log (EvMsgrcv (RcvMsg data)) (tick E w))).
Proof.
  split; [|split; [|split; [|split; [|split]]]].
  - intros HQ l w data n. apply iteration_out_of_range, HQ.
  - intros inbox w h w' Hin Hloop.
    pose proof (yields_inv _ _ _ w (loop_in_range E inbox Hin wd_init wd_init_ok))
      as Hy.
    rewrite Hloop in Hy. exact Hy.
  - apply sscanf_d_eof.
  - intros l w data. apply iteration_eof.
  - intros l w data. apply iteration_nomatch.
  - intros HQ l w data. apply iteration_uninit, HQ.
Qed.

Lemma score_subscript_is_unchecked_witness :
  watchdog_iteration calm_env (RcvMsg "12") wd_init (init_world init_game) =
  Stop (Undefined (OutOfBounds 12))
       (log (EvMsgrcv (RcvMsg "12")) (tick calm_env (init_world init_game))) /\
  watchdog_iteration calm_env (RcvMsg " ") wd_init (init_world init_game) =
  (msgrcv calm_env (RcvMsg " ") ;; perror calm_env "[watchdog] sscanf" ;;
   ret wd_init) (init_world init_game) /\
  watchdog_iteration calm_env (RcvMsg "x") wd_init (init_world init_game) =
  Stop (Undefined UninitRead)
       (log (EvMsgrcv (RcvMsg "x")) (tick calm_env (init_world init_game))).
Proof.
  pose proof (score_subscript_is_unchecked calm_env) as (Ha & _ & _ & Hd & _ & Hf).
  split; [|split].
  - apply (Ha eq_refl wd_init (init_world init_game) "12"%string 12).
    + reflexivity.
    + reflexivity.
    + unfold MAXCLIENTS. lia.
  - apply (Hd wd_init (init_world init_game) " "%string). reflexivity.
  - apply (Hf eq_refl wd_init (init_world init_game) "x"%string); reflexivity.
Defined.

(** C9 as stated fails on one point: a message with blank data holds no
    number, and it is skipped.  Here the loop has counted a message of
    client 1; the empty message that follows is received, reported with
    [perror], and counted for nobody: scores and segment stay as they
    were. *)
Lemma blank_message_is_skipped :
  let l1 := mk_wd [0; 1; 0; 0; 0; 0; 0; 0; 0; 0; 0; 0] 1 (-1) (Some 1) in
  let w1 := world_of (watchdog_iteration calm_env (RcvMsg "1") wd_init
                        (init_world init_game)) in
  sscanf_d "" = ScanEOF /\
  watchdog_iteration calm_env (RcvMsg "1") wd_init (init_world init_game)
    = Ret l1 w1 /\
  watchdog_iteration calm_env (RcvMsg "") l1 w1 =
  Ret l1 (mk_world (shm w1)
                   (trace w1 ++ [EvMsgrcv (RcvMsg ""); EvPerror "[watchdog] sscanf"])
                   (S (S (clock w1))) (rng w1) (handler w1)).
Proof. repeat split; vm_compute; reflexivity. Qed.

(** C5.  The loop test, when it returns, answers "stop" exactly with a
    winner recorded or [runs_done] at [MAXRUNS] or beyond.  The loop
    returns exactly when the queue holds a first message after which the
    test answers "stop", the test having answered "go on" after every
    message before it.  Once the loop has returned, with a winner or with
    [winner] still -1, the process never ends with EXIT_FAILURE; and when
    no signal comes from outside and the twelve slots hold pids of other
    processes, the watchdog prints the result, sends SIGUSR1 to each of
    them and exits with EXIT_SUCCESS. *)
Theorem loop_ends_on_winner_or_bound (E : env) :
  (forall l w b w',
     watchdog_test E l w = Ret b w' ->
     (b = false <-> wd_winner l <> -1 \/ MAXRUNS <= runs_done (shm w'))) /\
  (forall inbox l0 w0 l' w',
     watchdog_loop E inbox l0 w0 = Ret l' w' <->
     exists ms r rest l w w1,
       inbox = ms ++ r :: rest /\ wd_at E l0 w0 ms l w /\
       watchdog_iteration E r l w = Ret l' w1 /\
       watchdog_test E l' w1 = Ret false w') /\
  (forall inbox w l' w' h w'',
     watchdog_loop E inbox wd_init
       (log (EvPrintf ("[watchdog] starting with pid " ++ dec (pid E) ++ nl))
            (tick E w)) = Ret l' w' ->
     watchdog_process E inbox w = Stop h w'' ->
     h <> Exit EXIT_FAILURE) /\
  (quiet E -> attached E -> pids_kept E -> keeps_strangers E ->
   forall inbox w l' w',
     watchdog_loop E inbox wd_init
       (log (EvPrintf ("[watchdog] starting with pid " ++ dec (pid E) ++ nl))
            (tick E w)) = Ret l' w' ->
     pids_wf w' -> strangers E w' ->
     exists w'' evs,
       watchdog_process E inbox w = Stop (Exit EXIT_SUCCESS) w'' /\
       trace w'' =
         trace w' ++
         EvPrintf ("[watchdog] finished, winner: client "
                   ++ dec (wd_winner l') ++ nl) :: evs /\
       kills evs = Z.to_nat MAXCLIENTS).
Proof.
  split; [|split; [|split]].
  - apply watchdog_test_spec.
  - apply watchdog_loop_returns_iff.
  - apply watchdog_process_no_failure.
  - intros HQ HS HP HK inbox w l' w'.
    apply watchdog_process_after_loop; assumption.
Qed.

(** The race of client 0 alone, in the segment as [main] made it, the
    twelve clients having registered: the loop returns at the hundredth
    message with client 0 as the winner, and the watchdog ends as said,
    having sent SIGUSR1 to the twelve clients. *)
Lemma loop_ends_on_winner_or_bound_witness :
  let E := registered_env in
  let inbox := replicate 100 (RcvMsg (client_message 0)) in
  let w := init_world init_game in
  let w1 := log (EvPrintf ("[watchdog] starting with pid "
                           ++ dec (pid E) ++ nl)) (tick E w) in
  let l' := mk_wd (100 :: replicate 11 0) 0 0 (Some 0) in
  let w' := world_of (watchdog_loop E inbox wd_init w1) in
  watchdog_loop E inbox wd_init w1 = Ret l' w' /\
  runs_done (shm w') = 100 /\
  exists w'' evs,
    watchdog_process E inbox w = Stop (Exit EXIT_SUCCESS) w'' /\
    trace w'' =
      trace w' ++
      EvPrintf ("[watchdog] finished, winner: client "
                ++ dec (wd_winner l') ++ nl) :: evs /\
    kills evs = Z.to_nat MAXCLIENTS.
Proof.
  intros E inbox w w1 l' w'.
  assert (Hloop : watchdog_loop E inbox wd_init w1 = Ret l' w')
    by (vm_compute; reflexivity).
  split; [exact Hloop|]. split; [vm_compute; reflexivity|].
  apply (proj2 (proj2 (proj2 (loop_ends_on_winner_or_bound E)))
           eq_refl eq_refl registered_env_pids_kept
           registered_env_keeps_strangers inbox w l' w' Hloop).
  - vm_compute. reflexivity.
  - vm_compute. reflexivity.
Defined.

(** C6.  [main] leaves 0 in [runs_done], and no process but the watchdog
    stores into it.  Then each time the loop starts its body, having
    received only messages sent by clients, [runs_done] is the number of
    messages received so far, the watchdog having stored 1, 2, ... into it
    in turn, and is below [MAXRUNS]; and wherever the watchdog process
    stands or ends, for any queue, [runs_done] is the number of stores made,
    each one more than the last, and is at most [MAXRUNS]. *)
Theorem runs_done_counts_up (E : env) :
  keeps_runs_done E ->
  runs_done init_game = 0 /\
  (forall w0 ms l w,
     tally 0 w0 -> Forall sent_by_client ms -> wd_at E wd_init w0 ms l w ->
     tally (length ms) w /\ Z.of_nat (length ms) < MAXRUNS) /\
  (forall w0 inbox,
     tally 0 w0 -> within_bound (world_of (watchdog_process E inbox w0))).
Proof.
  intros Hkeep. split; [reflexivity|]. split.
  - intros w0 ms l w H0 Hall Hat.
    apply (tally_wd_at E Hkeep _ _ _ _ _ Hat) with (k := 0%nat); auto.
    + eapply Forall_impl; [exact Hall|]. intros r (nr & Hnr & ->).
      exists (client_message nr). split; [reflexivity|].
      rewrite (sscanf_client_message nr Hnr). simpl. lia.
    + unfold MAXRUNS, MSGNR, MAXCLIENTS. lia.
  - intros w0 inbox H0.
    apply (hoare_world_of _ _ _ _ w0 (within_bound_process E Hkeep inbox) H0).
    auto.
Qed.

Lemma runs_done_counts_up_witness :
  (let l1 := mk_wd [0; 1; 0; 0; 0; 0; 0; 0; 0; 0; 0; 0] 1 (-1) (Some 1) in
   let v1 := world_of (watchdog_iteration calm_env (RcvMsg "1") wd_init
                         (init_world init_game)) in
   let w1 := world_of (watchdog_test calm_env l1 v1) in
   tally 1 w1 /\ 1 < MAXRUNS) /\
  within_bound
    (world_of (watchdog_process calm_env [RcvMsg "1"; RcvMsg "0"]
                 (init_world init_game))).
Proof.
  pose proof (runs_done_counts_up calm_env (fun _ _ => eq_refl)) as (_ & H2 & H3).
  split.
  - intros l1 v1 w1.
    apply (H2 (init_world init_game) [RcvMsg "1"] l1 w1).
    + split; reflexivity.
    + repeat constructor. exists 1. split; [unfold MAXCLIENTS; lia|reflexivity].
    + apply (wd_at_next calm_env wd_init (init_world init_game) (RcvMsg "1")
               l1 v1 w1 [] l1 w1);
        [vm_compute; reflexivity | vm_compute; reflexivity | apply wd_at_start].
  - apply H3. split; reflexivity.
Defined.

(** C3, as the code has it.  With the semaphore operations succeeding,
    every store a process makes into the segment after [main]'s
    initialisation, and every read a client makes of it, falls between a
    [sem_operation(LOCK)] and the next [sem_operation(UNLOCK)] of that
    process, hence happens while the process holds the lock.  This holds
    wherever the process stands or stops.  The reads the watchdog makes in
    its loop test and in the broadcast are not covered: they are made
    outside. *)
Theorem stores_are_made_under_the_lock (E : env) :
  semop_succeeds E ->
  (forall inbox w,
     locked is_write false w ->
     guard_ok is_write (world_of (watchdog_process E inbox w))) /\
  (forall i w,
     locked is_access false w ->
     guard_ok is_access (world_of (client_process E i w))).
Proof.
  intros Hsem. split.
  - intros inbox w Hw.
    apply (hoare_world_of _ _ _ _ w (locked_watchdog_process E Hsem inbox) Hw).
    intros _ w'. apply locked_guarded.
  - intros i w Hw.
    apply (hoare_world_of _ _ _ _ w
             (locked_client_process E is_access (fun e H => H) Hsem i) Hw).
    intros _ w'. apply locked_guarded.
Qed.

Lemma stores_are_made_under_the_lock_witness :
  guard_ok is_write
    (world_of (watchdog_process calm_env [RcvMsg "1"] (init_world init_game))) /\
  guard_ok is_access
    (world_of (client_process calm_env 3 (init_world init_game))).
Proof.
  split.
  - apply (proj1 (stores_are_made_under_the_lock calm_env (fun _ => eq_refl))).
    split; reflexivity.
  - apply (proj2 (stores_are_made_under_the_lock calm_env (fun _ => eq_refl))).
    split; reflexivity.
Defined.

(** C3 as stated fails: the watchdog reads [runs_done] in its loop test
    after it has given the lock back.  One message of client 1 is counted;
    the events that follow the release are the read of the test and the
    next, blocked, receive. *)
Lemma watchdog_reads_without_lock :
  let w := world_of (watchdog_process calm_env [RcvMsg "1"]
                       (init_world init_game)) in
  trace w =
    [EvPrintf ("[watchdog] starting with pid 4242" ++ nl);
     EvMsgrcv (RcvMsg "1");
     EvSemop LOCK true;
     EvShmWrite Ffrontrunner 1;
     EvShmRead Fruns_done 0;
     EvShmWrite Fruns_done 1;
     EvSemop UNLOCK true;
     EvShmRead Fruns_done 1] /\
  holds (firstn 7 (trace w)) = false /\
  ~ guard_ok is_access w.
Proof.
  intros w. split; [vm_compute; reflexivity|].
  split; [vm_compute; reflexivity|].
  assert (Hg : guarded is_access false (trace w) = false)
    by (vm_compute; reflexivity).
  unfold guard_ok. rewrite Hg. discriminate.
Qed.

(** * The text of a message: [%d] written and read back *)

Lemma digits_value_pos (d : Decimal.uint) :
  forall p, digits_value (NilEmpty.string_of_uint d) (Z.pos p) =
            Z.pos (Pos.of_uint_acc d p).
Proof.
  induction d; intros p; simpl; try reflexivity;
    change (isdigit _) with true; cbv iota; rewrite <- IHd; f_equal;
    unfold code; simpl; lia.
Qed.

Lemma digits_value_uint (d : Decimal.uint) :
  digits_value (NilEmpty.string_of_uint d) 0 = Z.of_N (Pos.of_uint d).
Proof.
  induction d; simpl; try reflexivity;
    change (isdigit _) with true; cbv iota;
    try (exact IHd); apply digits_value_pos.
Qed.

(** The text [%d] writes for a number that is not negative starts with a
    digit, and its digits have that number as value. *)
Lemma dec_digits (d : Decimal.uint) :
  exists c s, NilZero.string_of_uint d = String c s /\ isdigit c = true /\
              digits_value (String c s) 0 = Z.of_N (Pos.of_uint d).
Proof.
  destruct d;
    try (eexists _, _; split; [reflexivity|]; split; [reflexivity|];
         match goal with
         | |- _ = Z.of_N (Pos.of_uint ?u) =>
             exact (digits_value_uint u)
         end).
Qed.

Lemma scan_number_digits neg c s :
  isdigit c = true ->
  scan_number neg (String c s) =
  let v := if neg then - digits_value (String c s) 0
           else digits_value (String c s) 0 in
  if (INT_MIN <=? v) && (v <=? INT_MAX) then ScanInt v else ScanOverflow.
Proof. intros H. unfold scan_number. rewrite H. reflexivity. Qed.

Lemma digit_is_plain c :
  isdigit c = true ->
  isspace c = false /\ Ascii.eqb c "-" = false /\ Ascii.eqb c "+" = false.
Proof.
  intros H. unfold isdigit in H. apply andb_prop in H as [H1 H2].
  apply Z.leb_le in H1. apply Z.leb_le in H2.
  repeat split.
  - unfold isspace. apply orb_false_intro.
    + apply Z.eqb_neq. lia.
    + apply andb_false_intro2, Z.leb_gt. lia.
  - apply Ascii.eqb_neq. intros ->. unfold code in *. simpl in *. lia.
  - apply Ascii.eqb_neq. intros ->. unfold code in *. simpl in *. lia.
Qed.

Lemma sscanf_dec n :
  INT_MIN <= n <= INT_MAX -> sscanf_d (dec n) = ScanInt n.
Proof.
  intros Hn. unfold dec.
  pose proof (DecimalZ.of_to n) as Hval.
  destruct (Z.to_int n) as [d|d]; simpl in Hval;
    destruct (dec_digits d) as (c & s & Hs & Hc & Hv);
    destruct (digit_is_plain c Hc) as (Hsp & Hm & Hp);
    unfold Z.of_uint in Hval; simpl NilZero.string_of_int; rewrite Hs.
  - unfold sscanf_d. simpl skip_spaces. rewrite Hsp, Hm, Hp.
    rewrite (scan_number_digits false c s Hc). cbv zeta.
    rewrite Hv, Hval.
    replace ((INT_MIN <=? n) && (n <=? INT_MAX)) with true; [reflexivity|].
    symmetry. apply andb_true_intro. split; apply Z.leb_le; lia.
  - unfold sscanf_d. simpl skip_spaces. change (isspace "-") with false.
    cbv iota. change (Ascii.eqb "-" "-") with true. cbv iota.
    rewrite (scan_number_digits true c s Hc). cbv zeta.
    rewrite Hv, Hval.
    replace ((INT_MIN <=? n) && (n <=? INT_MAX)) with true; [reflexivity|].
    symmetry. apply andb_true_intro. split; apply Z.leb_le; lia.
Qed.

(** * The watchdog: what it does and what it leaves alone *)

Section WatchdogEvents.

Variable E : env.
Variables (P : event -> Prop) (w0 : world).
Hypothesis HP : forall e, loop_event e -> P e.

Ltac allowed := try (intros; apply HP; simpl; auto; fail).

Lemma emitted_watchdog_iteration r l :
  hoare (emitted P w0) (watchdog_iteration E r l)
        (fun _ => emitted P w0) (emitted P w0).
Proof.
  pose proof (stable_emitted E P w0) as Hs.
  eapply hoare_weaken;
    [| | |apply (hoare_watchdog_iteration E (emitted P w0) (emitted P w0)
                  (emitted P w0) (emitted P w0) (emitted P w0)
                  (fun _ => emitted P w0) (emitted P w0))]; auto.
  - intros l' w Hw. destruct r as [|data]; [contradiction|].
    destruct (scan_return (sscanf_d data) <? 0); exact Hw.
  - intros s. apply hoare_preserves. eapply stable_printf; [exact Hs|allowed].
  - apply hoare_preserves.
    eapply stable_sem_operation; [exact Hs|allowed|allowed].
  - intros v. apply hoare_preserves, emitted_shm_write. allowed.
  - apply hoare_preserves. eapply stable_shm_read; [exact Hs|allowed].
  - intros rd. apply hoare_preserves, emitted_shm_write. allowed.
  - apply hoare_preserves.
    eapply stable_sem_operation; [exact Hs|allowed|allowed].
  - intros r'. apply hoare_preserves. eapply stable_msgrcv; [exact Hs|allowed].
  - intros s. apply hoare_preserves. eapply stable_perror; [exact Hs|allowed].
Qed.

Lemma emitted_watchdog_test l :
  preserves (emitted P w0) (watchdog_test E l).
Proof.
  pose proof (stable_emitted E P w0) as Hs.
  unfold watchdog_test.
  destruct (wd_winner l =? -1); [|apply preserves_ret].
  apply preserves_bind; [|intros rd; apply preserves_ret].
  eapply stable_via; [exact Hs|].
  eapply stable_shm_read; [exact Hs|allowed].
Qed.

Lemma emitted_watchdog_loop inbox :
  forall l, hoare (emitted P w0) (watchdog_loop E inbox l)
                  (fun _ => emitted P w0) (emitted P w0).
Proof.
  pose proof (stable_emitted E P w0) as Hs.
  induction inbox as [|r inbox IH]; intros l; simpl.
  - apply hoare_preserves, preserves_bind.
    + eapply stable_sched; exact Hs.
    + intros _. eapply stable_block; exact Hs.
  - eapply hoare_bind; [apply emitted_watchdog_iteration|].
    intros l'. apply (hoare_bind _ _ _ (fun _ => emitted P w0)).
    + apply hoare_preserves, emitted_watchdog_test.
    + intros [|]; [apply IH | apply hoare_ret; auto].
Qed.

End WatchdogEvents.

Section WatchdogEnds.

Variable E : env.

Lemma loop_event_watchdog_event e : loop_event e -> watchdog_event e.
Proof. destruct e as [| | |[]|[]| | | | |]; simpl; auto; try contradiction. Qed.

Lemma emitted_watchdog_process P w0 inbox :
  (forall e, watchdog_event e -> P e) ->
  preserves (emitted P w0) (watchdog_process E inbox).
Proof.
  intros HP. pose proof (stable_emitted E P w0) as Hs.
  assert (HL : forall e, loop_event e -> P e)
    by (intros e He; apply HP, loop_event_watchdog_event, He).
  intros w Hw.
  apply (hoare_world_of (watchdog_process E inbox) (emitted P w0)
           (fun _ => emitted P w0) (emitted P w0)); auto.
  unfold watchdog_process, watchdog_code.
  apply (hoare_bind _ _ _ (fun _ => emitted P w0)); [|intros _; apply hoare_stop; auto].
  apply hoare_bind_ret.
  apply (hoare_bind _ _ _ (fun _ => emitted P w0)).
  { apply hoare_preserves. eapply stable_printf; [exact Hs|]. apply HP. exact Logic.I. }
  intros _. destruct (lt_0 E (watchdog_client E)).
  { apply hoare_preserves, preserves_bind; [|intros _; apply preserves_ret].
    eapply stable_perror; [exact Hs|]. apply HP. exact Logic.I. }
  eapply hoare_bind; [apply emitted_watchdog_loop, HL|].
  intros l. apply hoare_preserves. apply preserves_bind.
  { eapply stable_printf; [exact Hs|]. apply HP. exact Logic.I. }
  intros _. apply preserves_for_each. intros i. apply preserves_bind.
  - eapply stable_via; [exact Hs|].
    eapply stable_shm_read; [exact Hs|]. intros v. apply HP. exact Logic.I.
  - intros p. eapply stable_kill; [exact Hs|]. apply HP. reflexivity.
Qed.

(** ** The ways the watchdog stops *)

Lemma iteration_exit_failure r l w w' :
  watchdog_iteration E r l w = Stop (Exit EXIT_FAILURE) w' ->
  r = RcvErr /\
  w' = log (EvPerror "[watchdog] msgrcv")
           (tick E (log (EvMsgrcv RcvErr) (tick E w))).
Proof.
  intros H.
  pose proof (yields_inv _ _ _ w (yields_watchdog_iteration E r l)) as Hy.
  rewrite H in Hy.
  destruct Hy as [Hs|[[-> _]|(data & _ & [[_ Hf]|[_ Hs]])]].
  - destruct (not_signalled_failure Hs).
  - split; [reflexivity|]. revert H.
    unfold watchdog_iteration. cbv [bind msgrcv perror sched emit ret].
    destruct (signal_due E w).
    { rewrite deliver_eq. intros [= Hh _]. destruct (sig_halt_not_failure _ Hh). }
    destruct (signal_due E (log (EvMsgrcv RcvErr) (tick E w))).
    { rewrite deliver_eq. intros [= Hh _]. destruct (sig_halt_not_failure _ Hh). }
    unfold exit, stop. intros [= <-]. reflexivity.
  - discriminate.
  - destruct Hs as [Hs|[Hs|[[_ Hs]|[(nr & _ & Hs & _)|(nr & s & _ & _ & Hs & _)]]]];
      try discriminate.
    destruct (not_cut_short_failure E Hs).
Qed.

Lemma loop_exit_failure inbox :
  forall l w w',
    watchdog_loop E inbox l w = Stop (Exit EXIT_FAILURE) w' ->
    exists evs,
      trace w' = trace w ++ evs ++
                 [EvMsgrcv RcvErr; EvPerror "[watchdog] msgrcv"] /\
      Forall loop_event evs.
Proof.
  induction inbox as [|r inbox IH]; intros l w w'; simpl.
  - unfold bind, sched. destruct (signal_due E w).
    { rewrite deliver_eq. intros [= Hh _]. destruct (sig_halt_not_failure _ Hh). }
    unfold block. destruct (sigusr1_at E) as [n|]; [|discriminate].
    destruct (clock (tick E w) <=? n)%nat; [|discriminate].
    rewrite deliver_eq. intros [= Hh _]. destruct (sig_halt_not_failure _ Hh).
  - unfold bind at 1. destruct (watchdog_iteration E r l w) as [l1 w1|h w1] eqn:Hit.
    + pose proof (hoare_ret_eq _ _ _ _ _ _ _
                    (emitted_watchdog_iteration E loop_event w (fun e H => H) r l)
                    (emitted_refl _ w) Hit) as Hem.
      pose proof (emitted_watchdog_test E loop_event w (fun e H => H) l1 w1 Hem)
        as Hem'.
      unfold bind at 1.
      destruct (watchdog_test E l1 w1) as [[|] w1'|h w1'] eqn:Ht; simpl in Hem'.
      * intros Hl. destruct (IH _ _ _ Hl) as (evs & Ht' & Hall).
        destruct Hem' as (evs0 & Ht0 & Hall0).
        exists (evs0 ++ evs). split.
        -- rewrite Ht', Ht0, <- !app_assoc. reflexivity.
        -- apply Forall_app. auto.
      * discriminate.
      * intros [= -> ->].
        pose proof (yields_inv _ _ _ w1 (yields_watchdog_test E l1)) as Hy.
        rewrite Ht in Hy. destruct (not_cut_short_failure E Hy).
    + intros [= -> ->].
      destruct (iteration_exit_failure r l w w' Hit) as [-> ->].
      exists []. split; [|constructor].
      simpl. rewrite <- !app_assoc. reflexivity.
Qed.

Lemma process_exit_failure inbox w w' :
  watchdog_process E inbox w = Stop (Exit EXIT_FAILURE) w' ->
  exists evs,
    trace w' = trace w ++ evs ++
               [EvMsgrcv RcvErr; EvPerror "[watchdog] msgrcv"] /\
    Forall loop_event evs.
Proof.
  unfold watchdog_process, watchdog_code, getpid.
  unfold bind at 1. unfold bind at 1. unfold ret at 1. unfold bind at 1.
  set (s := ("[watchdog] starting with pid " ++ dec (pid E) ++ nl)%string).
  destruct (printf E s w) as [[] w1|h w1] eqn:Hp.
  - apply printf_returns in Hp. destruct (lt_0 E (watchdog_client E)).
    { unfold bind at 1.
      pose proof (yields_inv _ _ _ w1 (yields_perror E "[watchdog] shmat"))
        as Hy.
      destruct (perror E "[watchdog] shmat" w1) as [[] w2|h w2].
      - discriminate.
      - intros [= -> ->]. destruct (not_signalled_failure Hy). }
    unfold bind at 1.
    destruct (watchdog_loop E inbox wd_init w1) as [l w2|h w2] eqn:Hl.
    + set (rest := (printf E _ ;; watchdog_broadcast E)).
      assert (Hy : yields rest (fun _ => True)
                     (fun h => cut_short E h \/
                               exists i, h = Undefined (OutOfBounds i))).
      { apply (yields_bind _ _ (fun _ => True)).
        - eapply yields_weaken; [| |apply yields_printf]; auto.
          intros h0 Hh. left. left. exact Hh.
        - intros _ _. apply yields_watchdog_broadcast. }
      pose proof (yields_inv _ _ _ w2 Hy) as Hy2.
      destruct (rest w2) as [[] w3|h w3].
      * discriminate.
      * intros [= -> ->]. destruct Hy2 as [Hs|[i Hi]]; [|discriminate].
        destruct (not_cut_short_failure E Hs).
    + intros [= -> ->]. destruct (loop_exit_failure _ _ _ _ Hl) as (evs & Ht & Hall).
      exists (EvPrintf s :: evs). split.
      * rewrite Ht, Hp. simpl. rewrite <- !app_assoc. reflexivity.
      * constructor; [exact Logic.I|exact Hall].
  - intros [= -> ->].
    pose proof (yields_inv _ _ _ w (yields_printf E s)) as Hy.
    rewrite Hp in Hy. destruct (not_signalled_failure Hy).
Qed.

End WatchdogEnds.

Lemma loop_events_send_nothing evs :
  Forall loop_event evs -> signals_sent evs = [].
Proof.
  induction 1 as [|e evs He _ IH]; [reflexivity|].
  unfold signals_sent in *. destruct e; simpl in *; try contradiction;
    exact IH.
Qed.

(** ** A failing [msgrcv], when no signal arrives *)

Lemma loop_msgrcv_error (E : env) l0 w0 ms l w rest :
  quiet E -> wd_at E l0 w0 ms l w ->
  watchdog_loop E (ms ++ RcvErr :: rest) l0 w0 =
  Stop (Exit EXIT_FAILURE)
       (log (EvPerror "[watchdog] msgrcv")
            (tick E (log (EvMsgrcv RcvErr) (tick E w)))).
Proof.
  intros HQ Hat. rewrite (watchdog_loop_at E _ _ _ _ _ _ Hat). simpl.
  unfold watchdog_iteration.
  unfold bind at 1. unfold bind at 1. rewrite (msgrcv_q E HQ).
  unfold bind at 1. rewrite (perror_q E HQ). reflexivity.
Qed.

(** ** The broadcast *)

Lemma signals_sent_app l1 l2 :
  signals_sent (l1 ++ l2) = signals_sent l1 ++ signals_sent l2.
Proof. unfold signals_sent. apply omap_app. Qed.

Lemma lookups_seq (pre l : list Z) :
  omap (fun i => (pre ++ l) !! i) (seq (length pre) (length l)) = l.
Proof.
  revert pre. induction l as [|x l IH]; intros pre; [reflexivity|].
  simpl. rewrite list_lookup_middle by reflexivity. simpl. f_equal.
  specialize (IH (pre ++ [x])). rewrite <- app_assoc in IH. simpl in IH.
  rewrite length_app in IH. simpl in IH.
  replace (length pre + 1)%nat with (S (length pre)) in IH by lia. exact IH.
Qed.

Section Broadcast.

Variable E : env.
Hypothesis HQ : quiet E.
Hypothesis HA : alone E.
Hypothesis HS : attached E.

(** The broadcast goes through the slots, sending SIGUSR1 to the pid of
    each, until one of them reaches the watchdog itself: there it ends as
    a process ends that gets SIGUSR1. *)
Lemma broadcast_signals (idx : list nat) w :
  Forall (fun i => (i < Z.to_nat MAXCLIENTS)%nat) idx ->
  pids_wf w ->
  let pids := omap (fun i => clientpids (shm w) !! i) idx in
  exists w' evs,
    for_each idx (fun i =>
      p <- via E (watchdog_client E) (shm_read E (Fclientpids (Z.of_nat i))) ;;
      kill_SIGUSR1 E p) w =
    (if strangersb E pids then Ret tt w' else Stop (sig_halt w') w') /\
    shm w' = shm w /\
    handler w' = handler w /\
    trace w' = trace w ++ evs /\
    signals_sent evs = up_to_self E pids.
Proof.
  revert w. induction idx as [|i idx IH]; intros w Hall Hlen.
  - exists w, []. rewrite app_nil_r. simpl. auto.
  - inversion Hall as [|i' idx' Hi Hall']; subst.
    assert (Hshm : shm (tick E w) = shm w) by (simpl; apply HA).
    destruct (lookup_lt_is_Some_2 (clientpids (shm w)) i) as [p Hp];
      [unfold pids_wf in Hlen; lia|].
    assert (Hread : shm_read E (Fclientpids (Z.of_nat i)) w =
                    Ret p (log (EvShmRead (Fclientpids (Z.of_nat i)) p) (tick E w))).
    { unfold shm_read, bind. rewrite (sched_q E HQ), Hshm.
      unfold load. unfold in_clients.
      replace ((0 <=? Z.of_nat i) && (Z.of_nat i <? MAXCLIENTS)) with true
        by (symmetry; apply andb_true_intro; split;
            [apply Z.leb_le | apply Z.ltb_lt]; unfold MAXCLIENTS in *; lia).
      rewrite Nat2Z.id, Hp. reflexivity. }
    set (w1 := log (EvKill p SIGUSR1)
                 (tick E (log (EvShmRead (Fclientpids (Z.of_nat i)) p) (tick E w)))).
    assert (Hshm1 : shm w1 = shm w).
    { unfold w1. simpl. rewrite !HA. reflexivity. }
    assert (Hstep : (p <- via E (watchdog_client E)
                            (shm_read E (Fclientpids (Z.of_nat i))) ;;
                     kill_SIGUSR1 E p) w =
                    if reaches_self E p then Stop (sig_halt w1) w1
                    else Ret tt w1).
    { unfold bind at 1. unfold watchdog_client.
      rewrite (via_attached E _ HS), Hread, (kill_q E HQ).
      destruct (reaches_self E p); reflexivity. }
    intros pids. unfold pids. simpl. rewrite Hp. simpl.
    unfold bind at 1. rewrite Hstep.
    destruct (reaches_self E p) eqn:Hself; simpl.
    { exists w1, [EvShmRead (Fclientpids (Z.of_nat i)) p; EvKill p SIGUSR1].
      split; [reflexivity|]. split; [exact Hshm1|]. split; [reflexivity|].
      split; [|reflexivity].
      unfold w1. simpl. rewrite <- !app_assoc. reflexivity. }
    destruct (IH w1 Hall') as (w' & evs & Heq & Hs & Hh & Ht & Hk).
    { unfold pids_wf. rewrite Hshm1. exact Hlen. }
    rewrite Hshm1 in Heq, Hk.
    exists w', ([EvShmRead (Fclientpids (Z.of_nat i)) p; EvKill p SIGUSR1] ++ evs).
    split; [exact Heq|]. split; [rewrite Hs; exact Hshm1|].
    split; [rewrite Hh; reflexivity|]. split.
    + rewrite Ht. unfold w1. simpl. rewrite <- !app_assoc. reflexivity.
    + rewrite signals_sent_app, Hk. reflexivity.
Qed.

End Broadcast.

(** Behind pids of other processes the broadcast gets to the next slot. *)
Lemma up_to_self_lookup (E : env) pids : forall (i : nat) p,
  strangersb E (take i pids) = true -> pids !! i = Some p ->
  up_to_self E pids !! i = Some p.
Proof.
  induction pids as [|q pids IH]; intros [|i] p; simpl; try discriminate.
  - intros _ [= ->]. reflexivity.
  - intros Hs Hl. apply andb_prop in Hs as [Hq Hs].
    apply negb_true_iff in Hq. rewrite Hq. apply IH; assumption.
Qed.

Lemma client_indices_in_range :
  Forall (fun i => (i < Z.to_nat MAXCLIENTS)%nat) client_indices.
Proof.
  unfold client_indices. apply Forall_forall. intros i Hi.
  apply list_elem_of_In, in_seq in Hi. lia.
Qed.

Lemma all_slots (l : list Z) :
  length l = Z.to_nat MAXCLIENTS ->
  omap (fun i => l !! i) client_indices = l.
Proof.
  intros Hlen. unfold client_indices. rewrite <- Hlen.
  exact (lookups_seq [] l).
Qed.

(** ** The frontrunner in the segment *)

Lemma hoare_any {A} (m : Proc A) (P : world -> Prop) :
  hoare P m (fun _ _ => True) (fun _ => True).
Proof. intros w _. unfold wp. destruct (m w); exact Logic.I. Qed.

Section Published.

Variable E : env.
Hypothesis HF : keeps_frontrunner E.

Lemma stable_publishes fr : stable E (fun _ => True) (publishes fr).
Proof.
  split; unfold publishes; simpl; auto.
  intros w H. rewrite HF. exact H.
Qed.

Lemma publishes_write_frontrunner fr :
  hoare (fun _ => True) (shm_write E Ffrontrunner fr)
        (fun _ => publishes fr) (fun _ => True).
Proof.
  intros w _. unfold wp, shm_write, bind, sched. destruct (signal_due E w).
  - rewrite deliver_eq. exact Logic.I.
  - simpl. reflexivity.
Qed.

Lemma publishes_write_runs_done fr v :
  preserves (publishes fr) (shm_write E Fruns_done v).
Proof.
  apply preserves_bind; [eapply stable_sched, stable_publishes|].
  intros _ w Hw. exact Hw.
Qed.

Lemma publishes_score l :
  hoare (fun _ => True) (watchdog_score E l)
        (fun l' w' => publishes (wd_frontrunner l') w') (fun _ => True).
Proof.
  unfold watchdog_score. destruct (wd_client_nr l) as [nr|];
    [|apply hoare_stop; auto].
  apply (hoare_bind _ _ _ (fun _ _ => True)); [apply hoare_any|].
  intros scores. set (fr := find_frontrunner scores (wd_frontrunner l)).
  apply (hoare_bind _ _ _ (fun _ _ => True)); [apply hoare_any|].
  intros sf.
  apply (hoare_bind _ _ _ (fun _ _ => True)); [apply hoare_any|].
  intros _.
  apply (hoare_bind _ _ _ (fun _ _ => True)); [apply hoare_any|].
  intros _.
  apply (hoare_bind _ _ _ (fun _ => publishes fr)).
  { apply hoare_via; [apply publishes_write_frontrunner|auto]. }
  intros _.
  apply (hoare_bind _ _ _ (fun _ => publishes fr)).
  { apply hoare_kept; [|auto]. eapply stable_via; [apply stable_publishes|].
    eapply stable_shm_read; [apply stable_publishes|intros; exact Logic.I]. }
  intros rd.
  apply (hoare_bind _ _ _ (fun _ => publishes fr)).
  { apply hoare_pure; [apply pure_int_incr|auto]. }
  intros rd'.
  apply (hoare_bind _ _ _ (fun _ => publishes fr)).
  { apply hoare_kept; [|auto]. eapply stable_via; [apply stable_publishes|].
    apply publishes_write_runs_done. }
  intros _.
  apply (hoare_bind _ _ _ (fun _ => publishes fr)).
  { apply hoare_kept; [|auto].
    eapply stable_sem_operation;
      [apply stable_publishes|intros; exact Logic.I|exact Logic.I]. }
  intros _. apply hoare_ret. intros w Hw. exact Hw.
Qed.

Lemma publishes_iteration r l :
  hoare (publishes (wd_frontrunner l)) (watchdog_iteration E r l)
        (fun l' w' => publishes (wd_frontrunner l') w') (fun _ => True).
Proof.
  pose proof (stable_publishes (wd_frontrunner l)) as Hs.
  unfold watchdog_iteration.
  apply (hoare_bind _ _ _ (fun _ => publishes (wd_frontrunner l))).
  { apply hoare_kept; [|auto]. eapply stable_msgrcv; [exact Hs|exact Logic.I]. }
  intros [|data].
  { apply (hoare_bind _ _ _ (fun _ _ => True)); [apply hoare_any|].
    intros _. apply hoare_stop. auto. }
  destruct (sscanf_d data) as [| |n|]; simpl.
  - apply (hoare_bind _ _ _ (fun _ => publishes (wd_frontrunner l))).
    + apply hoare_kept; [|auto]. eapply stable_perror; [exact Hs|exact Logic.I].
    + intros _. apply hoare_ret. intros w Hw. exact Hw.
  - eapply hoare_weaken; [| | |apply publishes_score];
      [intros; exact Logic.I | intros a w H; exact H | intros; exact Logic.I].
  - eapply hoare_weaken; [| | |apply publishes_score];
      [intros; exact Logic.I | intros a w H; exact H | intros; exact Logic.I].
  - apply hoare_stop. auto.
Qed.

Lemma publishes_test fr l : preserves (publishes fr) (watchdog_test E l).
Proof.
  unfold watchdog_test.
  destruct (wd_winner l =? -1); [|apply preserves_ret].
  apply preserves_bind; [|intros rd; apply preserves_ret].
  eapply stable_via; [apply stable_publishes|].
  eapply stable_shm_read; [apply stable_publishes|intros; exact Logic.I].
Qed.

Lemma publishes_wd_at l0 w0 ms l w :
  wd_at E l0 w0 ms l w ->
  publishes (wd_frontrunner l0) w0 -> publishes (wd_frontrunner l) w.
Proof.
  induction 1 as [|l0 w0 r l1 w1 w1' ms l w Hit Ht _ IH]; intros H0; [exact H0|].
  apply IH.
  pose proof (hoare_ret_eq _ _ _ _ _ _ _ (publishes_iteration r l0) H0 Hit) as H1.
  pose proof (publishes_test _ l1 w1 H1) as H2. rewrite Ht in H2. exact H2.
Qed.

End Published.

Lemma leads_wd_init : leads (wd_scores wd_init) (wd_frontrunner wd_init).
Proof.
  assert (Hz : forall j, 0 <= j < MAXCLIENTS -> score_of (wd_scores wd_init) j = 0).
  { intros j Hj.
    apply (score_of_Forall (fun s => s = 0) (wd_scores wd_init) j);
      [reflexivity| |exact Hj].
    simpl. repeat constructor. }
  split; [simpl; unfold MAXCLIENTS; lia|]. split.
  - intros j Hj. change (wd_frontrunner wd_init) with 0.
    rewrite (Hz j Hj), (Hz 0); [lia|unfold MAXCLIENTS; lia].
  - simpl. intros j Hj. lia.
Qed.

Lemma leads_wd_at (E : env) l0 w0 ms l w :
  wd_at E l0 w0 ms l w ->
  wd_ok l0 -> leads (wd_scores l0) (wd_frontrunner l0) ->
  leads (wd_scores l) (wd_frontrunner l).
Proof.
  induction 1 as [|l0 w0 r l1 w1 w1' ms l w Hit Ht _ IH]; intros Hok H0;
    [exact H0|].
  apply IH; [eapply step_ok; eassumption|].
  destruct (iteration_from_ok E r l0 w0 l1 w1 Hok Hit)
    as (data & _ & [[_ ->]|(_ & nr & _ & _ & _ & Hl & _)]); assumption.
Qed.

(** ** A message of a client, and the end of the race *)

Lemma iteration_counts_sender (E : env) l w nr l' w' :
  wd_ok l -> INT_MIN <= nr <= INT_MAX ->
  watchdog_iteration E (RcvMsg (client_message nr)) l w = Ret l' w' ->
  0 <= nr < MAXCLIENTS /\
  wd_client_nr l' = Some nr /\
  wd_scores l' = <[Z.to_nat nr := score_of (wd_scores l) nr + 1]> (wd_scores l).
Proof.
  intros Hok Hnr Hit.
  pose proof (sscanf_dec nr Hnr) as Hscan. fold (client_message nr) in Hscan.
  destruct (message_counted E l w _ nr l' w' Hok Hscan Hit)
    as (H1 & H2 & H3 & _).
  auto.
Qed.

(** * The clients: signals, registration, sleeps *)

Lemma emitted_trans P w0 w1 w2 :
  emitted P w0 w1 -> emitted P w1 w2 -> emitted P w0 w2.
Proof.
  intros (e1 & H1 & F1) (e2 & H2 & F2). exists (e1 ++ e2). split.
  - rewrite H2, H1, app_assoc. reflexivity.
  - apply Forall_app. auto.
Qed.

Lemma emitted_same P w0 w :
  trace w = trace w0 -> emitted P w0 w.
Proof. intros H. exists []. rewrite app_nil_r. auto. Qed.

Lemma emitted_one P w0 w e :
  trace w = trace w0 ++ [e] -> P e -> emitted P w0 w.
Proof. intros H He. exists [e]. auto. Qed.

Section Tame.

Variable E : env.
Variable F : halt -> Prop.
Variable P : event -> Prop.

Lemma tame_ret {A} (a : A) : tame F P (ret a).
Proof.
  intros w. unfold tame_at. simpl. split; [apply emitted_refl|].
  split; [reflexivity|]. discriminate.
Qed.

Lemma tame_at_bind {A B} (m : Proc A) (k : A -> Proc B) w :
  tame_at F P m w -> (forall a w1, m w = Ret a w1 -> tame_at F P (k a) w1) ->
  tame_at F P (bind m k) w.
Proof.
  intros (He & Hh & Hs) Hk. unfold tame_at, bind.
  destruct (m w) as [a w1|h w1]; simpl in *.
  - destruct (Hk a w1 eq_refl) as (He' & Hh' & Hs'). split; [|split].
    + eapply emitted_trans; eassumption.
    + rewrite Hh'. exact Hh.
    + exact Hs'.
  - split; [exact He|]. split; [exact Hh|].
    intros h0 w' [= <- <-]. apply (Hs h w1 eq_refl).
Qed.

Lemma tame_bind {A B} (m : Proc A) (k : A -> Proc B) :
  tame F P m -> (forall a, tame F P (k a)) -> tame F P (bind m k).
Proof.
  intros Hm Hk w. apply tame_at_bind; [apply Hm|]. intros a w1 _. apply Hk.
Qed.

Lemma tame_sched : tame F P (sched E).
Proof.
  intros w. unfold tame_at, sched. destruct (signal_due E w).
  - rewrite deliver_eq. simpl. split; [apply emitted_same; reflexivity|].
    split; [reflexivity|]. intros h w' [= <- <-]. left. reflexivity.
  - simpl. split; [apply emitted_same; reflexivity|].
    split; [reflexivity|]. discriminate.
Qed.

Lemma tame_emit e : P e -> tame F P (emit e).
Proof.
  intros He w. unfold tame_at. simpl.
  split; [eapply emitted_one; [reflexivity|exact He]|].
  split; [reflexivity|]. discriminate.
Qed.

Lemma tame_call {A} e (a : A) :
  P e -> tame F P (sched E ;; emit e ;; ret a).
Proof.
  intros He. apply tame_bind; [apply tame_sched|]. intros _.
  apply tame_bind; [apply tame_emit, He|]. intros _. apply tame_ret.
Qed.

Lemma tame_printf s : P (EvPrintf s) -> tame F P (printf E s).
Proof.
  intros He. apply tame_bind; [apply tame_sched|]. intros _.
  apply tame_emit, He.
Qed.

Lemma tame_perror s : P (EvPerror s) -> tame F P (perror E s).
Proof.
  intros He. apply tame_bind; [apply tame_sched|]. intros _.
  apply tame_emit, He.
Qed.

Lemma tame_semop op : (forall ok, P (EvSemop op ok)) -> tame F P (semop E op).
Proof. intros He w. exact (tame_call _ (semop_ok E (clock w)) (He _) w). Qed.

Lemma tame_msgsnd data :
  (forall ok, P (EvMsgsnd data ok)) -> tame F P (msgsnd E data).
Proof. intros He w. exact (tame_call _ (msgsnd_ok E (clock w)) (He _) w). Qed.

Lemma tame_sem_operation op :
  (forall ok, P (EvSemop op ok)) -> P (EvPerror "semop") ->
  tame F P (sem_operation E op).
Proof.
  intros H1 H2. apply tame_bind; [apply tame_semop, H1|].
  intros [|]; [apply tame_ret|].
  apply tame_bind; [apply tame_perror, H2|]. intros _. apply tame_ret.
Qed.

(** An access through the pointer of the process stops, besides, when
    the attachment had failed. *)
Lemma tame_via {A} (m : Proc A) :
  (forall h, unattached E h -> F h) ->
  tame F P m -> tame F P (via E (shmat E) m).
Proof.
  intros HF Hm. unfold shmat. destruct (shmat_ok E) eqn:Hs; [exact Hm|].
  simpl. apply tame_bind; [apply tame_sched|]. intros _ w.
  unfold tame_at, stop. simpl. split; [apply emitted_refl|].
  split; [reflexivity|]. intros h w' [= <- <-]. right. apply HF. split; auto.
Qed.

Lemma tame_read_frontrunner :
  (forall v, P (EvShmRead Ffrontrunner v)) ->
  tame F P (shm_read E Ffrontrunner).
Proof.
  intros He. apply tame_bind; [apply tame_sched|]. intros _ w.
  unfold tame_at. simpl.
  split; [eapply emitted_one; [reflexivity|apply He]|].
  split; [reflexivity|]. discriminate.
Qed.

Lemma tame_random_sleep :
  P (EvUsleep (sleep_usec E)) -> tame F P (random_sleep E).
Proof.
  intros He w. unfold tame_at. rewrite random_sleep_eq.
  destruct (signal_due E w); simpl.
  - split; [apply emitted_same; reflexivity|]. split; [reflexivity|].
    intros h w' [= <- <-]. left. reflexivity.
  - split; [eapply emitted_one; [reflexivity|exact He]|].
    split; [reflexivity|]. discriminate.
Qed.

End Tame.

Section TameClient.

Variable E : env.
Variables (P : event -> Prop) (nr : Z).
Hypothesis HP : forall e, reporting_event E nr e -> unarmed e -> P e.

Ltac alphabet := try (intros; apply HP; simpl; auto; fail).

Lemma tame_client_iteration l :
  tame (unattached E) P (client_iteration E nr l).
Proof.
  unfold client_iteration.
  apply tame_bind; [apply tame_random_sleep; alphabet|]. intros _.
  apply tame_bind; [apply tame_msgsnd; alphabet|]. intros [|].
  - apply tame_bind; [apply tame_sem_operation; alphabet|]. intros _.
    apply tame_bind.
    { apply tame_via; [auto|]. apply tame_read_frontrunner; alphabet. }
    intros actual.
    apply tame_bind; [apply tame_sem_operation; alphabet|]. intros _.
    apply tame_ret.
  - apply tame_bind; [apply tame_perror; alphabet|]. intros _. apply tame_ret.
Qed.

Lemma tame_client_loop n l : tame (unattached E) P (client_loop E n nr l).
Proof.
  revert l. induction n as [|n IH]; intros l; simpl.
  - apply tame_ret.
  - apply tame_bind; [apply tame_client_iteration | exact IH].
Qed.

End TameClient.

(** ** How a client process ends *)

Section ClientEnds.

Variable E : env.

Lemma tame_at_outcome {A} F P (m : Proc A) w :
  tame_at F P m w ->
  (exists a w1, m w = Ret a w1 /\ emitted P w w1 /\ handler w1 = handler w) \/
  (exists h w1, m w = Stop h w1 /\ (h = sig_halt w1 \/ F h) /\
                emitted P w w1 /\ handler w1 = handler w).
Proof.
  intros (He & Hh & Hs).
  destruct (m w) as [a w1|h w1]; simpl in *.
  - left. eauto.
  - right. exists h, w1. split; [reflexivity|]. split; [|auto].
    apply (Hs h w1 eq_refl).
Qed.

Lemma client_process_phases i w :
  client_process E i w =
  (client_prelude E i ;;
   ok <- sigaction_SIGUSR1 E ;;
   client_report E i ok ;;
   client_attach E ;;
   client_tail E i ;;
   exit EXIT_SUCCESS) w.
Proof.
  unfold client_process, client_run, client_code, client_prelude, client_tail,
    client_report, client_attach, getpid.
  unfold bind, ret.
  destruct (client_register E i w) as [[] w1|]; [|reflexivity].
  destruct (random_sleep E w1) as [[] w2|]; [|reflexivity].
  destruct (printf E _ w2) as [[] w3|]; [|reflexivity].
  destruct (sigaction_SIGUSR1 E w3) as [ok w4|]; [|reflexivity].
  destruct (if ok then _ else _) as [[] w5|]; [|reflexivity].
  destruct (if lt_0 E (game_main E) then _ else _) as [[] w5'|]; [|reflexivity].
  destruct (client_loop E _ i _ w5') as [l w6|]; [|reflexivity].
  destruct (printf E _ w6) as [[] w7|]; reflexivity.
Qed.

Section Registered.

Variables (F : halt -> Prop) (P : event -> Prop) (i : Z).
Hypothesis HP : forall e, client_event E i e -> unarmed e -> P e.
Hypothesis Hi : in_clients i = true.
Hypothesis HK : pids_kept E.

Lemma tame_write_pid w :
  pids_wf w -> tame_at F P (shm_write E (Fclientpids i) (pid E)) w.
Proof.
  intros Hwf. unfold tame_at, shm_write, bind, sched.
  destruct (signal_due E w).
  - rewrite deliver_eq. simpl. split; [apply emitted_same; reflexivity|].
    split; [reflexivity|]. intros h w' [= <- <-]. left. reflexivity.
  - simpl. unfold pids_wf in Hwf. rewrite Hi, HK, Hwf.
    pose proof Hi as Hi'. unfold in_clients in Hi'.
    apply andb_prop in Hi' as [H0 H1].
    apply Z.leb_le in H0. apply Z.ltb_lt in H1.
    replace (Z.to_nat i <? Z.to_nat MAXCLIENTS)%nat with true
      by (symmetry; apply Nat.ltb_lt; lia).
    simpl. split; [eapply emitted_one; [reflexivity|apply HP; simpl; auto]|].
    split; [reflexivity|]. discriminate.
Qed.

Lemma tame_register w : pids_wf w -> tame_at F P (client_register E i) w.
Proof.
  intros Hwf.
  assert (Hsem : forall op, tame F P (sem_operation E op)).
  { intros op. apply tame_sem_operation; intros; apply HP; exact Logic.I. }
  pose proof (stable_sem_operation E (fun _ => True) pids_wf
                (stable_pids_wf E HK) LOCK (fun _ => Logic.I) Logic.I w Hwf)
    as Hwf1.
  unfold client_register, getpid.
  apply tame_at_bind; [apply Hsem|]. intros a w1 Heq.
  rewrite Heq in Hwf1. simpl in Hwf1.
  apply tame_at_bind; [apply tame_ret|]. intros p w1' [= <- <-].
  apply tame_at_bind; [apply tame_write_pid, Hwf1|]. intros _ w2 _.
  apply tame_bind; [apply Hsem|]. intros _. apply tame_ret.
Qed.

Lemma tame_prelude w : pids_wf w -> tame_at F P (client_prelude E i) w.
Proof.
  intros Hwf. unfold client_prelude, getpid.
  apply tame_at_bind; [apply tame_register, Hwf|]. intros _ w1 _.
  apply tame_bind; [apply tame_random_sleep; apply HP; simpl; auto|].
  intros _. apply tame_bind; [apply tame_ret|]. intros p.
  apply tame_printf. apply HP; simpl; auto.
Qed.

End Registered.

Lemma tame_client_report F P nr ok :
  P (EvPerror ("sigaction client " ++ dec nr)) ->
  tame F P (client_report E nr ok).
Proof.
  intros HP. unfold client_report.
  destruct ok; [apply tame_ret | apply tame_perror, HP].
Qed.

Lemma tame_client_tail P nr :
  (forall e, reporting_event E nr e -> unarmed e -> P e) ->
  tame (unattached E) P (client_tail E nr).
Proof.
  intros HP. unfold client_tail.
  apply tame_bind; [apply tame_client_loop, HP|]. intros _.
  apply tame_printf. apply HP; exact Logic.I.
Qed.

Lemma sigaction_outcome w :
  (exists w1, sigaction_SIGUSR1 E w = Stop (sig_halt w1) w1 /\
              trace w1 = trace w /\ handler w1 = handler w) \/
  (exists w1, sigaction_SIGUSR1 E w = Ret (sigaction_ok E) w1 /\
              trace w1 = trace w ++ [EvSigaction (sigaction_ok E)] /\
              handler w1 = handler w || sigaction_ok E).
Proof.
  unfold sigaction_SIGUSR1, bind, sched. destruct (signal_due E w).
  - left. rewrite deliver_eq. eexists. split; [reflexivity|]. auto.
  - right. simpl. eexists. split; [reflexivity|]. auto.
Qed.

(** The test of the attachment: it returns, having done nothing, unless
    the attachment failed and the test sees it; then the failure is
    reported and the process exits with EXIT_FAILURE, if no signal comes
    first. *)
Lemma client_attach_outcome w :
  (lt_0 E (game_main E) = false /\ client_attach E w = Ret tt w) \/
  (shmat_ok E = false /\ minus_one_lt_0 E = true /\
   ((exists w1, client_attach E w = Stop (sig_halt w1) w1 /\
                trace w1 = trace w /\ handler w1 = handler w) \/
    (exists w1, client_attach E w = Stop (Exit EXIT_FAILURE) w1 /\
                trace w1 = trace w ++ [EvPerror "shmat"] /\
                handler w1 = handler w))).
Proof.
  unfold client_attach, game_main, shmat.
  destruct (shmat_ok E); simpl; [left; auto|].
  destruct (minus_one_lt_0 E); [|left; auto].
  right. split; [reflexivity|]. split; [reflexivity|].
  unfold perror, bind, sched. destruct (signal_due E w).
  - left. rewrite deliver_eq. eexists. split; [reflexivity|]. auto.
  - right. simpl. eexists. split; [reflexivity|]. auto.
Qed.

Lemma client_tail_returns nr w a w' :
  client_tail E nr w = Ret a w' ->
  exists evs,
    trace w' = trace w ++ evs ++
               [EvPrintf ("[client " ++ dec nr ++ "] finished" ++ nl)] /\
    Forall unarmed evs.
Proof.
  unfold client_tail. unfold bind at 1.
  destruct (tame_client_loop E unarmed nr (fun _ _ H => H) (Z.to_nat MSGNR)
              (mk_cl 0 0) w) as ((e2 & Ht2 & Ha2) & _ & _).
  destruct (client_loop E (Z.to_nat MSGNR) nr (mk_cl 0 0) w) as [l w2|h w2];
    [|discriminate]. simpl in Ht2.
  destruct a. intros Hp. apply printf_returns in Hp. subst w'.
  exists e2. split; [|exact Ha2].
  simpl. rewrite Ht2, <- !app_assoc. reflexivity.
Qed.

Lemma not_armed evs : Forall unarmed evs -> ~ In (EvSigaction true) evs.
Proof.
  intros Hall Hin. rewrite Forall_forall in Hall.
  apply (Hall _ (proj2 (list_elem_of_In _ _) Hin)).
Qed.

(** A client that SIGUSR1 stops after its call of [sigaction]: by the
    handler if the call has installed it, killed if not. *)
Lemma client_end_signal i ok e1 e2 w' :
  Forall unarmed e1 -> Forall unarmed e2 -> handler w' = ok ->
  client_end E i (sig_halt w') (e1 ++ [EvSigaction ok] ++ e2).
Proof.
  intros H1 H2 Hh. unfold sig_halt. rewrite Hh. destruct ok.
  - right. left. split; [reflexivity|].
    apply in_or_app. right. left. reflexivity.
  - left. split; [reflexivity|]. intros Hin.
    apply in_app_or in Hin as [Hin|Hin]; [exact (not_armed _ H1 Hin)|].
    destruct Hin as [Hin|Hin]; [discriminate|].
    exact (not_armed _ H2 Hin).
Qed.

(** Before that call it is killed. *)
Lemma client_end_killed i e1 w' :
  Forall unarmed e1 -> handler w' = false ->
  client_end E i (sig_halt w') e1.
Proof.
  intros H1 Hh. unfold sig_halt. rewrite Hh. left.
  split; [reflexivity|apply not_armed, H1].
Qed.

End ClientEnds.

(** ** Registration, when nothing interferes *)

Section Registration.

Variable E : env.
Hypothesis HQ : quiet E.
Hypothesis HA : alone E.

Lemma shm_sem_world op w : shm (sem_world E op w) = shm w.
Proof.
  unfold sem_world. destruct (semop_ok E (clock w)); simpl; rewrite ?HA;
    reflexivity.
Qed.

Lemma shm_write_q f v w g :
  store (shm (tick E w)) f v = Some g ->
  shm_write E f v w =
  Ret tt (log (EvShmWrite f v)
            (mk_world g (trace w) (S (clock w)) (rng w) (handler w))).
Proof.
  intros H. unfold shm_write, bind. rewrite (sched_q E HQ), H. reflexivity.
Qed.

Lemma register_stores_pid i w :
  in_clients i = true -> pids_wf w ->
  exists w',
    client_register E i w = Ret tt w' /\
    shm w' = mk_game (frontrunner (shm w)) (runs_done (shm w))
                     (<[Z.to_nat i := pid E]> (clientpids (shm w))).
Proof.
  intros Hi Hwf. unfold client_register, getpid.
  unfold bind at 1. rewrite (sem_operation_q E HQ).
  unfold bind at 1. unfold ret at 1. unfold bind at 1.
  set (w1 := sem_world E LOCK w).
  assert (Hw1 : shm w1 = shm w) by apply shm_sem_world.
  assert (Hst : store (shm (tick E w1)) (Fclientpids i) (pid E) =
                Some (mk_game (frontrunner (shm w)) (runs_done (shm w))
                              (<[Z.to_nat i := pid E]> (clientpids (shm w))))).
  { simpl. rewrite HA, Hw1, Hi. unfold pids_wf in Hwf. rewrite Hwf.
    unfold in_clients in Hi. apply andb_prop in Hi as [H0 H1].
    apply Z.leb_le in H0. apply Z.ltb_lt in H1.
    replace (Z.to_nat i <? Z.to_nat MAXCLIENTS)%nat with true
      by (symmetry; apply Nat.ltb_lt; lia).
    reflexivity. }
  rewrite (shm_write_q _ _ _ _ Hst).
  unfold bind at 1. rewrite (sem_operation_q E HQ).
  eexists. split; [reflexivity|]. rewrite shm_sem_world. reflexivity.
Qed.

End Registration.

(** ** The length of the sleeps *)

Lemma sleep_usec_bound (E : env) :
  (forall s, 0 <= fst (prng_next E s)) -> 0 <= sleep_usec E < 398.
Proof. intros H. unfold sleep_usec. apply Z.rem_bound_pos; [apply H|lia]. Qed.

Lemma sleep_usec_seed (E E' : env) :
  Z.rem (pid E') 1234 = Z.rem (pid E) 1234 ->
  prng_init E' = prng_init E -> prng_next E' = prng_next E ->
  sleep_usec E' = sleep_usec E.
Proof. intros Hp Hi Hn. unfold sleep_usec. rewrite Hp, Hi, Hn. reflexivity. Qed.

(** * main: the steps of the parent and the birth of the children *)

Section MainSteps.

Variable E : env.
Variable S : sys.

Lemma signal_due_at w :
  sigusr1_at E <> Some (clock w) -> signal_due E w = false.
Proof.
  unfold signal_due. destruct (sigusr1_at E) as [n|]; [|reflexivity].
  intros H. apply Nat.eqb_neq. congruence.
Qed.

Lemma call_at c m :
  sigusr1_at E <> Some (mclock m) ->
  call E c m = MRet tt (mstep E (Sys c) m).
Proof.
  intros H. unfold call, mbind, run, sched.
  rewrite (signal_due_at (as_world m) H). simpl.
  unfold record, mstep. simpl. rewrite app_nil_r. reflexivity.
Qed.

Lemma run_printf_at s m :
  sigusr1_at E <> Some (mclock m) ->
  run (printf E s) m = MRet tt (mstep E (Ev (EvPrintf s)) m).
Proof.
  intros H. unfold run, printf, bind, sched.
  rewrite (signal_due_at (as_world m) H). reflexivity.
Qed.

Lemma run_perror_at s m :
  sigusr1_at E <> Some (mclock m) ->
  run (perror E s) m = MRet tt (mstep E (Ev (EvPerror s)) m).
Proof.
  intros H. unfold run, perror, bind, sched.
  rewrite (signal_due_at (as_world m) H). reflexivity.
Qed.

Lemma run_write_runs_done_at v m :
  sigusr1_at E <> Some (mclock m) ->
  run (shm_write E Fruns_done v) m =
  MRet tt (mk_mworld
             (mk_game (frontrunner (others E (mclock m) (mshm m))) v
                      (clientpids (others E (mclock m) (mshm m))))
             (history m ++ [Ev (EvShmWrite Fruns_done v)])
             (Datatypes.S (mclock m)) (mrng m) (mhandler m)).
Proof.
  intros H. unfold run, shm_write, bind, sched.
  rewrite (signal_due_at (as_world m) H). reflexivity.
Qed.

Lemma fork_at k m :
  sigusr1_at E <> Some (mclock m) ->
  fork E S k m =
  MRet (fork_result S k) (mstep E (Sys (Fork (fork_result S k))) m).
Proof. intros H. unfold fork, mbind. rewrite (call_at _ _ H). reflexivity. Qed.

Lemma run_stops {A} (p : Proc A) m h w :
  p (as_world m) = Stop h w -> run p m = MStop h (resume m w).
Proof. intros H. unfold run. rewrite H. reflexivity. Qed.

Lemma setup_succeeds :
  setup_failure S = None ->
  msgget_ok S = true /\ semget_ok S = true /\
  semctl_setval_ok S = true /\ shmget_ok S = true.
Proof.
  unfold setup_failure.
  destruct (msgget_ok S), (semget_ok S), (semctl_setval_ok S), (shmget_ok S);
    simpl; auto; discriminate.
Qed.

End MainSteps.

Ltac no_sig H := first [apply H; simpl; lia | rewrite H; discriminate].

Ltac msteps H :=
  repeat (first [ rewrite call_at by no_sig H
                | rewrite run_printf_at by no_sig H
                | rewrite run_perror_at by no_sig H
                | rewrite run_write_runs_done_at by no_sig H
                | rewrite fork_at by no_sig H ];
          cbv beta iota).

Section MainParts.

Variable E : env.
Variable S : sys.

Lemma main_setup_ok m :
  setup_failure S = None -> no_signal E (mclock m) 8 ->
  main_setup E S m = MRet tt (set_up E m).
Proof.
  intros Hok Hsig. destruct (setup_succeeds S Hok) as (H1 & H2 & H3 & H4).
  unfold main_setup, shmget. rewrite H1, H2, H3, H4.
  cbv [mbind mret]. msteps Hsig. simpl mclock. simpl mshm.
  msteps Hsig. reflexivity.
Qed.

(** ** The forks of the clients *)

Lemma forked_clock k n m :
  mclock (forked E S k n m) = (mclock m + n)%nat.
Proof.
  revert k m. induction n as [|n IH]; intros k m; simpl; [lia|].
  rewrite IH. simpl. lia.
Qed.

Lemma forked_history k n m :
  history (forked E S k n m) =
  history m ++ map (fun j => Sys (Fork (fork_result S j))) (seq k n).
Proof.
  revert k m. induction n as [|n IH]; intros k m; simpl.
  - rewrite app_nil_r. reflexivity.
  - rewrite IH. simpl. rewrite <- app_assoc. reflexivity.
Qed.

Lemma forked_local k n m :
  mrng (forked E S k n m) = mrng m /\ mhandler (forked E S k n m) = mhandler m.
Proof.
  revert k m. induction n as [|n IH]; intros k m; simpl; [auto|].
  destruct (IH (Datatypes.S k) (mstep E (Sys (Fork (fork_result S k))) m)) as [-> ->].
  auto.
Qed.

Lemma forked_idle k n m :
  idle E (mclock m) n -> mshm (forked E S k n m) = mshm m.
Proof.
  revert k m. induction n as [|n IH]; intros k m Hid; simpl; [reflexivity|].
  rewrite IH.
  - simpl. apply Hid. lia.
  - intros j g Hj. apply Hid. simpl in Hj. lia.
Qed.

Lemma client_process_stops i w :
  exists h w', client_process E i w = Stop h w'.
Proof.
  unfold client_process, client_run, bind.
  destruct (client_register E i w) as [[] w1|]; [|eauto].
  destruct (random_sleep E w1) as [[] w2|]; [|eauto].
  destruct (client_code E i w2) as [[] w3|]; eauto.
Qed.

Lemma watchdog_process_stops inbox w :
  exists h w', watchdog_process E inbox w = Stop h w'.
Proof.
  unfold watchdog_process, bind.
  destruct (watchdog_code E inbox w) as [[] w1|]; eauto.
Qed.

Lemma fork_clients_child pre i post :
  forall k m,
    no_signal E (mclock m) (length pre + 1) ->
    (forall j, (k <= j < k + length pre)%nat -> in_parent (fork_result S j)) ->
    fork_result S (k + length pre) = 0 ->
    let m1 := mstep E (Sys (Fork 0)) (forked E S k (length pre) m) in
    exists h w',
      client_process E (Z.of_nat i) (child_of m1) = Stop h w' /\
      fork_clients E S k (pre ++ i :: post) m = MStop h (grown w').
Proof.
  induction pre as [|i0 pre IH]; intros k m Hsig Hpar H0 m1.
  - simpl in *. rewrite Nat.add_0_r in H0.
    destruct (client_process_stops (Z.of_nat i) (child_of m1)) as (h & w' & Hc).
    exists h, w'. split; [exact Hc|].
    unfold mbind at 1. rewrite fork_at by (apply Hsig; simpl; lia).
    rewrite H0. simpl. unfold mbind at 1. unfold newborn at 1.
    unfold mbind at 1.
    rewrite (run_stops _ _ h w') by exact Hc. reflexivity.
  - simpl app. simpl fork_clients.
    unfold mbind at 1. rewrite fork_at by (apply Hsig; simpl; lia).
    destruct (Hpar k) as [Hn0 Hn1]; [simpl; lia|].
    apply Z.eqb_neq in Hn0. apply Z.eqb_neq in Hn1. rewrite Hn0, Hn1.
    apply (IH (Datatypes.S k) (mstep E (Sys (Fork (fork_result S k))) m)).
    + intros j Hj. apply Hsig. simpl in *. lia.
    + intros j Hj. apply Hpar. simpl. lia.
    + rewrite <- H0. f_equal. simpl. lia.
Qed.

(** ** A creation fails *)

Lemma main_setup_fails name m :
  quiet E -> setup_failure S = Some name ->
  exists m' evs,
    main_setup E S m = MStop (Exit EXIT_FAILURE) m' /\
    history m' = history m ++ evs ++ [Ev (EvPerror name)] /\
    Forall gives_up evs /\
    Forall (fun e => is_fork e = false) evs /\
    (name <> "msgget"%string -> In (Sys (Msgget true)) evs) /\
    (name <> "msgget"%string -> name <> "semget"%string ->
     In (Sys (Semget true)) evs).
Proof.
  intros HQ. unfold setup_failure, main_setup, shmget.
  destruct (msgget_ok S); simpl negb; cbv iota.
  2:{ intros [= <-]. cbv [mbind mret mexit]. msteps HQ.
      eexists _, [Sys (Msgget false)]. split; [reflexivity|].
      split; [simpl; rewrite <- !app_assoc; reflexivity|].
      split; [repeat constructor; discriminate|].
      split; [repeat constructor|]. split; congruence. }
  destruct (semget_ok S); simpl negb; cbv iota.
  2:{ intros [= <-]. cbv [mbind mret mexit]. msteps HQ.
      eexists _, [Sys (Msgget true);
                  Ev (EvPrintf ("WatchdogMQ initialized" ++ nl));
                  Sys (Semget false)].
      split; [reflexivity|].
      split; [simpl; rewrite <- !app_assoc; reflexivity|].
      split; [repeat constructor; discriminate|].
      split; [repeat constructor|].
      split; [intros _; left; reflexivity|congruence]. }
  destruct (semctl_setval_ok S); simpl negb; cbv iota.
  2:{ intros [= <-]. cbv [mbind mret mexit]. msteps HQ.
      eexists _, [Sys (Msgget true);
                  Ev (EvPrintf ("WatchdogMQ initialized" ++ nl));
                  Sys (Semget true); Sys (SemctlSetval 1 false)].
      split; [reflexivity|].
      split; [simpl; rewrite <- !app_assoc; reflexivity|].
      split; [repeat constructor; discriminate|].
      split; [repeat constructor|].
      split; [intros _; left; reflexivity|].
      intros _ _. right. right. left. reflexivity. }
  destruct (shmget_ok S); simpl negb; cbv iota; [discriminate|].
  intros [= <-]. cbv [mbind mret mexit]. msteps HQ.
  eexists _, [Sys (Msgget true);
              Ev (EvPrintf ("WatchdogMQ initialized" ++ nl));
              Sys (Semget true); Sys (SemctlSetval 1 true);
              Ev (EvPrintf ("SEMaccess initialized" ++ nl));
              Sys (Shmget false)].
  split; [reflexivity|].
  split; [simpl; rewrite <- !app_assoc; reflexivity|].
  split; [repeat constructor; discriminate|].
  split; [repeat constructor|].
  split; [intros _; left; reflexivity|].
  intros _ _. right. right. left. reflexivity.
Qed.

(** ** A fork fails *)

Lemma fork_clients_fails pre i post :
  forall k m,
    no_signal E (mclock m) (length pre + 2) ->
    (forall j, (k <= j < k + length pre)%nat -> in_parent (fork_result S j)) ->
    fork_result S (k + length pre) = -1 ->
    fork_clients E S k (pre ++ i :: post) m =
    MStop (Exit EXIT_FAILURE)
          (mstep E (Ev (EvPerror "fork"))
             (mstep E (Sys (Fork (-1))) (forked E S k (length pre) m))).
Proof.
  induction pre as [|i0 pre IH]; intros k m Hsig Hpar H0.
  - simpl in *. rewrite Nat.add_0_r in H0.
    unfold mbind at 1. rewrite fork_at by (apply Hsig; simpl; lia).
    rewrite H0. simpl. unfold mbind at 1.
    rewrite run_perror_at by (apply Hsig; simpl; lia). reflexivity.
  - simpl app. simpl fork_clients.
    unfold mbind at 1. rewrite fork_at by (apply Hsig; simpl; lia).
    cbv beta iota.
    destruct (Hpar k) as [Hn0 Hn1]; [simpl; lia|].
    apply Z.eqb_neq in Hn0. apply Z.eqb_neq in Hn1. rewrite Hn0, Hn1.
    simpl length. simpl forked.
    apply (IH (Datatypes.S k) (mstep E (Sys (Fork (fork_result S k))) m)).
    + intros j Hj. apply Hsig. simpl in *. lia.
    + intros j Hj. apply Hpar. simpl. lia.
    + rewrite <- H0. f_equal. simpl. lia.
Qed.

(** ** Waiting and cleaning up *)

Lemma wait_loop_returns fails r rest :
  quiet E -> Forall (fun x => x < 0) fails -> 0 <= r ->
  forall m, exists m',
    wait_loop E (fails ++ r :: rest) m = MRet tt m' /\
    history m' = history m ++ map (fun x => Sys (Wait x)) (fails ++ [r]).
Proof.
  intros HQ Hall Hr. induction Hall as [|x fails Hx _ IH]; intros m; simpl.
  - unfold mbind. rewrite call_at by no_sig HQ.
    apply Z.ltb_ge in Hr. rewrite Hr. eexists. split; reflexivity.
  - unfold mbind at 1. rewrite call_at by no_sig HQ.
    apply Z.ltb_lt in Hx. rewrite Hx.
    destruct (IH (mstep E (Sys (Wait x)) m)) as (m' & Heq & Hh).
    exists m'. split; [exact Heq|]. rewrite Hh. simpl.
    rewrite <- app_assoc. reflexivity.
Qed.

Lemma wait_loop_blocks waits :
  quiet E -> Forall (fun x => x < 0) waits ->
  forall m, exists m',
    wait_loop E waits m = MStop BlockedForever m' /\
    history m' = history m ++ map (fun x => Sys (Wait x)) waits.
Proof.
  intros HQ Hall. induction Hall as [|x waits Hx _ IH]; intros m; simpl.
  - unfold run, bind, sched, block.
    rewrite (signal_due_at E (as_world m)) by no_sig HQ.
    rewrite HQ. eexists. split; [reflexivity|]. simpl.
    rewrite !app_nil_r. reflexivity.
  - unfold mbind at 1. rewrite call_at by no_sig HQ.
    apply Z.ltb_lt in Hx. rewrite Hx.
    destruct (IH (mstep E (Sys (Wait x)) m)) as (m' & Heq & Hh).
    exists m'. split; [exact Heq|]. rewrite Hh. simpl.
    rewrite <- app_assoc. reflexivity.
Qed.

Lemma main_cleanup_returns m :
  quiet E ->
  exists m' post,
    main_cleanup E S m = MRet tt m' /\
    history m' = history m ++ post /\
    filter is_removal post =
      [Sys (MsgctlRmid (msgctl_ok S)); Sys (SemctlRmid (semctl_rmid_ok S));
       Sys (ShmctlRmid (shmctl_ok S))] /\
    Forall (fun e => is_wait e = false /\ is_fork e = false) post.
Proof.
  intros HQ. unfold main_cleanup.
  destruct (msgctl_ok S), (semctl_rmid_ok S), (shmctl_ok S);
    cbv [mbind mret]; msteps HQ;
    (eexists _, [_; _; _; _; _; _; _; _; _]; split; [reflexivity|];
     split; [simpl; rewrite <- !app_assoc; reflexivity|];
     split; [reflexivity|repeat constructor]).
Qed.

(** ** The whole of [main] *)

Lemma quiet_no_signal c n : quiet E -> no_signal E c n.
Proof. intros HQ k _. rewrite HQ. discriminate. Qed.

Lemma client_indices_split i :
  (i < Z.to_nat MAXCLIENTS)%nat ->
  client_indices = seq 0 i ++ i :: seq (Datatypes.S i) (Z.to_nat MAXCLIENTS - 1 - i).
Proof.
  intros Hi. unfold client_indices.
  replace (Z.to_nat MAXCLIENTS) with (i + Datatypes.S (Z.to_nat MAXCLIENTS - 1 - i))%nat
    at 1 by lia.
  rewrite seq_app. reflexivity.
Qed.

Lemma set_up_facts m :
  mclock (set_up E m) = (mclock m + 8)%nat /\
  mrng (set_up E m) = mrng m /\
  mhandler (set_up E m) = mhandler m /\
  (idle E (mclock m) 8 -> mshm (set_up E m) = init_game).
Proof.
  split; [simpl; lia|]. split; [reflexivity|]. split; [reflexivity|].
  intros Hid. unfold set_up. simpl.
  rewrite !Hid by lia. reflexivity.
Qed.

(** The state in which the parent has made the watchdog and the first [n]
    clients. *)
Lemma main_forks inbox m (rest : MProc unit) n :
  no_signal E (mclock m) (11 + n) ->
  setup_failure S = None ->
  (forall j, (j <= n)%nat -> in_parent (fork_result S j)) ->
  forall idx,
    (main_setup E S ;;
     r <- fork E S 0 ;;
     (if r =? 0 then newborn ;; run (watchdog_process E inbox)
      else if r =? -1 then run (perror E "fork") ;; mexit EXIT_FAILURE
      else mret tt) ;;
     call E Fflush ;;
     run (printf E ("-----forking-----" ++ nl)) ;;
     fork_clients E S 1 (seq 0 n ++ idx) ;;
     rest)%mproc m =
    (fork_clients E S (Datatypes.S n) idx ;; rest)%mproc
      (forked E S 1 n
         (mstep E (Ev (EvPrintf ("-----forking-----" ++ nl)))
            (mstep E (Sys Fflush)
               (mstep E (Sys (Fork (fork_result S 0))) (set_up E m))))).
Proof.
  intros Hsig Hok Hpar idx.
  destruct (Hpar 0%nat) as [H0 H1]; [lia|].
  apply Z.eqb_neq in H0. apply Z.eqb_neq in H1.
  unfold mbind at 1. rewrite main_setup_ok; [|exact Hok|].
  2:{ intros k Hk. apply Hsig. lia. }
  unfold mbind at 1. rewrite fork_at by (apply Hsig; simpl; lia).
  unfold mbind at 1. rewrite H0, H1. unfold mret at 1.
  unfold mbind at 1. rewrite call_at by (apply Hsig; simpl; lia).
  unfold mbind at 1. rewrite run_printf_at by (apply Hsig; simpl; lia).
  set (m3 := mstep E (Ev (EvPrintf _)) _).
  assert (Hc : mclock m3 = (mclock m + 11)%nat) by (simpl; lia).
  clearbody m3. revert m3 Hc.
  assert (Hgen : forall n k m3 idx,
             no_signal E (mclock m3) n ->
             (forall j, (k <= j < k + n)%nat -> in_parent (fork_result S j)) ->
             (fork_clients E S k (seq 0 n ++ idx) ;; rest)%mproc m3 =
             (fork_clients E S (k + n) idx ;; rest)%mproc (forked E S k n m3)).
  { clear. intros n. generalize 0%nat at 1 as a.
    induction n as [|n IH]; intros a k m3 idx Hsig Hpar; simpl.
    - rewrite Nat.add_0_r. reflexivity.
    - unfold mbind at 1. unfold mbind at 1.
      rewrite fork_at by (apply Hsig; simpl; lia). cbv beta iota.
      destruct (Hpar k) as [H0 H1]; [lia|].
      apply Z.eqb_neq in H0. apply Z.eqb_neq in H1. rewrite H0, H1.
      replace (k + Datatypes.S n)%nat with (Datatypes.S k + n)%nat by lia.
      apply (IH (Datatypes.S a) (Datatypes.S k)).
      + intros j Hj. apply Hsig. simpl in *. lia.
      + intros j Hj. apply Hpar. lia. }
  intros m3 Hc. rewrite (Hgen n 1%nat m3 idx).
  - reflexivity.
  - intros k Hk. apply Hsig. lia.
  - intros j Hj. apply Hpar. lia.
Qed.

Lemma forks_counted k n :
  length (filter is_fork
            (map (fun j => Sys (Fork (fork_result S j))) (seq k n))) = n.
Proof.
  revert k. induction n as [|n IH]; intros k; [reflexivity|].
  simpl. rewrite IH. reflexivity.
Qed.

Lemma forks_give_up k n :
  Forall (fun e => gives_up e /\ is_removal e = false /\ is_wait e = false)
         (map (fun j => Sys (Fork (fork_result S j))) (seq k n)).
Proof.
  apply Forall_forall. intros e He.
  apply list_elem_of_In, in_map_iff in He as (j & <- & _).
  repeat split; discriminate.
Qed.

(** The events of a setup in which every creation succeeds. *)
Lemma set_up_history m :
  history (set_up E m) =
  history m ++
  [Sys (Msgget true); Ev (EvPrintf ("WatchdogMQ initialized" ++ nl));
   Sys (Semget true); Sys (SemctlSetval 1 true);
   Ev (EvPrintf ("SEMaccess initialized" ++ nl));
   Sys (Shmget true); Ev (EvShmWrite Fruns_done 0);
   Ev (EvPrintf ("SMgame initialized" ++ nl))].
Proof. unfold set_up. simpl. rewrite <- !app_assoc. reflexivity. Qed.

Lemma main_parent_returns inbox m fails r rest :
  quiet E -> setup_failure S = None ->
  (forall j, (j <= Z.to_nat MAXCLIENTS)%nat -> in_parent (fork_result S j)) ->
  Forall (fun x => x < 0) fails -> 0 <= r ->
  exists m' pre post,
    main E S inbox (fails ++ r :: rest) m = MRet tt m' /\
    history m' = history m ++ pre ++
                 map (fun x => Sys (Wait x)) (fails ++ [r]) ++ post /\
    length (filter is_fork pre) = Datatypes.S (Z.to_nat MAXCLIENTS) /\
    Forall (fun e => is_wait e = false /\ is_removal e = false) pre /\
    filter is_removal post =
      [Sys (MsgctlRmid (msgctl_ok S)); Sys (SemctlRmid (semctl_rmid_ok S));
       Sys (ShmctlRmid (shmctl_ok S))] /\
    Forall (fun e => is_wait e = false /\ is_fork e = false) post.
Proof.
  intros HQ Hok Hpar Hfails Hr. unfold main.
  change client_indices with (seq 0 (Z.to_nat MAXCLIENTS) ++ []).
  rewrite (main_forks inbox m
             (call E (Sleep 2) ;; wait_loop E (fails ++ r :: rest) ;;
              main_cleanup E S)%mproc (Z.to_nat MAXCLIENTS)
             (quiet_no_signal _ _ HQ) Hok Hpar []).
  set (m1 := forked E S 1 _ _).
  simpl fork_clients. unfold mbind at 1. unfold mret at 1.
  unfold mbind at 1. rewrite call_at by no_sig HQ.
  unfold mbind at 1.
  destruct (wait_loop_returns fails r rest HQ Hfails Hr
              (mstep E (Sys (Sleep 2)) m1)) as (m2 & -> & Hh2).
  destruct (main_cleanup_returns m2 HQ) as (m' & post & -> & Hh3 & Hrm & Hpost).
  exists m',
    ([Sys (Msgget true); Ev (EvPrintf ("WatchdogMQ initialized" ++ nl));
      Sys (Semget true); Sys (SemctlSetval 1 true);
      Ev (EvPrintf ("SEMaccess initialized" ++ nl));
      Sys (Shmget true); Ev (EvShmWrite Fruns_done 0);
      Ev (EvPrintf ("SMgame initialized" ++ nl));
      Sys (Fork (fork_result S 0)); Sys Fflush;
      Ev (EvPrintf ("-----forking-----" ++ nl))] ++
     map (fun j => Sys (Fork (fork_result S j))) (seq 1 (Z.to_nat MAXCLIENTS)) ++
     [Sys (Sleep 2)]), post.
  split; [reflexivity|]. split; [|split; [|split; [|split]]].
  - rewrite Hh3, Hh2. cbn [history mstep]. unfold m1.
    rewrite forked_history. cbn [history mstep]. rewrite set_up_history.
    rewrite <- !app_assoc. reflexivity.
  - rewrite filter_app, length_app, filter_app, length_app, forks_counted.
    reflexivity.
  - apply Forall_app. split; [repeat constructor|].
    apply Forall_app. split; [|repeat constructor].
    eapply Forall_impl; [apply forks_give_up|]. intros e (_ & H1 & H2). auto.
  - exact Hrm.
  - exact Hpost.
Qed.

Lemma main_parent_blocks inbox m waits :
  quiet E -> setup_failure S = None ->
  (forall j, (j <= Z.to_nat MAXCLIENTS)%nat -> in_parent (fork_result S j)) ->
  Forall (fun x => x < 0) waits ->
  exists m' pre,
    main E S inbox waits m = MStop BlockedForever m' /\
    history m' = history m ++ pre ++ map (fun x => Sys (Wait x)) waits /\
    Forall (fun e => is_wait e = false /\ is_removal e = false) pre.
Proof.
  intros HQ Hok Hpar Hwaits. unfold main.
  change client_indices with (seq 0 (Z.to_nat MAXCLIENTS) ++ []).
  rewrite (main_forks inbox m
             (call E (Sleep 2) ;; wait_loop E waits ;;
              main_cleanup E S)%mproc (Z.to_nat MAXCLIENTS)
             (quiet_no_signal _ _ HQ) Hok Hpar []).
  set (m1 := forked E S 1 _ _).
  simpl fork_clients. unfold mbind at 1. unfold mret at 1.
  unfold mbind at 1. rewrite call_at by no_sig HQ.
  unfold mbind at 1.
  destruct (wait_loop_blocks waits HQ Hwaits
              (mstep E (Sys (Sleep 2)) m1)) as (m2 & -> & Hh2).
  exists m2,
    ([Sys (Msgget true); Ev (EvPrintf ("WatchdogMQ initialized" ++ nl));
      Sys (Semget true); Sys (SemctlSetval 1 true);
      Ev (EvPrintf ("SEMaccess initialized" ++ nl));
      Sys (Shmget true); Ev (EvShmWrite Fruns_done 0);
      Ev (EvPrintf ("SMgame initialized" ++ nl));
      Sys (Fork (fork_result S 0)); Sys Fflush;
      Ev (EvPrintf ("-----forking-----" ++ nl))] ++
     map (fun j => Sys (Fork (fork_result S j))) (seq 1 (Z.to_nat MAXCLIENTS)) ++
     [Sys (Sleep 2)]).
  split; [reflexivity|]. split.
  - rewrite Hh2. cbn [history mstep]. unfold m1.
    rewrite forked_history. cbn [history mstep]. rewrite set_up_history.
    rewrite <- !app_assoc. reflexivity.
  - apply Forall_app. split; [repeat constructor|].
    apply Forall_app. split; [|repeat constructor].
    eapply Forall_impl; [apply forks_give_up|]. intros e (_ & H1 & H2). auto.
Qed.

(** ** The children *)

Lemma main_watchdog_child inbox waits m :
  no_signal E (mclock m) 9 -> setup_failure S = None ->
  fork_result S 0 = 0 ->
  exists h w',
    watchdog_process E inbox
      (child_of (mstep E (Sys (Fork 0)) (set_up E m))) = Stop h w' /\
    main E S inbox waits m = MStop h (grown w').
Proof.
  intros Hsig Hok H0.
  destruct (watchdog_process_stops inbox
              (child_of (mstep E (Sys (Fork 0)) (set_up E m)))) as (h & w' & Hw).
  exists h, w'. split; [exact Hw|].
  unfold main. unfold mbind at 1. rewrite main_setup_ok; [|exact Hok|].
  2:{ intros k Hk. apply Hsig. lia. }
  unfold mbind at 1. rewrite fork_at by (apply Hsig; simpl; lia).
  cbv beta iota. rewrite H0. unfold mbind at 1.
  change (0 =? 0) with true. cbv iota.
  unfold mbind at 1. unfold newborn at 1.
  rewrite (run_stops _ _ h w') by exact Hw. reflexivity.
Qed.

Lemma main_client_child inbox waits m i :
  (i < Z.to_nat MAXCLIENTS)%nat ->
  no_signal E (mclock m) (12 + i) -> setup_failure S = None ->
  (forall j, (j <= i)%nat -> in_parent (fork_result S j)) ->
  fork_result S (Datatypes.S i) = 0 ->
  let m1 := mstep E (Sys (Fork 0))
              (forked E S 1 i
                 (mstep E (Ev (EvPrintf ("-----forking-----" ++ nl)))
                    (mstep E (Sys Fflush)
                       (mstep E (Sys (Fork (fork_result S 0)))
                          (set_up E m))))) in
  exists h w',
    client_process E (Z.of_nat i) (child_of m1) = Stop h w' /\
    main E S inbox waits m = MStop h (grown w').
Proof.
  intros Hi Hsig Hok Hpar H0 m1.
  unfold main. rewrite (client_indices_split i) by lia.
  rewrite (main_forks inbox m
             (call E (Sleep 2) ;; wait_loop E waits ;;
              main_cleanup E S)%mproc i); [|intros k Hk; apply Hsig; lia
                                          |exact Hok|exact Hpar].
  set (m0 := forked E S 1 i _).
  destruct (fork_clients_child [] i
              (seq (Datatypes.S i) (Z.to_nat MAXCLIENTS - 1 - i))
              (Datatypes.S i) m0) as (h & w' & Hc & Hf).
  { intros k Hk. apply Hsig. unfold m0 in Hk. rewrite forked_clock in Hk.
    simpl in Hk. simpl. lia. }
  { simpl. intros j Hj. lia. }
  { simpl. rewrite Nat.add_0_r. exact H0. }
  exists h, w'. split; [exact Hc|].
  unfold mbind at 1. cbn [app] in Hf. rewrite Hf. reflexivity.
Qed.

Lemma child_state m i :
  let m1 := mstep E (Sys (Fork 0))
              (forked E S 1 i
                 (mstep E (Ev (EvPrintf ("-----forking-----" ++ nl)))
                    (mstep E (Sys Fflush)
                       (mstep E (Sys (Fork (fork_result S 0)))
                          (set_up E m))))) in
  trace (child_of m1) = [] /\
  clock (child_of m1) = (mclock m + 12 + i)%nat /\
  rng (child_of m1) = mrng m /\
  handler (child_of m1) = mhandler m /\
  (idle E (mclock m) (12 + i) -> shm (child_of m1) = init_game).
Proof.
  intros m1. split; [reflexivity|]. split; [|split; [|split]].
  - unfold m1. cbn [child_of clock mclock mstep]. rewrite forked_clock.
    simpl. lia.
  - unfold m1. cbn [child_of rng mrng mstep].
    rewrite (proj1 (forked_local _ _ _)). reflexivity.
  - unfold m1. cbn [child_of handler mhandler mstep].
    rewrite (proj2 (forked_local _ _ _)). reflexivity.
  - intros Hid. unfold m1. cbn [child_of shm mshm mstep].
    rewrite forked_clock. rewrite forked_idle.
    + cbn [mshm mclock mstep].
      destruct (set_up_facts m) as (Hc & _ & _ & Hs).
      rewrite Hs by (intros k g Hk; apply Hid; lia).
      rewrite !Hid by (rewrite ?Hc; simpl; lia). reflexivity.
    + intros k g Hk. apply Hid. simpl in Hk. lia.
Qed.

End MainParts.

(** * The watchdog: how it exits with success *)

Section Unarmed.

Variable E : env.

Lemma unarmed_ret {A} (a : A) : unarmed_run (ret a).
Proof. intros w H. exact H. Qed.

Lemma unarmed_stop {A} h : h <> Exit EXIT_SUCCESS -> unarmed_run (@stop A h).
Proof. intros Hh w _. exact Hh. Qed.

Lemma unarmed_bind {A B} (m : Proc A) (k : A -> Proc B) :
  unarmed_run m -> (forall a, unarmed_run (k a)) -> unarmed_run (bind m k).
Proof.
  intros Hm Hk w Hw. specialize (Hm w Hw). unfold bind.
  destruct (m w) as [a w1|h w1]; [apply Hk, Hm|exact Hm].
Qed.

Lemma tame_unarmed {A} P (m : Proc A) : tame never P m -> unarmed_run m.
Proof.
  intros Hm w Hw. destruct (Hm w) as (_ & Hh & Hs).
  destruct (m w) as [a w1|h w1]; simpl in *.
  - congruence.
  - destruct (Hs h w1 eq_refl) as [-> | []].
    unfold sig_halt. rewrite Hh, Hw. discriminate.
Qed.

Lemma unarmed_sched : unarmed_run (sched E).
Proof. apply (tame_unarmed (fun _ => True)), tame_sched. Qed.

Lemma unarmed_printf s : unarmed_run (printf E s).
Proof. apply (tame_unarmed (fun _ => True)), tame_printf. exact Logic.I. Qed.

Lemma unarmed_perror s : unarmed_run (perror E s).
Proof. apply (tame_unarmed (fun _ => True)), tame_perror. exact Logic.I. Qed.

Lemma unarmed_msgrcv r : unarmed_run (msgrcv E r).
Proof. apply (tame_unarmed (fun _ => True)), tame_call. exact Logic.I. Qed.

(** Without a handler, a signal that the process sends to itself kills
    it. *)
Lemma unarmed_kill p : unarmed_run (kill_SIGUSR1 E p).
Proof.
  unfold kill_SIGUSR1.
  apply unarmed_bind; [apply unarmed_sched|]. intros _.
  apply unarmed_bind.
  { apply (tame_unarmed (fun _ => True)), tame_emit. exact Logic.I. }
  intros _ w Hw. destruct (reaches_self E p); [|exact Hw].
  rewrite deliver_eq. unfold sig_halt. rewrite Hw. discriminate.
Qed.

Lemma unarmed_via {A} p (m : Proc A) : unarmed_run m -> unarmed_run (via E p m).
Proof.
  intros Hm. destruct p; [exact Hm|]. simpl.
  apply unarmed_bind; [apply unarmed_sched|]. intros _.
  apply unarmed_stop. discriminate.
Qed.

Lemma unarmed_sem_operation op : unarmed_run (sem_operation E op).
Proof.
  apply (tame_unarmed (fun _ => True)), tame_sem_operation;
    intros; exact Logic.I.
Qed.

Lemma unarmed_shm_read f : unarmed_run (shm_read E f).
Proof.
  apply unarmed_bind; [apply unarmed_sched|]. intros _ w Hw.
  destruct (load (shm w) f); simpl; [exact Hw|discriminate].
Qed.

Lemma unarmed_shm_write f v : unarmed_run (shm_write E f v).
Proof.
  apply unarmed_bind; [apply unarmed_sched|]. intros _ w Hw.
  destruct (store (shm w) f v); simpl; [exact Hw|discriminate].
Qed.

Lemma unarmed_array_get a i : unarmed_run (array_get a i).
Proof.
  unfold array_get.
  destruct (if 0 <=? i then a !! Z.to_nat i else None);
    [apply unarmed_ret|apply unarmed_stop; discriminate].
Qed.

Lemma unarmed_int_incr x : unarmed_run (int_incr x).
Proof.
  unfold int_incr.
  destruct (x <? INT_MAX); [apply unarmed_ret|apply unarmed_stop; discriminate].
Qed.

Lemma unarmed_block {A} : unarmed_run (@block E A).
Proof.
  intros w Hw. unfold block. destruct (sigusr1_at E) as [n|]; [|discriminate].
  destruct (clock w <=? n)%nat; [|discriminate].
  rewrite deliver_eq. unfold sig_halt. rewrite Hw. discriminate.
Qed.

Lemma unarmed_watchdog_score l : unarmed_run (watchdog_score E l).
Proof.
  unfold watchdog_score, array_incr.
  destruct (wd_client_nr l) as [nr|]; [|apply unarmed_stop; discriminate].
  apply unarmed_bind.
  { apply unarmed_bind; [apply unarmed_array_get|]. intros v.
    apply unarmed_bind; [apply unarmed_int_incr|]. intros v'.
    apply unarmed_ret. }
  intros scores. apply unarmed_bind; [apply unarmed_array_get|]. intros sf.
  apply unarmed_bind.
  { destruct ((Z.rem sf 5 =? 0) && (nr =? _)); [|apply unarmed_ret].
    apply unarmed_bind; [apply unarmed_array_get|]. intros sn.
    apply unarmed_printf. }
  intros _. apply unarmed_bind; [apply unarmed_sem_operation|]. intros _.
  apply unarmed_bind; [apply unarmed_via, unarmed_shm_write|]. intros _.
  apply unarmed_bind; [apply unarmed_via, unarmed_shm_read|]. intros rd.
  apply unarmed_bind; [apply unarmed_int_incr|]. intros rd'.
  apply unarmed_bind; [apply unarmed_via, unarmed_shm_write|]. intros _.
  apply unarmed_bind; [apply unarmed_sem_operation|]. intros _.
  apply unarmed_ret.
Qed.

Lemma unarmed_watchdog_iteration r l : unarmed_run (watchdog_iteration E r l).
Proof.
  unfold watchdog_iteration.
  apply unarmed_bind; [apply unarmed_msgrcv|]. intros [|data].
  { apply unarmed_bind; [apply unarmed_perror|]. intros _.
    apply unarmed_stop. discriminate. }
  destruct (sscanf_d data) as [| |n|]; simpl.
  - apply unarmed_bind; [apply unarmed_perror|]. intros _. apply unarmed_ret.
  - apply unarmed_watchdog_score.
  - apply unarmed_watchdog_score.
  - apply unarmed_stop. discriminate.
Qed.

Lemma unarmed_watchdog_test l : unarmed_run (watchdog_test E l).
Proof.
  unfold watchdog_test. destruct (wd_winner l =? -1); [|apply unarmed_ret].
  apply unarmed_bind; [apply unarmed_via, unarmed_shm_read|].
  intros rd. apply unarmed_ret.
Qed.

Lemma unarmed_watchdog_loop inbox :
  forall l, unarmed_run (watchdog_loop E inbox l).
Proof.
  induction inbox as [|r inbox IH]; intros l; simpl.
  - apply unarmed_bind; [apply unarmed_sched|]. intros _. apply unarmed_block.
  - apply unarmed_bind; [apply unarmed_watchdog_iteration|]. intros l'.
    apply unarmed_bind; [apply unarmed_watchdog_test|].
    intros [|]; [apply IH|apply unarmed_ret].
Qed.

Lemma unarmed_watchdog_code inbox : unarmed_run (watchdog_code E inbox).
Proof.
  unfold watchdog_code, getpid, watchdog_broadcast.
  apply unarmed_bind; [apply unarmed_ret|]. intros p.
  apply unarmed_bind; [apply unarmed_printf|]. intros _.
  destruct (lt_0 E (watchdog_client E)).
  { apply unarmed_bind; [apply unarmed_perror|]. intros _. apply unarmed_ret. }
  apply unarmed_bind; [apply unarmed_watchdog_loop|]. intros l.
  apply unarmed_bind; [apply unarmed_printf|]. intros _.
  induction client_indices as [|i idx IH]; simpl; [apply unarmed_ret|].
  apply unarmed_bind; [|intros _; exact IH].
  apply unarmed_bind; [apply unarmed_via, unarmed_shm_read|]. intros q.
  apply unarmed_kill.
Qed.

(** ** What a broadcast that returns has done *)

Lemma shm_read_returns f v w w' :
  shm_read E f w = Ret v w' -> w' = log (EvShmRead f v) (tick E w).
Proof.
  unfold shm_read, bind, sched. destruct (signal_due E w).
  - rewrite deliver_eq. discriminate.
  - simpl. destruct (load (others E (clock w) (shm w)) f) as [v'|]; simpl.
    + intros [= <- <-]. reflexivity.
    + discriminate.
Qed.

(** A [kill] that returns was sent to another process. *)
Lemma kill_returns p w w' :
  kill_SIGUSR1 E p w = Ret tt w' ->
  reaches_self E p = false /\ w' = log (EvKill p SIGUSR1) (tick E w).
Proof.
  unfold kill_SIGUSR1, bind, sched. destruct (signal_due E w).
  - rewrite deliver_eq. discriminate.
  - simpl. destruct (reaches_self E p).
    + rewrite deliver_eq. discriminate.
    + intros [= <-]. auto.
Qed.

(** An access through the pointer of the process that returns was made
    with the segment attached. *)
Lemma via_returns {A} (m : Proc A) w a w' :
  via E (shmat E) m w = Ret a w' -> attached E /\ m w = Ret a w'.
Proof.
  unfold attached, shmat. destruct (shmat_ok E); simpl; [auto|].
  unfold bind, sched, stop. destruct (signal_due E w).
  - rewrite deliver_eq. discriminate.
  - discriminate.
Qed.

Lemma broadcast_returns (idx : list nat) :
  forall w w',
    for_each idx (fun i =>
      p <- via E (watchdog_client E) (shm_read E (Fclientpids (Z.of_nat i))) ;;
      kill_SIGUSR1 E p) w = Ret tt w' ->
    exists evs,
      trace w' = trace w ++ evs /\
      length (signals_sent evs) = length idx /\
      strangersb E (signals_sent evs) = true /\
      (idx <> [] -> attached E).
Proof.
  induction idx as [|i idx IH]; intros w w'; simpl.
  - intros [= <-]. exists []. rewrite app_nil_r. repeat split. congruence.
  - unfold bind at 1. unfold bind at 1.
    destruct (via E _ _ w) as [p w1|] eqn:Hr; [|discriminate].
    destruct (kill_SIGUSR1 E p w1) as [[] w2|] eqn:Hk; [|discriminate].
    apply via_returns in Hr as [HS Hr].
    apply shm_read_returns in Hr. apply kill_returns in Hk as [Hp Hk].
    subst w1 w2.
    intros Hrest. destruct (IH _ _ Hrest) as (evs & Ht & Hl & Hstr & _).
    exists ([EvShmRead (Fclientpids (Z.of_nat i)) p; EvKill p SIGUSR1] ++ evs).
    split; [|split; [|split]].
    + rewrite Ht. simpl. rewrite <- !app_assoc. reflexivity.
    + rewrite signals_sent_app, length_app, Hl. reflexivity.
    + rewrite signals_sent_app. simpl. rewrite Hp. exact Hstr.
    + intros _. exact HS.
Qed.

End Unarmed.

(** * LOCK and UNLOCK are called in turn *)

Lemma turns_snoc evs e : turns (evs ++ [e]) = turn_step (turns evs) e.
Proof. unfold turns. rewrite fold_left_app. reflexivity. Qed.

Lemma turn_step_other st e : not_semop e -> turn_step st e = st.
Proof. destruct st, e; simpl; auto; contradiction. Qed.

Section Turns.

Variable E : env.
Variable w0 : world.

Lemma taking_turns_log b b' e w :
  turn_step (Some b) e = Some b' ->
  taking_turns b w0 w -> taking_turns b' w0 (log e w).
Proof.
  intros Hst (evs & Ht & Hs). exists (evs ++ [e]). split.
  - simpl. rewrite Ht, app_assoc. reflexivity.
  - rewrite turns_snoc, Hs. exact Hst.
Qed.

Lemma stable_taking_turns b : stable E not_semop (taking_turns b w0).
Proof.
  split.
  - intros w H. exact H.
  - intros e w He H. apply (taking_turns_log b b e w); [|exact H].
    apply turn_step_other, He.
  - intros w r h H. exact H.
Qed.

Lemma in_turns_of b w : taking_turns b w0 w -> in_turns w0 w.
Proof. intros H. exists b. exact H. Qed.

Lemma turns_kept {A} (m : Proc A) b :
  preserves (taking_turns b w0) m ->
  hoare (taking_turns b w0) m (fun _ => taking_turns b w0) (in_turns w0).
Proof. intros H. apply hoare_kept; [exact H | apply in_turns_of]. Qed.

Lemma turns_shm_write b f v :
  preserves (taking_turns b w0) (shm_write E f v).
Proof.
  apply preserves_bind;
    [eapply stable_sched; apply (stable_taking_turns b)|].
  intros _ w H. destruct (store (shm w) f v) as [g|]; simpl; [|exact H].
  apply (taking_turns_log b b (EvShmWrite f v)
           (mk_world g (trace w) (clock w) (rng w) (handler w)));
    [reflexivity|exact H].
Qed.

Lemma turns_sem_operation (b : bool) op :
  op = (if b then UNLOCK else LOCK) ->
  hoare (taking_turns b w0) (sem_operation E op)
        (fun _ => taking_turns (negb b) w0) (in_turns w0).
Proof.
  intros Hop w Hw.
  assert (Hst : forall ok, turn_step (Some b) (EvSemop op ok) = Some (negb b)).
  { intros ok. simpl. rewrite Hop, Z.eqb_refl. reflexivity. }
  pose proof (st_tick _ _ _ (stable_taking_turns b) w Hw) as Hw1.
  apply wp_sem_operation.
  - intros _. apply (in_turns_of b), Hw1.
  - intros _ _. apply (taking_turns_log b (negb b) _ _ (Hst true) Hw1).
  - intros _ _ w1 ->.
    pose proof (taking_turns_log b (negb b) _ _ (Hst false) Hw1) as Hw2.
    pose proof (st_tick _ _ _ (stable_taking_turns (negb b)) _ Hw2) as Hw3.
    split.
    + intros _. apply (in_turns_of (negb b)), Hw3.
    + intros _.
      apply (taking_turns_log (negb b) (negb b) (EvPerror "semop") _ eq_refl Hw3).
Qed.

(** ** The clients *)

Lemma turns_client_iteration nr l :
  hoare (taking_turns false w0) (client_iteration E nr l)
        (fun _ => taking_turns false w0) (in_turns w0).
Proof.
  pose proof (stable_taking_turns false) as Hf.
  pose proof (stable_taking_turns true) as Ht.
  unfold client_iteration. eapply hoare_bind.
  { apply turns_kept. eapply stable_random_sleep; [exact Hf|exact Logic.I]. }
  intros ?. eapply hoare_bind.
  { apply turns_kept. eapply stable_msgsnd; [exact Hf|intros; exact Logic.I]. }
  intros [|].
  - eapply hoare_bind; [apply (turns_sem_operation false LOCK); reflexivity|].
    intros ?. eapply hoare_bind.
    { apply turns_kept. eapply stable_via; [exact Ht|].
      eapply stable_shm_read; [exact Ht|intros; exact Logic.I]. }
    intros actual. eapply hoare_bind;
      [apply (turns_sem_operation true UNLOCK); reflexivity|].
    intros ?. apply hoare_ret. intros w H. exact H.
  - eapply hoare_bind.
    { apply turns_kept. eapply stable_perror; [exact Hf|exact Logic.I]. }
    intros ?. apply hoare_ret. intros w H. exact H.
Qed.

Lemma turns_client_loop n nr l :
  hoare (taking_turns false w0) (client_loop E n nr l)
        (fun _ => taking_turns false w0) (in_turns w0).
Proof.
  revert l. induction n as [|n IH]; intros l; simpl.
  - apply hoare_ret. intros w H. exact H.
  - eapply hoare_bind; [apply turns_client_iteration|]. intros l'. apply IH.
Qed.

Lemma turns_client_process i :
  hoare (taking_turns false w0) (client_process E i)
        (fun _ => taking_turns false w0) (in_turns w0).
Proof.
  pose proof (stable_taking_turns false) as Hf.
  unfold client_process, client_register, client_run, client_code, getpid.
  apply (hoare_bind _ _ _ (fun _ => taking_turns false w0)).
  { eapply hoare_bind; [apply (turns_sem_operation false LOCK); reflexivity|].
    intros ?. apply hoare_bind_ret.
    eapply hoare_bind; [apply turns_kept, turns_shm_write|].
    intros ?. eapply hoare_bind;
      [apply (turns_sem_operation true UNLOCK); reflexivity|].
    intros ?. apply hoare_ret. intros w H. exact H. }
  intros ?. eapply hoare_bind.
  { apply turns_kept. eapply stable_random_sleep; [exact Hf|exact Logic.I]. }
  intros ?. apply (hoare_bind _ _ _ (fun _ => taking_turns false w0));
    [|intros ?; apply hoare_stop, (in_turns_of false)].
  apply hoare_bind_ret. eapply hoare_bind.
  { apply turns_kept. eapply stable_printf; [exact Hf|exact Logic.I]. }
  intros ?. eapply hoare_bind.
  { apply turns_kept. eapply stable_sigaction; [exact Hf|exact Logic.I]. }
  intros ok'. eapply hoare_bind.
  { instantiate (1 := fun _ => taking_turns false w0). destruct ok'.
    - apply hoare_ret. intros w H. exact H.
    - apply turns_kept. eapply stable_perror; [exact Hf|exact Logic.I]. }
  intros ?. eapply hoare_bind.
  { instantiate (1 := fun _ => taking_turns false w0).
    destruct (lt_0 E (game_main E)); [|apply hoare_ret; intros w H; exact H].
    eapply hoare_bind.
    - apply turns_kept. eapply stable_perror; [exact Hf|exact Logic.I].
    - intros ?. apply hoare_stop, (in_turns_of false). }
  intros ?. eapply hoare_bind; [apply turns_client_loop|].
  intros ?. apply turns_kept. eapply stable_printf; [exact Hf|exact Logic.I].
Qed.

(** ** The watchdog *)

Lemma turns_watchdog_iteration r l :
  hoare (taking_turns false w0) (watchdog_iteration E r l)
        (fun _ => taking_turns false w0) (in_turns w0).
Proof.
  pose proof (stable_taking_turns false) as Hf.
  pose proof (stable_taking_turns true) as Ht.
  eapply hoare_weaken;
    [| | |apply (hoare_watchdog_iteration E
                  (taking_turns false w0) (taking_turns true w0)
                  (taking_turns true w0) (taking_turns true w0)
                  (taking_turns false w0) (fun _ => taking_turns true w0)
                  (in_turns w0))].
  - intros w H. exact H.
  - intros l' w Hw. destruct r as [|data]; [contradiction|].
    destruct (scan_return (sscanf_d data) <? 0); exact Hw.
  - intros w H. exact H.
  - intros s. apply turns_kept. eapply stable_printf; [exact Hf|exact Logic.I].
  - apply (in_turns_of false).
  - intros rd. apply (in_turns_of true).
  - intros w H. apply (in_turns_of true), Ht, H.
  - intros w H. apply (in_turns_of true), Ht, H.
  - intros rd w H. apply (in_turns_of true), Ht, H.
  - apply (turns_sem_operation false LOCK). reflexivity.
  - intros v. apply turns_kept, turns_shm_write.
  - apply turns_kept. eapply stable_shm_read; [exact Ht|intros; exact Logic.I].
  - intros rd. apply turns_kept, turns_shm_write.
  - apply (turns_sem_operation true UNLOCK). reflexivity.
  - intros r'. apply turns_kept. eapply stable_msgrcv; [exact Hf|exact Logic.I].
  - intros s. apply turns_kept. eapply stable_perror; [exact Hf|exact Logic.I].
Qed.

Lemma turns_watchdog_loop inbox :
  forall l, hoare (taking_turns false w0) (watchdog_loop E inbox l)
                  (fun _ => taking_turns false w0) (in_turns w0).
Proof.
  pose proof (stable_taking_turns false) as Hf.
  induction inbox as [|r inbox IH]; intros l; simpl.
  - apply turns_kept. apply preserves_bind.
    + eapply stable_sched; exact Hf.
    + intros _. eapply stable_block; exact Hf.
  - eapply hoare_bind; [apply turns_watchdog_iteration|].
    intros l'. apply (hoare_bind _ _ _ (fun _ => taking_turns false w0)).
    + apply turns_kept. unfold watchdog_test.
      destruct (wd_winner l' =? -1); [|apply preserves_ret].
      apply preserves_bind; [|intros rd; apply preserves_ret].
      eapply stable_via; [exact Hf|].
      eapply stable_shm_read; [exact Hf|intros; exact Logic.I].
    + intros [|]; [apply IH | apply hoare_ret; intros w H; exact H].
Qed.

Lemma turns_watchdog_process inbox :
  hoare (taking_turns false w0) (watchdog_process E inbox)
        (fun _ => taking_turns false w0) (in_turns w0).
Proof.
  pose proof (stable_taking_turns false) as Hf.
  unfold watchdog_process, watchdog_code, getpid.
  apply (hoare_bind _ _ _ (fun _ => taking_turns false w0));
    [|intros ?; apply hoare_stop, (in_turns_of false)].
  apply hoare_bind_ret. eapply hoare_bind.
  { apply turns_kept. eapply stable_printf; [exact Hf|exact Logic.I]. }
  intros ?. destruct (lt_0 E (watchdog_client E)).
  { apply turns_kept. apply preserves_bind.
    - eapply stable_perror; [exact Hf|exact Logic.I].
    - intros _. apply preserves_ret. }
  eapply hoare_bind; [apply turns_watchdog_loop|].
  intros l. apply turns_kept. apply preserves_bind.
  - eapply stable_printf; [exact Hf|exact Logic.I].
  - intros _. apply preserves_for_each. intros i. apply preserves_bind.
    + eapply stable_via; [exact Hf|].
      eapply stable_shm_read; [exact Hf|intros; exact Logic.I].
    + intros p. eapply stable_kill; [exact Hf|exact Logic.I].
Qed.

End Turns.

(** * Further results: the text of the messages *)

(** X1.  The text [snprintf] writes with [%d] for a client number
    (lines 246-248) is read back by the [sscanf] of the watchdog (line 183)
    as that number, for every value of an [int], negative ones included:
    the call returns 1, so that the guard of line 183 lets the message
    through, and stores the number. *)
Theorem message_text_reads_back (n : Z) :
  INT_MIN <= n <= INT_MAX ->
  sscanf_d (client_message n) = ScanInt n /\
  scan_return (sscanf_d (client_message n)) = 1 /\
  skip_spaces (client_message n) = client_message n.
Proof.
  intros Hn. pose proof (sscanf_dec n Hn) as Hs.
  fold (client_message n) in Hs. split; [exact Hs|].
  split; [rewrite Hs; reflexivity|].
  unfold client_message, dec.
  destruct (Z.to_int n) as [d|d]; simpl NilZero.string_of_int.
  - destruct (dec_digits d) as (c & t & -> & Hc & _).
    simpl. rewrite (proj1 (digit_is_plain c Hc)). reflexivity.
  - reflexivity.
Qed.

Lemma message_text_reads_back_witness :
  sscanf_d (client_message 11) = ScanInt 11 /\
  sscanf_d (client_message INT_MIN) = ScanInt INT_MIN.
Proof.
  split.
  - apply (message_text_reads_back 11). unfold INT_MIN, INT_MAX. lia.
  - apply (message_text_reads_back INT_MIN). unfold INT_MIN, INT_MAX. lia.
Defined.

(** X2.  Wherever the loop stands, a message as client [nr] writes it, if
    the iteration returns, is counted for [nr] and for nobody else: [nr] is
    a client number, its score goes up by one and every other score stays
    as it was. *)
Theorem message_counts_for_its_sender
    (E : env) (w0 : world) (ms : list rcv) (l : wd_locals) (w : world)
    (nr : Z) (l' : wd_locals) (w' : world) :
  wd_at E wd_init w0 ms l w ->
  INT_MIN <= nr <= INT_MAX ->
  watchdog_iteration E (RcvMsg (client_message nr)) l w = Ret l' w' ->
  0 <= nr < MAXCLIENTS /\
  wd_client_nr l' = Some nr /\
  score_of (wd_scores l') nr = score_of (wd_scores l) nr + 1 /\
  forall j, 0 <= j -> j <> nr ->
            score_of (wd_scores l') j = score_of (wd_scores l) j.
Proof.
  intros Hat Hnr Hit.
  pose proof (wd_at_ok E _ _ _ _ _ wd_init_ok Hat) as Hok.
  destruct (iteration_counts_sender E l w nr l' w' Hok Hnr Hit)
    as (Hr & Hc & Hs).
  split; [exact Hr|]. split; [exact Hc|]. rewrite Hs. split.
  - apply score_of_insert_eq. destruct Hok as (Hlen & _). rewrite Hlen.
    unfold MAXCLIENTS in *. lia.
  - intros j Hj Hne. apply score_of_insert_ne; lia.
Qed.

Lemma message_counts_for_its_sender_witness :
  let l' := mk_wd [0; 1; 0; 0; 0; 0; 0; 0; 0; 0; 0; 0] 1 (-1) (Some 1) in
  0 <= 1 < MAXCLIENTS /\
  wd_client_nr l' = Some 1 /\
  score_of (wd_scores l') 1 = score_of (wd_scores wd_init) 1 + 1 /\
  forall j, 0 <= j -> j <> 1 ->
            score_of (wd_scores l') j = score_of (wd_scores wd_init) j.
Proof.
  intros l'.
  apply (message_counts_for_its_sender calm_env (init_world init_game) []
           wd_init (init_world init_game) 1 l'
           (world_of (watchdog_iteration calm_env (RcvMsg (client_message 1))
                        wd_init (init_world init_game)))).
  - constructor.
  - unfold INT_MIN, INT_MAX. lia.
  - vm_compute. reflexivity.
Defined.

(** * Further results: the watchdog *)

(** X3.  [main] leaves 0 in [runs_done], and no other process stores into
    it.  Then each time the loop starts its body [runs_done] is the sum of
    the twelve scores. *)
Theorem scores_add_up_to_runs_done
    (E : env) (w0 : world) (ms : list rcv) (l : wd_locals) (w : world) :
  keeps_runs_done E -> tally 0 w0 -> wd_at E wd_init w0 ms l w ->
  runs_done (shm w) = total (wd_scores l).
Proof.
  intros Hkeep H0 Hat.
  destruct (total_wd_at E Hkeep _ _ _ _ _ Hat 0%nat wd_init_ok H0 eq_refl)
    as (_ & k & [Hk _] & Hsum).
  rewrite Hk. exact Hsum.
Qed.

Lemma scores_add_up_to_runs_done_witness :
  let l1 := mk_wd [0; 1; 0; 0; 0; 0; 0; 0; 0; 0; 0; 0] 1 (-1) (Some 1) in
  let v1 := world_of (watchdog_iteration calm_env (RcvMsg "1") wd_init
                        (init_world init_game)) in
  let w1 := world_of (watchdog_test calm_env l1 v1) in
  runs_done (shm w1) = total (wd_scores l1).
Proof.
  intros l1 v1 w1.
  apply (scores_add_up_to_runs_done calm_env (init_world init_game)
           [RcvMsg "1"] l1 w1).
  - intros n g. reflexivity.
  - split; reflexivity.
  - apply (wd_at_next calm_env wd_init (init_world init_game) (RcvMsg "1")
             l1 v1 w1 [] l1 w1);
      [vm_compute; reflexivity | vm_compute; reflexivity | apply wd_at_start].
Defined.

(** X4.  Under the same conditions the loop returns only with a winner:
    a client number whose score is [MSGNR], every other score being
    smaller.  [runs_done] is then the sum of the scores and below
    [MAXRUNS]: the bound of line 214 is never what ends the loop. *)
Theorem loop_returns_with_a_winner
    (E : env) (inbox : list rcv) (w0 : world) (l' : wd_locals) (w' : world) :
  keeps_runs_done E -> tally 0 w0 ->
  watchdog_loop E inbox wd_init w0 = Ret l' w' ->
  0 <= wd_winner l' < MAXCLIENTS /\
  score_of (wd_scores l') (wd_winner l') = MSGNR /\
  (forall j, 0 <= j < MAXCLIENTS -> j <> wd_winner l' ->
             score_of (wd_scores l') j < MSGNR) /\
  runs_done (shm w') = total (wd_scores l') /\
  runs_done (shm w') < MAXRUNS.
Proof.
  intros Hkeep H0 Hloop.
  pose proof (loop_returns_with_winner E Hkeep inbox w0 l' w' H0 Hloop) as Hw.
  destruct (watchdog_loop_returns E inbox wd_init w0 l' w' Hloop)
    as (ms & r & rest & l & w & w1 & _ & Hat & Hit & Ht).
  destruct (total_wd_at E Hkeep _ _ _ _ _ Hat 0%nat wd_init_ok H0 eq_refl)
    as (Hok & k & Hk & Hsum).
  destruct (total_iteration E Hkeep r l w l' w1 k Hok Hk Hsum Hit)
    as (k1 & Hk1 & Hsum1).
  rewrite (watchdog_test_winner E l' w1 Hw) in Ht. injection Ht as <-.
  destruct (iteration_from_ok E r l w l' w1 Hok Hit)
    as (data & _ & [[_ ->]|(_ & nr & _ & Hnr & Hs & Hl & _ & Hyes)]).
  { destruct Hw. apply Hok. }
  destruct (Hyes Hw) as (H1 & H2 & H3 & H4).
  destruct Hl as (Hfr & _).
  destruct Hk1 as [Hrd _].
  repeat split.
  - rewrite H1. apply Hfr.
  - rewrite H1. apply Hfr.
  - rewrite H1, <- H2. exact H3.
  - intros j Hj Hne. apply H4; [exact Hj|]. rewrite H2, <- H1. exact Hne.
  - rewrite Hrd. exact Hsum1.
  - rewrite Hrd, Hsum1, Hs.
    destruct Hok as (Hlen & Hall & _).
    rewrite (total_insert _ _ (score_of (wd_scores l) nr))
      by (apply score_of_some; assumption).
    pose proof (total_below _ _ Hall) as Hle. rewrite Hlen in Hle.
    unfold MAXRUNS, MSGNR, MAXCLIENTS in *. lia.
Qed.

Lemma loop_returns_with_a_winner_witness :
  let l' := mk_wd [100; 0; 0; 0; 0; 0; 0; 0; 0; 0; 0; 0] 0 0 (Some 0) in
  let w' := world_of (watchdog_loop calm_env (replicate 100 (RcvMsg "0"))
                        wd_init (init_world init_game)) in
  0 <= wd_winner l' < MAXCLIENTS /\
  score_of (wd_scores l') (wd_winner l') = MSGNR /\
  (forall j, 0 <= j < MAXCLIENTS -> j <> wd_winner l' ->
             score_of (wd_scores l') j < MSGNR) /\
  runs_done (shm w') = total (wd_scores l') /\
  runs_done (shm w') < MAXRUNS.
Proof.
  intros l' w'.
  apply (loop_returns_with_a_winner calm_env (replicate 100 (RcvMsg "0"))
           (init_world init_game) l' w').
  - intros n g. reflexivity.
  - split; reflexivity.
  - vm_compute. reflexivity.
Defined.

(** X5.  The watchdog exits with EXIT_FAILURE only when [msgrcv] fails:
    the failed receive and its [perror] are then the last things it did,
    and before them it did nothing but the events of its loop, so that no
    signal was sent to any client.  When no signal arrives, a failing
    [msgrcv] does end the loop in this way, whatever was received before. *)
Theorem failing_msgrcv_ends_the_watchdog (E : env) :
  (forall inbox w w',
     watchdog_process E inbox w = Stop (Exit EXIT_FAILURE) w' ->
     exists evs,
       trace w' = trace w ++ evs ++
                  [EvMsgrcv RcvErr; EvPerror "[watchdog] msgrcv"] /\
       Forall loop_event evs /\ signals_sent evs = []) /\
  (quiet E ->
   forall l0 w0 ms l w rest,
     wd_at E l0 w0 ms l w ->
     watchdog_loop E (ms ++ RcvErr :: rest) l0 w0 =
     Stop (Exit EXIT_FAILURE)
          (log (EvPerror "[watchdog] msgrcv")
               (tick E (log (EvMsgrcv RcvErr) (tick E w))))).
Proof.
  split.
  - intros inbox w w' H.
    destruct (process_exit_failure E inbox w w' H) as (evs & Ht & Hall).
    exists evs. split; [exact Ht|]. split; [exact Hall|].
    apply loop_events_send_nothing, Hall.
  - intros HQ l0 w0 ms l w rest Hat.
    exact (loop_msgrcv_error E l0 w0 ms l w rest HQ Hat).
Qed.

Lemma failing_msgrcv_ends_the_watchdog_witness :
  (exists evs,
     trace (world_of (watchdog_process calm_env [RcvMsg "1"; RcvErr]
                        (init_world init_game))) =
     trace (init_world init_game) ++ evs ++
     [EvMsgrcv RcvErr; EvPerror "[watchdog] msgrcv"] /\
     Forall loop_event evs /\ signals_sent evs = []) /\
  watchdog_loop calm_env ([] ++ RcvErr :: [RcvMsg "1"]) wd_init
    (init_world init_game) =
  Stop (Exit EXIT_FAILURE)
       (log (EvPerror "[watchdog] msgrcv")
            (tick calm_env (log (EvMsgrcv RcvErr)
                              (tick calm_env (init_world init_game))))).
Proof.
  split.
  - apply (proj1 (failing_msgrcv_ends_the_watchdog calm_env)
             [RcvMsg "1"; RcvErr] (init_world init_game)).
    vm_compute. reflexivity.
  - exact (proj2 (failing_msgrcv_ends_the_watchdog calm_env) eq_refl
             wd_init (init_world init_game) [] wd_init (init_world init_game)
             [RcvMsg "1"] (wd_at_start _ _ _)).
Defined.

(** X6.  When no signal comes from another process, the other processes
    leave the segment alone and the segment is attached, the broadcast of
    lines 218-221 goes through the slots of [clientpids] in order and sends
    SIGUSR1 to the value of each, whatever it is, until one of them reaches
    the watchdog itself: its own pid, or the 0 of a slot in which no client
    has stored its pid yet, which stands for the process group of the
    sender.  With none of these in the table the broadcast returns, having
    signalled the twelve slots.  Else it ends at the first such slot as a
    process ends that gets SIGUSR1 (the watchdog, which installs no handler,
    is killed), and the slots after that one get no signal.  The segment is
    left as it was. *)
Theorem broadcast_follows_the_pid_table (E : env) (w : world) :
  quiet E -> alone E -> attached E -> pids_wf w ->
  exists w' evs,
    watchdog_broadcast E w =
      (if strangersb E (clientpids (shm w)) then Ret tt w'
       else Stop (sig_halt w') w') /\
    shm w' = shm w /\
    handler w' = handler w /\
    trace w' = trace w ++ evs /\
    signals_sent evs = up_to_self E (clientpids (shm w)).
Proof.
  intros HQ HA HS Hwf.
  destruct (broadcast_signals E HQ HA HS client_indices w
              client_indices_in_range Hwf) as (w' & evs & H1 & H2 & H3 & H4 & H5).
  rewrite (all_slots _ Hwf) in H1, H5.
  exists w', evs. auto.
Qed.

(** Two clients had registered when the watchdog took its first step, and
    no other has since; client 0 has won.  The broadcast signals the two,
    then it sends the signal to pid 0 and the watchdog is killed by it:
    the other nine slots are not looked at, and the process does not get
    to its [exit].  With the twelve clients registered the broadcast
    returns, and each has got the signal. *)
Lemma broadcast_follows_the_pid_table_witness :
  let inbox := replicate 100 (RcvMsg (client_message 0)) in
  let w2 := init_world (mk_game 0 0 (4243 :: 4244 :: replicate 10 0)) in
  let w12 := init_world (mk_game 0 0 client_pids) in
  (watchdog_process calm_env inbox w2 =
     (watchdog_broadcast calm_env ;; exit EXIT_SUCCESS)
       (at_broadcast calm_env inbox w2) /\
   exists w' evs,
     watchdog_broadcast calm_env (at_broadcast calm_env inbox w2)
       = Stop (KilledBy SIGUSR1) w' /\
     trace w' = trace (at_broadcast calm_env inbox w2) ++ evs /\
     signals_sent evs = [4243; 4244; 0]) /\
  (watchdog_process calm_env inbox w12 =
     (watchdog_broadcast calm_env ;; exit EXIT_SUCCESS)
       (at_broadcast calm_env inbox w12) /\
   exists w' evs,
     watchdog_broadcast calm_env (at_broadcast calm_env inbox w12)
       = Ret tt w' /\
     trace w' = trace (at_broadcast calm_env inbox w12) ++ evs /\
     signals_sent evs = client_pids).
Proof.
  intros inbox w2 w12. split.
  - split; [vm_compute; reflexivity|].
    destruct (broadcast_follows_the_pid_table calm_env
                (at_broadcast calm_env inbox w2)
                eq_refl (fun _ _ => eq_refl) eq_refl
                ltac:(vm_compute; reflexivity))
      as (w' & evs & H1 & Hs & H3 & H4 & H5).
    exists w', evs. split; [|split; [exact H4|exact H5]].
    rewrite H1. unfold sig_halt. rewrite H3. reflexivity.
  - split; [vm_compute; reflexivity|].
    destruct (broadcast_follows_the_pid_table calm_env
                (at_broadcast calm_env inbox w12)
                eq_refl (fun _ _ => eq_refl) eq_refl
                ltac:(vm_compute; reflexivity))
      as (w' & evs & H1 & _ & _ & H4 & H5).
    exists w', evs. split; [exact H1|]. split; [exact H4|exact H5].
Defined.

(** X7.  The segment starts with 0 in [frontrunner], and no other process
    stores into it.  Then each time the loop starts its body the segment
    names the watchdog's own frontrunner, who is the lowest-numbered client
    among those with the greatest score. *)
Theorem segment_names_the_leader
    (E : env) (w0 : world) (ms : list rcv) (l : wd_locals) (w : world) :
  keeps_frontrunner E -> frontrunner (shm w0) = 0 ->
  wd_at E wd_init w0 ms l w ->
  frontrunner (shm w) = wd_frontrunner l /\
  leads (wd_scores l) (frontrunner (shm w)).
Proof.
  intros HF H0 Hat.
  pose proof (publishes_wd_at E HF _ _ _ _ _ Hat H0) as Hp.
  unfold publishes in Hp. split; [exact Hp|]. rewrite Hp.
  apply (leads_wd_at E _ _ _ _ _ Hat wd_init_ok leads_wd_init).
Qed.

Lemma segment_names_the_leader_witness :
  let l1 := mk_wd [0; 1; 0; 0; 0; 0; 0; 0; 0; 0; 0; 0] 1 (-1) (Some 1) in
  let v1 := world_of (watchdog_iteration calm_env (RcvMsg "1") wd_init
                        (init_world init_game)) in
  let w1 := world_of (watchdog_test calm_env l1 v1) in
  frontrunner (shm w1) = wd_frontrunner l1 /\
  leads (wd_scores l1) (frontrunner (shm w1)).
Proof.
  intros l1 v1 w1.
  apply (segment_names_the_leader calm_env (init_world init_game)
           [RcvMsg "1"] l1 w1).
  - intros n g. reflexivity.
  - reflexivity.
  - apply (wd_at_next calm_env wd_init (init_world init_game) (RcvMsg "1")
             l1 v1 w1 [] l1 w1);
      [vm_compute; reflexivity | vm_compute; reflexivity | apply wd_at_start].
Defined.

(** X8.  Whatever the environment does and however the watchdog process
    ends, it has only done what [watchdog_event] lists: it stores into
    [frontrunner] and [runs_done] and never into a slot of [clientpids], it
    reads [runs_done] and the slots but never [frontrunner], it sends no
    message, installs no handler, does not sleep, and the only signal it
    sends is SIGUSR1. *)
Theorem watchdog_leaves_the_pid_table_alone
    (E : env) (inbox : list rcv) (w : world) :
  emitted watchdog_event w (world_of (watchdog_process E inbox w)).
Proof.
  apply (emitted_watchdog_process E watchdog_event w inbox (fun e H => H) w).
  apply emitted_refl.
Qed.

(** X17.  A watchdog process that starts without a handler ends by
    [exit(EXIT_SUCCESS)] only at line 106, after [watchdog_code] has
    returned, and that in one of two ways.  Either its attachment has
    failed and the test of line 169 has seen it: then it has reported this
    after its first line and done nothing else, neither received a message
    nor sent a signal.  Or the segment is attached: after its first line it
    has done only events of its loop, sending no signal, then it has
    printed the result, and after that it has sent SIGUSR1 [MAXCLIENTS]
    times, each time to another process.  A SIGUSR1 that reaches the
    watchdog itself, its own included, kills it: there is no way to this
    exit status that leaves out a part of the broadcast. *)
Theorem watchdog_exits_after_the_broadcast
    (E : env) (inbox : list rcv) (w w' : world) :
  handler w = false ->
  watchdog_process E inbox w = Stop (Exit EXIT_SUCCESS) w' ->
  (shmat_ok E = false /\ minus_one_lt_0 E = true /\
   trace w' =
     trace w ++
     [EvPrintf ("[watchdog] starting with pid " ++ dec (pid E) ++ nl);
      EvPerror "[watchdog] shmat"]) \/
  (attached E /\
   exists l evs1 evs2,
     trace w' =
       trace w ++
       [EvPrintf ("[watchdog] starting with pid " ++ dec (pid E) ++ nl)] ++
       evs1 ++
       [EvPrintf ("[watchdog] finished, winner: client "
                  ++ dec (wd_winner l) ++ nl)] ++
       evs2 /\
     Forall loop_event evs1 /\
     signals_sent evs1 = [] /\
     length (signals_sent evs2) = Z.to_nat MAXCLIENTS /\
     strangersb E (signals_sent evs2) = true).
Proof.
  intros Hh Hp. unfold watchdog_process in Hp. unfold bind at 1 in Hp.
  pose proof (unarmed_watchdog_code E inbox w Hh) as Hu.
  destruct (watchdog_code E inbox w) as [[] w1|h w1] eqn:Hc.
  2:{ injection Hp as -> _. destruct Hu. reflexivity. }
  injection Hp as <-. revert Hc. unfold watchdog_code, getpid.
  unfold bind at 1. unfold ret at 1. unfold bind at 1.
  destruct (printf E _ w) as [[] wa|] eqn:Hp1; [|discriminate].
  apply (printf_returns E) in Hp1.
  destruct (lt_0 E (watchdog_client E)) eqn:Hlt.
  { unfold bind at 1.
    destruct (perror E _ wa) as [[] wb|] eqn:Hp2; [|discriminate].
    apply (perror_returns E) in Hp2. intros [= <-]. left.
    unfold watchdog_client, shmat, lt_0 in Hlt.
    destruct (shmat_ok E); [discriminate|].
    split; [reflexivity|]. split; [exact Hlt|].
    rewrite Hp2, Hp1. simpl. rewrite <- !app_assoc. reflexivity. }
  unfold bind at 1.
  destruct (watchdog_loop E inbox wd_init wa) as [l wb|] eqn:Hl; [|discriminate].
  unfold bind at 1.
  destruct (printf E _ wb) as [[] wc|] eqn:Hp2; [|discriminate].
  apply (printf_returns E) in Hp2.
  intros Hb. apply broadcast_returns in Hb as (evs2 & Ht2 & Hlen & Hstr & HS).
  destruct (hoare_ret_eq _ _ _ _ _ _ _
              (emitted_watchdog_loop E loop_event wa (fun e H => H) inbox wd_init)
              (emitted_refl _ wa) Hl) as (evs1 & Ht1 & Hall).
  right. split.
  { apply HS. unfold client_indices, MAXCLIENTS. discriminate. }
  exists l, evs1, evs2. split; [|split; [|split; [|split]]].
  - rewrite Ht2, Hp2. simpl. rewrite Ht1, Hp1. simpl.
    rewrite <- !app_assoc. reflexivity.
  - exact Hall.
  - apply loop_events_send_nothing, Hall.
  - rewrite Hlen. unfold client_indices. apply length_seq.
  - exact Hstr.
Qed.

(** The race of client 0 alone, the twelve clients having registered. *)
Lemma watchdog_exits_after_the_broadcast_witness :
  let E := registered_env in
  let w' := world_of (watchdog_process E (replicate 100 (RcvMsg "0"))
                        (init_world init_game)) in
  watchdog_process E (replicate 100 (RcvMsg "0")) (init_world init_game)
    = Stop (Exit EXIT_SUCCESS) w' /\
  signals_sent (trace w') = client_pids /\
  exists l evs1 evs2,
    trace w' =
      trace (init_world init_game) ++
      [EvPrintf ("[watchdog] starting with pid " ++ dec (pid E) ++ nl)] ++
      evs1 ++
      [EvPrintf ("[watchdog] finished, winner: client "
                 ++ dec (wd_winner l) ++ nl)] ++
      evs2 /\
    Forall loop_event evs1 /\
    signals_sent evs1 = [] /\
    length (signals_sent evs2) = Z.to_nat MAXCLIENTS /\
    strangersb E (signals_sent evs2) = true.
Proof.
  intros E w'.
  assert (Hrun : watchdog_process E (replicate 100 (RcvMsg "0"))
                   (init_world init_game) = Stop (Exit EXIT_SUCCESS) w')
    by (vm_compute; reflexivity).
  split; [exact Hrun|]. split; [vm_compute; reflexivity|].
  destruct (watchdog_exits_after_the_broadcast E (replicate 100 (RcvMsg "0"))
              (init_world init_game) w' eq_refl Hrun) as [(Hf & _)|(_ & H)].
  - discriminate.
  - exact H.
Defined.

(** * Further results: the clients *)

(** X9.  A client process (lines 122-128 of [main], then [client_code])
    that starts without a handler, in a segment with its twelve slots,
    never returns into the loop of [main]: the [exit] of line 128 ends it
    if nothing else has.  And when it ends, it ends in one of these ways.
    It is killed by SIGUSR1, having installed no handler: the signal came
    during registration, the first sleep or the first [printf], or
    [sigaction] had failed.  It exits with EXIT_SUCCESS, by the handler
    after a successful [sigaction], or after printing its last line.  It
    exits with EXIT_FAILURE after [perror("shmat")], its attachment having
    failed and the test of line 240 having seen it.  Or, that test having
    seen nothing of the failed attachment, it stops at its first access
    through the pointer.  No failure of [semop], [msgsnd] or [sigaction]
    makes it exit with a failure status, and with the segment attached it
    ends by the signal or with EXIT_SUCCESS.  (The calls of [msgsnd] and
    [semop] are taken to return; a client that one of them blocks for ever
    does not end.) *)
Theorem client_ends_by_exit_or_signal (E : env) (i : Z) (w : world) :
  in_clients i = true -> pids_kept E -> pids_wf w -> handler w = false ->
  (forall a w', client_process E i w <> Ret a w') /\
  (forall h w',
     client_process E i w = Stop h w' ->
     exists evs,
       trace w' = trace w ++ evs /\ client_end E i h evs /\
       (attached E -> h = KilledBy SIGUSR1 \/ h = Exit EXIT_SUCCESS)).
Proof.
  intros Hi HK Hwf Hh0.
  assert (Hends : exists h w' evs,
            client_process E i w = Stop h w' /\
            trace w' = trace w ++ evs /\ client_end E i h evs).
  { rewrite client_process_phases. unfold bind at 1.
    destruct (tame_at_outcome never unarmed _ w
                (tame_prelude E never unarmed i (fun _ _ H => H) Hi HK w Hwf))
      as [([] & w1 & Heq & (e1 & Ht1 & Ha1) & Hh1)
         |(h & w1 & Heq & [-> | []] & (e1 & Ht1 & Ha1) & Hh1)];
      rewrite Heq.
    2:{ exists (sig_halt w1), w1, e1. split; [reflexivity|].
        split; [exact Ht1|]. apply client_end_killed; [exact Ha1|].
        rewrite Hh1. exact Hh0. }
    unfold bind at 1.
    destruct (sigaction_outcome E w1)
      as [(w2 & Hs & Ht2 & Hh2)|(w2 & Hs & Ht2 & Hh2)]; rewrite Hs.
    { exists (sig_halt w2), w2, e1. split; [reflexivity|].
      split; [rewrite Ht2; exact Ht1|].
      apply client_end_killed; [exact Ha1|]. rewrite Hh2, Hh1. exact Hh0. }
    rewrite Hh1, Hh0 in Hh2. simpl in Hh2.
    unfold bind at 1.
    destruct (tame_at_outcome never unarmed _ w2
                (tame_client_report E never unarmed i (sigaction_ok E)
                   Logic.I w2))
      as [([] & w3 & Heq3 & (e3 & Ht3 & Ha3) & Hh3)
         |(h & w3 & Heq3 & [-> | []] & (e3 & Ht3 & Ha3) & Hh3)];
      rewrite Heq3.
    2:{ exists (sig_halt w3), w3, (e1 ++ [EvSigaction (sigaction_ok E)] ++ e3).
        split; [reflexivity|]. split.
        - rewrite Ht3, Ht2, Ht1, <- !app_assoc. reflexivity.
        - apply client_end_signal; [exact Ha1|exact Ha3|].
          rewrite Hh3. exact Hh2. }
    unfold bind at 1.
    destruct (client_attach_outcome E w3)
      as [[Hlt Ha]
         |(Hf & Hm & [(w4 & Ha & Ht4 & Hh4)|(w4 & Ha & Ht4 & Hh4)])];
      rewrite Ha.
    - unfold bind at 1.
      destruct (client_tail E i w3) as [[] w5|h w5] eqn:Htail.
      + destruct (client_tail_returns E _ _ _ _ Htail) as (e5 & Ht5 & Ha5).
        exists (Exit EXIT_SUCCESS), w5,
          (e1 ++ [EvSigaction (sigaction_ok E)] ++ e3 ++ e5 ++
           [EvPrintf ("[client " ++ dec i ++ "] finished" ++ nl)]).
        split; [reflexivity|]. split.
        * rewrite Ht5, Ht3, Ht2, Ht1, <- !app_assoc. reflexivity.
        * right. right. left. split; [reflexivity|].
          exists (e1 ++ [EvSigaction (sigaction_ok E)] ++ e3 ++ e5).
          rewrite <- !app_assoc. reflexivity.
      + destruct (tame_client_tail E unarmed i (fun _ _ H => H) w3)
          as ((e5 & Ht5 & Ha5) & Hh5 & Hstop).
        rewrite Htail in Ht5, Hh5. simpl in Ht5, Hh5.
        exists h, w5, (e1 ++ [EvSigaction (sigaction_ok E)] ++ e3 ++ e5).
        split; [reflexivity|]. split.
        * rewrite Ht5, Ht3, Ht2, Ht1, <- !app_assoc. reflexivity.
        * destruct (Hstop h w5 Htail) as [-> | [Hf ->]].
          -- apply client_end_signal;
               [exact Ha1|apply Forall_app; auto|].
             rewrite Hh5, Hh3. exact Hh2.
          -- right. right. right. right. split; [reflexivity|].
             split; [exact Hf|].
             unfold game_main, shmat, lt_0 in Hlt. rewrite Hf in Hlt.
             exact Hlt.
    - exists (sig_halt w4), w4, (e1 ++ [EvSigaction (sigaction_ok E)] ++ e3).
      split; [reflexivity|]. split.
      + rewrite Ht4, Ht3, Ht2, Ht1, <- !app_assoc. reflexivity.
      + apply client_end_signal; [exact Ha1|exact Ha3|].
        rewrite Hh4, Hh3. exact Hh2.
    - exists (Exit EXIT_FAILURE), w4,
        (e1 ++ [EvSigaction (sigaction_ok E)] ++ e3 ++ [EvPerror "shmat"]).
      split; [reflexivity|]. split.
      + rewrite Ht4, Ht3, Ht2, Ht1, <- !app_assoc. reflexivity.
      + right. right. right. left. split; [reflexivity|].
        split; [exact Hf|]. split; [exact Hm|].
        exists (e1 ++ [EvSigaction (sigaction_ok E)] ++ e3).
        rewrite <- !app_assoc. reflexivity. }
  destruct Hends as (h & w' & evs & Heq & Ht & Hend). split.
  - intros a w1. rewrite Heq. discriminate.
  - intros h1 w1. rewrite Heq. intros [= <- <-]. exists evs.
    split; [exact Ht|]. split; [exact Hend|].
    intros HS. unfold attached in HS.
    destruct Hend as [[-> _]|[[-> _]|[[-> _]|[(_ & Hf & _)|(_ & Hf & _)]]]];
      auto; congruence.
Qed.

(** Client 3, all calls succeeding and no signal arriving: it ends with
    EXIT_SUCCESS after its last line. *)
Lemma client_ends_by_exit_or_signal_witness :
  let w' := world_of (client_process calm_env 3 (init_world init_game)) in
  client_process calm_env 3 (init_world init_game)
    = Stop (Exit EXIT_SUCCESS) w' /\
  exists evs,
    trace w' = trace (init_world init_game) ++ evs /\
    client_end calm_env 3 (Exit EXIT_SUCCESS) evs /\
    (attached calm_env ->
     Exit EXIT_SUCCESS = KilledBy SIGUSR1 \/
     Exit EXIT_SUCCESS = Exit EXIT_SUCCESS).
Proof.
  intros w'.
  assert (Hrun : client_process calm_env 3 (init_world init_game)
                 = Stop (Exit EXIT_SUCCESS) w') by (vm_compute; reflexivity).
  split; [exact Hrun|].
  exact (proj2 (client_ends_by_exit_or_signal calm_env 3 (init_world init_game)
                  eq_refl (fun _ _ => eq_refl) eq_refl eq_refl)
               (Exit EXIT_SUCCESS) w' Hrun).
Defined.

(** X10.  When no signal arrives and the other processes leave the
    segment alone, the registration of client [i] (lines 122-124) returns,
    whether its semaphore calls succeed or not, with the pid of the client
    in slot [i] of [clientpids] and the rest of the segment as it was.  And
    a broadcast that the watchdog, with the segment attached, makes on a
    segment with that table sends its signal number [i] to that pid,
    provided that the slots before [i] hold pids of other processes than
    the watchdog: a slot before it that is still 0 ends the broadcast, and
    the watchdog, there, and this client does not get the signal from
    it. *)
Theorem registered_pid_gets_the_signal
    (E E' : env) (i : Z) (w w2 : world) :
  quiet E -> alone E -> in_clients i = true -> pids_wf w ->
  quiet E' -> alone E' -> attached E' ->
  exists w',
    client_register E i w = Ret tt w' /\
    shm w' = mk_game (frontrunner (shm w)) (runs_done (shm w))
                     (<[Z.to_nat i := pid E]> (clientpids (shm w))) /\
    (clientpids (shm w2) = clientpids (shm w') ->
     strangersb E' (take (Z.to_nat i) (clientpids (shm w'))) = true ->
     exists evs,
       trace (world_of (watchdog_broadcast E' w2)) = trace w2 ++ evs /\
       signals_sent evs !! Z.to_nat i = Some (pid E)).
Proof.
  intros HQ HA Hi Hwf HQ' HA' HS'.
  destruct (register_stores_pid E HQ HA i w Hi Hwf) as (w' & Hr & Hs).
  exists w'. split; [exact Hr|]. split; [exact Hs|].
  intros H2 Hstr.
  assert (Hwf2 : pids_wf w2).
  { unfold pids_wf. rewrite H2, Hs. simpl. rewrite length_insert. exact Hwf. }
  destruct (broadcast_signals E' HQ' HA' HS' client_indices w2
              client_indices_in_range Hwf2) as (w3 & evs & Hb & _ & _ & Ht & Hsig).
  rewrite (all_slots _ Hwf2) in Hb, Hsig.
  exists evs. split.
  - unfold watchdog_broadcast. rewrite Hb.
    destruct (strangersb E' (clientpids (shm w2))); exact Ht.
  - rewrite Hsig, H2. apply up_to_self_lookup; [exact Hstr|].
    rewrite Hs. simpl. apply list_lookup_insert_eq.
    unfold pids_wf in Hwf. rewrite Hwf.
    unfold in_clients in Hi. apply andb_prop in Hi as [H0 H1].
    apply Z.leb_le in H0. apply Z.ltb_lt in H1. lia.
Qed.

(** Clients 0, 1 and 2 have registered; client 3, with the pid 4246 and
    every [semop] failing, registers.  The watchdog takes its first step
    after that, and no other client registers; client 0 wins.  The
    broadcast signals the four clients, client 3 fourth, and ends with the
    watchdog at the empty slot 4. *)
Lemma registered_pid_gets_the_signal_witness :
  let E := with_pid 4246 nosem_env in
  let w := init_world (mk_game 0 0 (4243 :: 4244 :: 4245 :: replicate 9 0)) in
  let g := mk_game 0 0 (4243 :: 4244 :: 4245 :: 4246 :: replicate 8 0) in
  let inbox := replicate 100 (RcvMsg (client_message 0)) in
  let wb := at_broadcast calm_env inbox (init_world g) in
  exists w',
    client_register E 3 w = Ret tt w' /\
    shm w' = g /\
    watchdog_process calm_env inbox (init_world g) =
      (watchdog_broadcast calm_env ;; exit EXIT_SUCCESS) wb /\
    exists evs,
      trace (world_of (watchdog_broadcast calm_env wb)) = trace wb ++ evs /\
      signals_sent evs !! Z.to_nat 3 = Some 4246.
Proof.
  intros E w g inbox wb.
  destruct (registered_pid_gets_the_signal E calm_env 3 w wb
              eq_refl (fun _ _ => eq_refl) eq_refl eq_refl
              eq_refl (fun _ _ => eq_refl) eq_refl)
    as (w' & Hr & Hs & Hb).
  exists w'. split; [exact Hr|]. split; [exact Hs|].
  split; [vm_compute; reflexivity|].
  apply Hb.
  - rewrite Hs. vm_compute. reflexivity.
  - rewrite Hs. reflexivity.
Defined.

(** X11.  [rand] returns no negative number.  Then the delay of
    [random_sleep] (lines 292-293) is below 398 microseconds, every sleep
    in the life of a client process is that short, and two processes whose
    pids leave the same remainder modulo 1234 sleep equally long. *)
Theorem sleeps_are_short (E : env) :
  (forall s, 0 <= fst (prng_next E s)) ->
  0 <= sleep_usec E < 398 /\
  (forall i w, emitted short_sleep w (world_of (client_process E i w))) /\
  (forall E', Z.rem (pid E') 1234 = Z.rem (pid E) 1234 ->
              prng_init E' = prng_init E -> prng_next E' = prng_next E ->
              sleep_usec E' = sleep_usec E).
Proof.
  intros Hrand. pose proof (sleep_usec_bound E Hrand) as Hb.
  split; [exact Hb|]. split.
  - intros i w. apply (emitted_client_process E _ w i); [|apply emitted_refl].
    intros [] He; simpl in *; auto. subst. exact Hb.
  - intros E'. apply sleep_usec_seed.
Qed.

Lemma sleeps_are_short_witness :
  0 <= sleep_usec calm_env < 398 /\
  emitted short_sleep (init_world init_game)
          (world_of (client_process calm_env 3 (init_world init_game))).
Proof.
  assert (H : forall s, 0 <= fst (prng_next calm_env s)).
  { intros s. simpl. apply Z.mod_pos_bound. lia. }
  split.
  - exact (proj1 (sleeps_are_short calm_env H)).
  - exact (proj1 (proj2 (sleeps_are_short calm_env H)) 3 (init_world init_game)).
Defined.

(** * Further results: the semaphore *)

(** X18.  Whatever the environment does and however the process ends,
    whether the semaphore operations succeed or fail, a client process
    and the watchdog process call [sem_operation] in turn: LOCK first,
    then UNLOCK, then LOCK again, and so on.  No process asks for the lock
    twice without giving it back in between, and none gives back what it
    has not asked for. *)
Theorem semaphore_calls_take_turns (E : env) :
  (forall i w, exists evs inside,
     trace (world_of (client_process E i w)) = trace w ++ evs /\
     turns evs = Some inside) /\
  (forall inbox w, exists evs inside,
     trace (world_of (watchdog_process E inbox w)) = trace w ++ evs /\
     turns evs = Some inside).
Proof.
  assert (H0 : forall w, taking_turns false w w).
  { intros w. exists []. rewrite app_nil_r. split; reflexivity. }
  split.
  - intros i w.
    destruct (hoare_world_of _ _ _ _ w (turns_client_process E w i) (H0 w)
                (fun _ => in_turns_of w false)) as (b & evs & Ht & Hs).
    exists evs, b. split; assumption.
  - intros inbox w.
    destruct (hoare_world_of _ _ _ _ w (turns_watchdog_process E w inbox) (H0 w)
                (fun _ => in_turns_of w false)) as (b & evs & Ht & Hs).
    exists evs, b. split; assumption.
Qed.

(** * Further results: main *)

(** X12.  When no signal arrives and one of [msgget], [semget],
    [semctl(SETVAL)], [shmget] fails, [main] reports the first that does
    with [perror] and exits with EXIT_FAILURE at once: it has forked no
    child, and it has removed nothing, so that what it had created before
    stays behind: the queue when a later call fails, and the semaphore
    too when [semctl] or [shmget] does. *)
Theorem failed_creation_ends_main
    (E : env) (S : sys) (inbox : list rcv) (waits : list Z) (m : mworld)
    (name : string) :
  quiet E -> setup_failure S = Some name ->
  exists m' evs,
    main E S inbox waits m = MStop (Exit EXIT_FAILURE) m' /\
    history m' = history m ++ evs ++ [Ev (EvPerror name)] /\
    Forall gives_up evs /\
    Forall (fun e => is_fork e = false) evs /\
    (name <> "msgget"%string -> In (Sys (Msgget true)) evs) /\
    (name <> "msgget"%string -> name <> "semget"%string ->
     In (Sys (Semget true)) evs).
Proof.
  intros HQ Hf.
  destruct (main_setup_fails E S name m HQ Hf) as (m' & evs & Heq & H).
  exists m', evs. split; [|exact H].
  unfold main. unfold mbind at 1. rewrite Heq. reflexivity.
Qed.

Lemma failed_creation_ends_main_witness :
  exists m' evs,
    main calm_env (mk_sys true true true false (fun _ => 100) true true true)
         [] [] (boot init_game) = MStop (Exit EXIT_FAILURE) m' /\
    history m' = history (boot init_game) ++ evs ++ [Ev (EvPerror "shmget")] /\
    Forall gives_up evs /\
    Forall (fun e => is_fork e = false) evs /\
    ("shmget"%string <> "msgget"%string -> In (Sys (Msgget true)) evs) /\
    ("shmget"%string <> "msgget"%string -> "shmget"%string <> "semget"%string ->
     In (Sys (Semget true)) evs).
Proof.
  exact (failed_creation_ends_main calm_env
           (mk_sys true true true false (fun _ => 100) true true true)
           [] [] (boot init_game) "shmget" eq_refl eq_refl).
Defined.

(** X13.  When no signal arrives, the creations succeed, and the fork
    number [k] (0 for the watchdog, [i+1] for client [i]) is the first to
    fail, [main] reports it with [perror] and exits with EXIT_FAILURE.  It
    has made [k] children before; it neither signals nor waits for them,
    and it removes none of the three objects. *)
Theorem failed_fork_ends_main
    (E : env) (S : sys) (inbox : list rcv) (waits : list Z) (m : mworld)
    (k : nat) :
  quiet E -> setup_failure S = None ->
  (k <= Z.to_nat MAXCLIENTS)%nat ->
  (forall j, (j < k)%nat -> in_parent (fork_result S j)) ->
  fork_result S k = -1 ->
  exists m' evs,
    main E S inbox waits m = MStop (Exit EXIT_FAILURE) m' /\
    history m' = history m ++ evs ++ [Sys (Fork (-1)); Ev (EvPerror "fork")] /\
    Forall gives_up evs /\
    length (filter is_fork evs) = k.
Proof.
  intros HQ Hok Hk Hpar Hf. destruct k as [|i].
  - unfold main. unfold mbind at 1.
    rewrite (main_setup_ok E S) by (auto using quiet_no_signal).
    unfold mbind at 1. rewrite fork_at by no_sig HQ. cbv beta iota.
    rewrite Hf. unfold mbind at 1.
    change (-1 =? 0) with false. change (-1 =? -1) with true. cbv iota.
    unfold mbind at 1. rewrite run_perror_at by no_sig HQ.
    unfold mexit.
    eexists _,
      [Sys (Msgget true); Ev (EvPrintf ("WatchdogMQ initialized" ++ nl));
       Sys (Semget true); Sys (SemctlSetval 1 true);
       Ev (EvPrintf ("SEMaccess initialized" ++ nl));
       Sys (Shmget true); Ev (EvShmWrite Fruns_done 0);
       Ev (EvPrintf ("SMgame initialized" ++ nl))].
    split; [reflexivity|].
    split; [|split].
    + cbn [history mstep]. rewrite (set_up_history E), <- !app_assoc. reflexivity.
    + repeat constructor; discriminate.
    + reflexivity.
  - unfold main. rewrite (client_indices_split i) by lia.
    rewrite (main_forks E S inbox m
               (call E (Sleep 2) ;; wait_loop E waits ;;
                main_cleanup E S)%mproc i
               (quiet_no_signal E _ _ HQ) Hok).
    2:{ intros j Hj. apply Hpar. lia. }
    set (m1 := forked E S 1 i _).
    unfold mbind at 1.
    pose proof (fork_clients_fails E S [] i
                  (seq (Datatypes.S i) (Z.to_nat MAXCLIENTS - 1 - i))
                  (Datatypes.S i) m1 (quiet_no_signal E _ _ HQ)) as Hff.
    cbn [app] in Hff. rewrite Hff.
    2:{ simpl. intros j Hj. lia. }
    2:{ simpl. rewrite Nat.add_0_r. exact Hf. }
    exists (mstep E (Ev (EvPerror "fork")) (mstep E (Sys (Fork (-1))) m1)),
      ([Sys (Msgget true); Ev (EvPrintf ("WatchdogMQ initialized" ++ nl));
        Sys (Semget true); Sys (SemctlSetval 1 true);
        Ev (EvPrintf ("SEMaccess initialized" ++ nl));
        Sys (Shmget true); Ev (EvShmWrite Fruns_done 0);
        Ev (EvPrintf ("SMgame initialized" ++ nl));
        Sys (Fork (fork_result S 0)); Sys Fflush;
        Ev (EvPrintf ("-----forking-----" ++ nl))] ++
       map (fun j => Sys (Fork (fork_result S j))) (seq 1 i)).
    split; [reflexivity|]. split; [|split].
    + cbn [history mstep forked]. unfold m1.
      rewrite (forked_history E S). cbn [history mstep]. rewrite (set_up_history E).
      rewrite <- !app_assoc. reflexivity.
    + apply Forall_app. split; [repeat constructor; discriminate|].
      eapply Forall_impl; [apply (forks_give_up S)|]. intros e (H & _). exact H.
    + rewrite filter_app, length_app, (forks_counted S). reflexivity.
Qed.

Lemma failed_fork_ends_main_witness :
  exists m' evs,
    main calm_env (sys_ok (fun j => if (j =? 3)%nat then -1 else 100)) [] []
         (boot init_game) = MStop (Exit EXIT_FAILURE) m' /\
    history m' = history (boot init_game) ++ evs ++
                 [Sys (Fork (-1)); Ev (EvPerror "fork")] /\
    Forall gives_up evs /\
    length (filter is_fork evs) = 3%nat.
Proof.
  apply (failed_fork_ends_main calm_env
           (sys_ok (fun j => if (j =? 3)%nat then -1 else 100)) [] []
           (boot init_game) 3).
  - reflexivity.
  - reflexivity.
  - unfold MAXCLIENTS. lia.
  - intros [|[|[|j]]] Hj; try lia; split; discriminate.
  - reflexivity.
Defined.

(** X14.  When no signal arrives, the creations succeed and every fork
    returns in the parent, [main] makes its thirteen children, sleeps, and
    calls [wait] until one call succeeds.  After that one success it waits
    no more: it calls [msgctl], [semctl] and [shmctl] to remove the three
    objects, each of them whether the one before succeeded or not, and
    returns.  If no [wait] ever succeeds it removes nothing. *)
Theorem parent_removes_after_first_wait
    (E : env) (S : sys) (inbox : list rcv) (m : mworld) :
  quiet E -> setup_failure S = None ->
  (forall j, (j <= Z.to_nat MAXCLIENTS)%nat -> in_parent (fork_result S j)) ->
  (forall fails r rest,
     Forall (fun x => x < 0) fails -> 0 <= r ->
     exists m' pre post,
       main E S inbox (fails ++ r :: rest) m = MRet tt m' /\
       history m' = history m ++ pre ++
                    map (fun x => Sys (Wait x)) (fails ++ [r]) ++ post /\
       length (filter is_fork pre) = Datatypes.S (Z.to_nat MAXCLIENTS) /\
       Forall (fun e => is_wait e = false /\ is_removal e = false) pre /\
       filter is_removal post =
         [Sys (MsgctlRmid (msgctl_ok S)); Sys (SemctlRmid (semctl_rmid_ok S));
          Sys (ShmctlRmid (shmctl_ok S))] /\
       Forall (fun e => is_wait e = false /\ is_fork e = false) post) /\
  (forall waits,
     Forall (fun x => x < 0) waits ->
     exists m' pre,
       main E S inbox waits m = MStop BlockedForever m' /\
       history m' = history m ++ pre ++ map (fun x => Sys (Wait x)) waits /\
       Forall (fun e => is_wait e = false /\ is_removal e = false) pre).
Proof.
  intros HQ Hok Hpar. split.
  - intros fails r rest. apply main_parent_returns; assumption.
  - intros waits. apply main_parent_blocks; assumption.
Qed.

Lemma parent_removes_after_first_wait_witness :
  exists m' pre post,
    main calm_env (mk_sys true true true true (fun _ => 100) false true false)
         [] ([-1] ++ 5 :: [7; 8]) (boot init_game) = MRet tt m' /\
    history m' = history (boot init_game) ++ pre ++
                 map (fun x => Sys (Wait x)) ([-1] ++ [5]) ++ post /\
    length (filter is_fork pre) = Datatypes.S (Z.to_nat MAXCLIENTS) /\
    Forall (fun e => is_wait e = false /\ is_removal e = false) pre /\
    filter is_removal post =
      [Sys (MsgctlRmid false); Sys (SemctlRmid true); Sys (ShmctlRmid false)] /\
    Forall (fun e => is_wait e = false /\ is_fork e = false) post.
Proof.
  assert (Hpar : forall j : nat, (j <= Z.to_nat MAXCLIENTS)%nat ->
                   in_parent (fork_result
                     (mk_sys true true true true (fun _ => 100) false true false)
                     j)).
  { intros j _. split; discriminate. }
  apply (proj1 (parent_removes_after_first_wait calm_env
                  (mk_sys true true true true (fun _ => 100) false true false)
                  [] (boot init_game) eq_refl eq_refl Hpar)
           [-1] 5 [7; 8]).
  - repeat constructor.
  - lia.
Defined.

(** X15.  In the process in which the first [fork] returns 0, the
    creations having succeeded and no signal having arrived before, [main]
    is the watchdog: it ends as [watchdog_process] does, started with
    nothing done yet, the generator and the signal disposition of the
    parent, after the nine steps of the parent; and when the other
    processes have left the segment alone during these steps, the segment
    it starts from is [init_game], all zeros. *)
Theorem first_child_is_the_watchdog
    (E : env) (S : sys) (inbox : list rcv) (waits : list Z) (m : mworld) :
  no_signal E (mclock m) 9 -> setup_failure S = None ->
  fork_result S 0 = 0 ->
  exists w h w',
    trace w = [] /\ clock w = (mclock m + 9)%nat /\
    rng w = mrng m /\ handler w = mhandler m /\
    (idle E (mclock m) 9 -> shm w = init_game) /\
    watchdog_process E inbox w = Stop h w' /\
    main E S inbox waits m = MStop h (grown w').
Proof.
  intros Hsig Hok H0.
  destruct (main_watchdog_child E S inbox waits m Hsig Hok H0)
    as (h & w' & Hw & Hm).
  exists (child_of (mstep E (Sys (Fork 0)) (set_up E m))), h, w'.
  split; [reflexivity|]. split; [simpl; lia|].
  split; [reflexivity|]. split; [reflexivity|].
  split; [|split; assumption].
  intros Hid. cbn [child_of shm mshm mstep].
  destruct (set_up_facts E m) as (Hc & _ & _ & Hs).
  rewrite Hs by (intros k g Hk; apply Hid; lia).
  apply Hid. rewrite Hc. lia.
Qed.

Lemma first_child_is_the_watchdog_witness :
  exists w h w',
    trace w = [] /\ clock w = 9%nat /\ rng w = 1 /\ handler w = false /\
    (idle calm_env 0 9 -> shm w = init_game) /\
    watchdog_process calm_env [RcvErr] w = Stop h w' /\
    main calm_env (sys_ok (fun _ => 0)) [RcvErr] [] (boot init_game) =
    MStop h (grown w').
Proof.
  apply (first_child_is_the_watchdog calm_env (sys_ok (fun _ => 0)) [RcvErr] []
           (boot init_game)).
  - intros k _. discriminate.
  - reflexivity.
  - reflexivity.
Defined.

(** X16.  In the process in which the forks of the watchdog and of the
    clients before [i] return in the parent and the next one returns 0,
    the creations having succeeded and no signal having arrived before,
    [main] is client [i], a number below [MAXCLIENTS]: it ends as
    [client_process i] does, started with nothing done yet after the
    [12 + i] steps of the parent; and when the other processes have left
    the segment alone so far, the segment it starts from is [init_game]. *)
Theorem later_child_is_a_client
    (E : env) (S : sys) (inbox : list rcv) (waits : list Z) (m : mworld)
    (i : nat) :
  (i < Z.to_nat MAXCLIENTS)%nat ->
  no_signal E (mclock m) (12 + i) -> setup_failure S = None ->
  (forall j, (j <= i)%nat -> in_parent (fork_result S j)) ->
  fork_result S (Datatypes.S i) = 0 ->
  in_clients (Z.of_nat i) = true /\
  exists w h w',
    trace w = [] /\ clock w = (mclock m + 12 + i)%nat /\
    rng w = mrng m /\ handler w = mhandler m /\
    (idle E (mclock m) (12 + i) -> shm w = init_game) /\
    client_process E (Z.of_nat i) w = Stop h w' /\
    main E S inbox waits m = MStop h (grown w').
Proof.
  intros Hi Hsig Hok Hpar H0. split.
  { unfold in_clients. apply andb_true_intro. split.
    - apply Z.leb_le. lia.
    - apply Z.ltb_lt. unfold MAXCLIENTS in *. lia. }
  destruct (main_client_child E S inbox waits m i Hi Hsig Hok Hpar H0)
    as (h & w' & Hc & Hm).
  destruct (child_state E S m i) as (H1 & H2 & H3 & H4 & H5).
  eexists _, h, w'.
  split; [exact H1|]. split; [exact H2|]. split; [exact H3|].
  split; [exact H4|]. split; [exact H5|]. split; assumption.
Qed.

Lemma later_child_is_a_client_witness :
  in_clients (Z.of_nat 3) = true /\
  exists w h w',
    trace w = [] /\ clock w = 15%nat /\ rng w = 1 /\ handler w = false /\
    (idle calm_env 0 15 -> shm w = init_game) /\
    client_process calm_env 3 w = Stop h w' /\
    main calm_env (sys_ok (fun j => if (j =? 4)%nat then 0 else 100)) [] []
         (boot init_game) = MStop h (grown w').
Proof.
  apply (later_child_is_a_client calm_env
           (sys_ok (fun j => if (j =? 4)%nat then 0 else 100)) [] []
           (boot init_game) 3).
  - unfold MAXCLIENTS. lia.
  - intros k _. discriminate.
  - reflexivity.
  - intros [|[|[|[|j]]]] Hj; try lia; split; discriminate.
  - reflexivity.
Defined.

